(** * ChatService: reaction-driven paged viewer and rating widget

    A shallow embedding of [src/ChatService.js].  The class talks to the
    chat platform only through method calls on message, channel and reaction
    objects; here every such call is recorded, in issue order, in a list of
    [call]s, and the mutable closure variables of the two widgets ([page],
    the shared [song] object, the open reaction collectors) become explicit
    state records. *)

From stdpp Require Import base option list gmap strings.
From Stdlib Require Import ZArith Ascii String Lia.

Open Scope string_scope.
Open Scope list_scope.

(** ** JavaScript values, songs and message contents *)

(** The values a song field can hold. *)
Inductive jsval :=
| VUndefined
| VNull
| VBool (b : bool)
| VNum (n : Z)
| VStr (s : string).

Global Instance jsval_eq_dec : EqDecision jsval.
Proof. solve_decision. Defined.

(** A [Song] as property reads and [for ... in] see it: its own enumerable
    properties, and the enumerable properties it inherits along its
    prototype chain (the nearest one for each key), all of them plain
    writable data properties. *)
Record Song := mkSong {
  own_fields : gmap string jsval;
  proto_fields : gmap string jsval
}.

(** Property read [o[key]]: the own property, else the inherited one; a
    missing property reads as [undefined]. *)
Definition read_field (o : Song) (key : string) : option jsval :=
  match own_fields o !! key with
  | Some v => Some v
  | None => proto_fields o !! key
  end.

Definition get_field (o : Song) (key : string) : jsval :=
  default VUndefined (read_field o key).

Inductive embed_field :=
| Field (name : string) (value : jsval) (inline : bool)
| BlankField.

Record embed := mkEmbed { color : option Z; fields : list embed_field }.

(** What can be sent to a channel: a string, a [MessageEmbed], or
    [undefined] (the value of [pages[i]] past the end of the array). *)
Inductive content :=
| CText (s : string)
| CEmbed (e : embed)
| CUndefined.

Record user := mkUser { id : string; bot : bool }.

Global Instance user_eq_dec : EqDecision user.
Proof. solve_decision. Defined.

(** A Discord message as far as the service looks at it: the channel it
    lives in ([None] is [typeof msg.channel === "undefined"]) and its
    author. *)
Record message := mkMessage { channel : option string; author : user }.

(** A [MessageReaction]: the emoji, the cached users that reacted with it,
    and the message it sits on. *)
Record reaction := mkReaction {
  emoji_name : string;
  users : list user;
  r_message : message
}.

(** ** Calls leaving the service *)

Inductive logged :=
| LText (s : string)
| LContent (c : content)
| LPages (ps : list content)
| LSong (s : Song).

(** One entry per call the service makes on a collaborator.  [SimpleNote]
    records an invocation of the note emitter; [simpleNote] below says which
    sends it performs. *)
Inductive call :=
| ConsoleLog (x : logged)
| ChannelSend (c : content)
| MessageEdit (c : content)
| MessageReact (e : option string)
| UsersRemove (emoji : string) (u : user)
| ReactionsRemoveAll
| ProcessRating (u : user) (delta : Z) (ignoreCd : bool)
| SimpleNote (target : message) (text : string) (type : string).

Definition is_edit (c : call) : bool :=
  match c with MessageEdit _ => true | _ => false end.

(** The calls that reach the messaging gateway (everything except console
    output, the scoring callback and the note marker). *)
Definition is_gateway (c : call) : bool :=
  match c with
  | ChannelSend _ | MessageEdit _ | MessageReact _
  | UsersRemove _ _ | ReactionsRemoveAll => true
  | ConsoleLog _ | ProcessRating _ _ _ | SimpleNote _ _ _ => false
  end.

Definition is_note_of (type : string) (c : call) : bool :=
  match c with
  | SimpleNote _ _ t => bool_decide (t = type)
  | _ => false
  end.

Definition is_note (c : call) : bool :=
  match c with SimpleNote _ _ _ => true | _ => false end.

(** How many calls of a list satisfy a test. *)
Definition count (P : call -> bool) (cs : list call) : nat :=
  List.length (filter (fun c => P c = true) cs).

(** ** msgType and simpleNote *)

Module msgType.
Definition FAIL : string := "fail".
Definition INFO : string := "info".
Definition MUSIC : string := "music".
Definition SEARCH : string := "search".
End msgType.

(** [s.split("\n")] *)
Fixpoint split_lines (s : string) : list string :=
  match s with
  | EmptyString => [EmptyString]
  | String c rest =>
      if Ascii.eqb c "010"%char then EmptyString :: split_lines rest
      else match split_lines rest with
           | l :: ls => String c l :: ls
           | [] => [String c EmptyString]
           end
  end.

(** The template literal chosen by the [switch (type)]. *)
Definition note_line (type line : string) : string :=
  if bool_decide (type = msgType.INFO) then ":information_source: | " +:+ line
  else if bool_decide (type = msgType.MUSIC) then ":musical_note: | " +:+ line
  else if bool_decide (type = msgType.SEARCH) then ":mag: | " +:+ line
  else if bool_decide (type = msgType.FAIL) then ":x: | " +:+ line
  else line.

(** What a caller gets back from [simpleNote] and [send]: either the
    already resolved stub [{"delete": () => null}], or the promise of the
    gateway's [channel.send(c)]. *)
Inductive send_result :=
| Stub
| SendPromise (c : content).

(** [stub.delete()]: evaluates to [null] and calls nothing. *)
Definition stub_delete : jsval * list call := (VNull, []).

Definition debugPrint (x : logged) : list call := [ConsoleLog x].

(** [simpleNote(msg, text, type)]; [text] stands for [text.toString()]. *)
Definition simpleNote (msg : message) (text type : string)
  : send_result * list call :=
  let log := debugPrint (LText text) in
  match channel msg with
  | None => (Stub, log)
  | Some _ =>
      let lines := note_line type <$> split_lines text in
      (foldl (fun _ l => SendPromise (CText l)) Stub lines,
       log ++ ((fun l => ChannelSend (CText l)) <$> lines))
  end.

(** [send(msg, content)] *)
Definition send (msg : message) (c : content) : send_result * list call :=
  let log := debugPrint (LContent c) in
  match channel msg with
  | None => (Stub, log)
  | Some _ => (SendPromise c, log ++ [ChannelSend c])
  end.

(** Replace every [SimpleNote] marker by the calls the note emitter makes
    for it. *)
Definition expand (c : call) : list call :=
  match c with
  | SimpleNote m text type => (simpleNote m text type).2
  | _ => [c]
  end.

Definition gateway_calls (cs : list call) : list call :=
  filter (fun c => is_gateway c = true) (cs ≫= expand).

(** ** buildSongEmbed *)

(** [if (v === "") v = "-"] on a value. *)
Definition dash_if_empty (v : jsval) : jsval :=
  if decide (v = VStr "") then VStr "-" else v.

(** Body of the [for (const key in song)] loop for one key, which is an
    own or an inherited property: [o] is the own property and [p] the
    inherited one before the pass, the result is the own property after
    it.  [song[key]] reads the own property if there is one, and the
    assignment always writes an own property. *)
Definition dash_entry (o p : option jsval) : option jsval :=
  match o, p with
  | Some v, _ => Some (dash_if_empty v)
  | None, Some v => if decide (v = VStr "") then Some (VStr "-") else None
  | None, None => None
  end.

(** [buildSongEmbed(song)]: the song object after the loop, and the embed. *)
Definition buildSongEmbed (s : Song) : Song * embed :=
  let s' := mkSong (merge dash_entry (own_fields s) (proto_fields s))
                   (proto_fields s) in
  (s', mkEmbed (Some 890629%Z)
         [ Field "Title" (get_field s' "title") true;
           Field "Artist" (get_field s' "artist") true;
           BlankField;
           Field "Requester" (get_field s' "requester") true;
           Field "Rating" (get_field s' "rating") true;
           Field "Source" (get_field s' "src") true ]).

(** ** postReactionEmojis *)

(** What the gateway sees of one [msg.react(e)]: the request, and later its
    acknowledgement or its failure. *)
Inductive attach_event :=
| AttachBegin (e : option string)
| AttachAck (e : option string)
| AttachFail (e : option string).

(** [postReactionEmojis(msg, emojiList)].  [react n e] is the gateway's
    answer to [msg.react(e)] when [n] attaches were issued before it
    ([true]: the promise resolves).  [emojiList.shift()] is taken first, so
    an empty list reacts with [undefined] ([None]); the length test comes
    only in the [then] callback.  The result is the trace and whether the
    returned promise resolves ([true]) or rejects. *)
Fixpoint postReactionEmojis (react : nat -> option string -> bool) (n : nat)
    (emojiList : list string) : list attach_event * bool :=
  match emojiList with
  | [] =>
      if react n None then ([AttachBegin None; AttachAck None], true)
      else ([AttachBegin None; AttachFail None], false)
  | e :: rest =>
      if react n (Some e) then
        match rest with
        | [] => ([AttachBegin (Some e); AttachAck (Some e)], true)
        | _ :: _ =>
            let '(t, r) := postReactionEmojis react (S n) rest in
            (AttachBegin (Some e) :: AttachAck (Some e) :: t, r)
        end
      else ([AttachBegin (Some e); AttachFail (Some e)], false)
  end.

(** The attaches requested, and those acknowledged, in trace order. *)
Definition begun (t : list attach_event) : list (option string) :=
  t ≫= (fun ev => match ev with AttachBegin e => [e] | _ => [] end).

Definition acked (t : list attach_event) : list (option string) :=
  t ≫= (fun ev => match ev with AttachAck e => [e] | _ => [] end).

(** Strict sequencing of a trace: every request is answered before the next
    request is made, and nothing follows a failure. *)
Fixpoint strictly_sequenced (t : list attach_event) : bool :=
  match t with
  | [] => true
  | AttachBegin e :: AttachAck e' :: t' =>
      bool_decide (e = e') && strictly_sequenced t'
  | [AttachBegin e; AttachFail e'] => bool_decide (e = e')
  | _ => false
  end.

(** ** The messaging gateway, as far as the answers matter *)

(** [send_reply c]: the message created by [channel.send(c)], or [None] when
    the promise rejects.  [react_reply n e]: see [postReactionEmojis]. *)
Record gateway := mkGateway {
  send_reply : content -> option message;
  react_reply : nat -> option string -> bool
}.

(** [pages[i]] *)
Definition page_at (pages : list content) (i : nat) : content :=
  default CUndefined (pages !! i).

(** What the event loop delivers to a widget: a reaction added by a user,
    or the timer of one of its collectors running out. *)
Inductive event (C : Type) :=
| ReactionAdd (r : reaction) (u : user)
| CollectorEnd (c : C).
Arguments ReactionAdd {C} r u.
Arguments CollectorEnd {C} c.

(** ** pagedContent *)

Module Paged.

Definition REWIND : string := "⏪".
Definition FORWARD : string := "⏩".

Inductive collector := nextReaction | backReaction.

Global Instance collector_eq_dec : EqDecision collector.
Proof. solve_decision. Defined.

(** The closure of [pagedContent] once the widget is up. *)
Record session := mkSession {
  msg : message;            (* the user message the widget answers *)
  pages : list content;
  page : nat;               (* [let page = 0] *)
  curPage : message;        (* the message showing the current page *)
  open : list collector     (* collectors still listening *)
}.

Definition time (c : collector) : Z := 120000%Z.

(** The filter handed to [createReactionCollector]. *)
Definition filter_of (m : message) (c : collector) (r : reaction) (u : user)
  : bool :=
  match c with
  | nextReaction =>
      bool_decide (emoji_name r = FORWARD) && bool_decide (id u = id (author m))
  | backReaction =>
      bool_decide (emoji_name r = REWIND) && bool_decide (id u = id (author m))
  end.

Definition set_page (s : session) (p : nat) : session :=
  mkSession (msg s) (pages s) p (curPage s) (open s).

Definition close (s : session) (c : collector) : session :=
  mkSession (msg s) (pages s) (page s) (curPage s)
            (filter (fun c' => c' ≠ c) (open s)).

(** The ["collect"] listeners. *)
Definition on_collect (c : collector) (s : session) (r : reaction)
  : session * list call :=
  let rm := UsersRemove (emoji_name r) (author (msg s)) in
  match c with
  | nextReaction =>
      if (page s + 1 <? List.length (pages s))%nat then
        let p := S (page s) in
        (set_page s p, [rm; MessageEdit (page_at (pages s) p)])
      else (s, [rm])
  | backReaction =>
      if (0 <? page s)%nat then
        let p := pred (page s) in
        (set_page s p, [rm; MessageEdit (page_at (pages s) p)])
      else (s, [rm])
  end.

(** The ["end"] listeners. *)
Definition on_end (c : collector) (s : session) : session * list call :=
  (s, [ReactionsRemoveAll]).

(** A collector hands a reaction to its listener when it is still open and
    its filter accepts the reaction. *)
Definition offer (c : collector) (r : reaction) (u : user)
    (acc : session * list call) : session * list call :=
  let '(s, cs) := acc in
  if bool_decide (c ∈ open s) && filter_of (msg s) c r u then
    let '(s', cs') := on_collect c s r in (s', cs ++ cs')
  else (s, cs).

(** One event: a reaction is offered to both collectors in creation order;
    a timer that runs out ends its collector, once. *)
Definition dispatch (s : session) (ev : event collector)
  : session * list call :=
  match ev with
  | ReactionAdd r u =>
      offer backReaction r u (offer nextReaction r u (s, []))
  | CollectorEnd c =>
      if bool_decide (c ∈ open s) then on_end c (close s c) else (s, [])
  end.

Fixpoint run (s : session) (evs : list (event collector))
  : session * list call :=
  match evs with
  | [] => (s, [])
  | ev :: evs' =>
      let '(s1, cs1) := dispatch s ev in
      let '(s2, cs2) := run s1 evs' in
      (s2, cs1 ++ cs2)
  end.

(** [pagedContent(msg, pages)]: the calls made while the widget is set up,
    and the widget if set-up got as far as creating the collectors. *)
Definition pagedContent (gw : gateway) (m : message) (ps : list content)
  : option session * list call :=
  let log := debugPrint (LPages ps) in
  match channel m with
  | None => (None, log)
  | Some _ =>
      let first := page_at ps 0 in
      match send_reply gw first with
      | None => (None, log ++ [ChannelSend first])
      | Some cur =>
          let '(t, ok) := postReactionEmojis (react_reply gw) 0 [REWIND; FORWARD] in
          let cs := log ++ ChannelSend first :: (MessageReact <$> begun t) in
          if ok then
            (Some (mkSession m ps 0 cur [nextReaction; backReaction]), cs)
          else (None, cs)
      end
  end.

End Paged.

(** ** displaySong and handleRatingReaction *)

Module Rating.

Definition UP : string := "⏫".
Definition DOWN : string := "⏬".
Definition POOP : string := "💩".

Inductive collector := upReaction | downReaction | poopReaction.

Global Instance collector_eq_dec : EqDecision collector.
Proof. solve_decision. Defined.

(** The closure of [displaySong] once the widget is up.  [song] is the
    caller's object: every mutation of it is visible to all later
    readers, so it is threaded through. *)
Record session := mkSession {
  song : Song;
  songMsg : message;
  open : list collector
}.

Definition time (c : collector) : Z := 600000%Z.

Definition emoji_of (c : collector) : string :=
  match c with
  | upReaction => UP
  | downReaction => DOWN
  | poopReaction => POOP
  end.

(** The filter handed to [createReactionCollector]. *)
Definition filter_of (c : collector) (r : reaction) (u : user) : bool :=
  bool_decide (emoji_name r = emoji_of c) && negb (bot u).

(** How the promise returned by the scoring callback settles: resolved
    with a note (or with nothing), or rejected with an error, given by
    its [toString()].  The listener calls [.then] on what the callback
    returns, so the callback is a function that returns a promise. *)
Inductive rating_result :=
| Resolved (note : option string)
| Rejected (err : string).

(** [if (note)] *)
Definition truthy (note : option string) : bool :=
  match note with
  | Some s => negb (bool_decide (s = ""))
  | None => false
  end.

Definition set_song (s : session) (sg : Song) : session :=
  mkSession sg (songMsg s) (open s).

Definition close (s : session) (c : collector) : session :=
  mkSession (song s) (songMsg s) (filter (fun c' => c' ≠ c) (open s)).

(** The continuation hung on the callback's promise:
    [.then((note) => ...).catch((err) => ...)]. *)
Definition settled (r : reaction) (sg : Song) (res : rating_result)
  : Song * list call :=
  match res with
  | Resolved note =>
      let '(sg', e) := buildSongEmbed sg in
      (sg', MessageEdit (CEmbed e) ::
            match note with
            | Some text =>
                if truthy note then [SimpleNote (r_message r) text msgType.MUSIC]
                else []
            | None => []
            end)
  | Rejected err => (sg, [SimpleNote (r_message r) err msgType.FAIL])
  end.

Fixpoint settle_all (r : reaction) (sg : Song) (ps : list rating_result)
  : Song * list call :=
  match ps with
  | [] => (sg, [])
  | res :: ps' =>
      let '(sg1, cs1) := settled r sg res in
      let '(sg2, cs2) := settle_all r sg1 ps' in
      (sg2, cs1 ++ cs2)
  end.

Section WithCallback.

(** The caller's scoring callback: what it does to the song while it
    runs, and how the promise it returns settles. *)
Variable processRating : Song -> user -> Z -> bool -> Song * rating_result.

(** The synchronous part of the [forEach] over the non-bot users: the
    reaction is taken back and the callback is invoked; the promises
    are left pending. *)
Fixpoint rate_each (r : reaction) (us : list user) (sg : Song)
    (delta : Z) (ignoreCd : bool)
  : Song * list call * list rating_result :=
  match us with
  | [] => (sg, [], [])
  | u :: us' =>
      let '(sg1, res) := processRating sg u delta ignoreCd in
      let '(sg2, cs, ps) := rate_each r us' sg1 delta ignoreCd in
      (sg2,
       UsersRemove (emoji_name r) u :: ProcessRating u delta ignoreCd :: cs,
       res :: ps)
  end.

Definition humans (r : reaction) : list user :=
  filter (fun u => bot u = false) (users r).

(** [handleRatingReaction(reaction, song, delta, processRating, ignoreCd)],
    run to completion: the loop first, then the promises settle in the
    order in which they were created. *)
Definition handleRatingReaction (r : reaction) (sg : Song) (delta : Z)
    (ignoreCd : bool) : Song * list call :=
  let '(sg1, cs1, ps) := rate_each r (humans r) sg delta ignoreCd in
  let '(sg2, cs2) := settle_all r sg1 ps in
  (sg2, cs1 ++ cs2).

Definition cleanNote : string := "Let me clean that 💩 for you".

(** The ["collect"] listeners. *)
Definition on_collect (c : collector) (s : session) (r : reaction)
  : session * list call :=
  match c with
  | upReaction =>
      let '(sg, cs) := handleRatingReaction r (song s) 1 false in
      (set_song s sg, cs)
  | downReaction =>
      let '(sg, cs) := handleRatingReaction r (song s) (-1) false in
      (set_song s sg, cs)
  | poopReaction =>
      let '(sg, cs) := handleRatingReaction r (song s) (-1000) true in
      (set_song s sg, SimpleNote (r_message r) cleanNote msgType.MUSIC :: cs)
  end.

(** The ["end"] listeners. *)
Definition on_end (c : collector) (s : session) : session * list call :=
  (s, [ReactionsRemoveAll]).

Definition offer (c : collector) (r : reaction) (u : user)
    (acc : session * list call) : session * list call :=
  let '(s, cs) := acc in
  if bool_decide (c ∈ open s) && filter_of c r u then
    let '(s', cs') := on_collect c s r in (s', cs ++ cs')
  else (s, cs).

Definition dispatch (s : session) (ev : event collector)
  : session * list call :=
  match ev with
  | ReactionAdd r u =>
      offer poopReaction r u
        (offer downReaction r u (offer upReaction r u (s, [])))
  | CollectorEnd c =>
      if bool_decide (c ∈ open s) then on_end c (close s c) else (s, [])
  end.

Fixpoint run (s : session) (evs : list (event collector))
  : session * list call :=
  match evs with
  | [] => (s, [])
  | ev :: evs' =>
      let '(s1, cs1) := dispatch s ev in
      let '(s2, cs2) := run s1 evs' in
      (s2, cs1 ++ cs2)
  end.

(** [displaySong(msg, song, processRating)]: the song object after the
    call, the calls made during set-up, and the widget if set-up got as
    far as creating the collectors.  The callback is only captured by the
    listeners, which [dispatch] runs. *)
Definition displaySong (gw : gateway) (m : message) (sg : Song)
  : Song * option session * list call :=
  let log := debugPrint (LSong sg) in
  match channel m with
  | None => (sg, None, log)
  | Some _ =>
      let '(sg', e) := buildSongEmbed sg in
      match send_reply gw (CEmbed e) with
      | None => (sg', None, log ++ [ChannelSend (CEmbed e)])
      | Some sm =>
          let '(t, ok) :=
            postReactionEmojis (react_reply gw) 0 [UP; DOWN; POOP] in
          let cs := log ++ ChannelSend (CEmbed e) :: (MessageReact <$> begun t) in
          if ok then
            (sg', Some (mkSession sg' sm
                          [upReaction; downReaction; poopReaction]), cs)
          else (sg', None, cs)
      end
  end.

End WithCallback.

(** The delta and the cooldown flag each listener passes on. *)
Definition delta_of (c : collector) : Z :=
  match c with
  | upReaction => 1
  | downReaction => -1
  | poopReaction => -1000
  end.

Definition ignoreCd_of (c : collector) : bool :=
  match c with poopReaction => true | _ => false end.

(** What the listener does before it calls [handleRatingReaction]. *)
Definition prelude (c : collector) (r : reaction) : list call :=
  match c with
  | poopReaction => [SimpleNote (r_message r) cleanNote msgType.MUSIC]
  | _ => []
  end.

Definition is_resolved (res : rating_result) : bool :=
  match res with Resolved _ => true | Rejected _ => false end.

Definition has_note (res : rating_result) : bool :=
  match res with Resolved note => truthy note | Rejected _ => false end.

Definition tally (P : rating_result -> bool) (ps : list rating_result) : nat :=
  List.length (filter (fun res => P res = true) ps).

(** A session is live while one of its collectors listens. *)
Inductive status := Active | Closed.

Definition status_of (s : session) : status :=
  match open s with [] => Closed | _ :: _ => Active end.

End Rating.

(** A scoring callback that does not look at the dashes: on a song that
    [buildSongEmbed] has written into, its promise settles as on the song
    before, and it leaves the same song up to the dashes. *)
Definition dash_blind
    (processRating : Song -> user -> Z -> bool -> Song * Rating.rating_result)
  : Prop :=
  ∀ sg u delta ignoreCd,
    (processRating (buildSongEmbed sg).1 u delta ignoreCd).2
      = (processRating sg u delta ignoreCd).2 ∧
    (buildSongEmbed (processRating (buildSongEmbed sg).1 u delta ignoreCd).1).1
      = (buildSongEmbed (processRating sg u delta ignoreCd).1).1.

(** ** The gateway's side of a message *)

(** Modelled from the spec: the Messaging Gateway's effect on the anchor
    message (section 6: [editMessage], [attachReaction], [removeReaction],
    [clearReactions]); the gateway itself is a library outside [src/].
    [shown] is the rendered content, [icons] maps each emoji on the message
    to the ids of the users that reacted with it, [self] is the bot's id. *)
Record view := mkView { shown : content; icons : gmap string (gset string) }.

Definition apply_call (self : string) (v : view) (c : call) : view :=
  match c with
  | MessageEdit x => mkView x (icons v)
  | MessageReact (Some e) =>
      mkView (shown v) (<[e := {[self]} ∪ default ∅ (icons v !! e)]> (icons v))
  | UsersRemove e u =>
      mkView (shown v) (<[e := default ∅ (icons v !! e) ∖ {[id u]}]> (icons v))
  | ReactionsRemoveAll => mkView (shown v) ∅
  | _ => v
  end.

Definition apply_calls (self : string) (v : view) (cs : list call) : view :=
  foldl (apply_call self) v cs.

(** ** A scoring callback that throws *)

(** [handleRatingReaction] calls [.then] on what the callback returns and
    hangs its [.catch] on that promise.  A callback can also throw before
    it returns anything; the exception then leaves the [forEach], and with
    it the listener.  This second reading of lines 207 to 219 keeps that
    case apart: the loop stops at the throw, the promises created before
    it settle as usual, and the error that escaped is returned. *)
Module Throwing.
Import Rating.

Inductive outcome :=
| Returns (res : rating_result)     (* a promise *)
| Throws (err : string).            (* no promise: an exception *)

(** A callback of the first reading, seen as one that never throws. *)
Definition returning
    (processRating : Song -> user -> Z -> bool -> Song * rating_result)
    (sg : Song) (u : user) (delta : Z) (ignoreCd : bool) : Song * outcome :=
  let '(sg', res) := processRating sg u delta ignoreCd in (sg', Returns res).

Section WithCallback.
Variable processRating : Song -> user -> Z -> bool -> Song * outcome.

Fixpoint rate_each (r : reaction) (us : list user) (sg : Song)
    (delta : Z) (ignoreCd : bool)
  : Song * list call * list rating_result * option string :=
  match us with
  | [] => (sg, [], [], None)
  | u :: us' =>
      let '(sg1, o) := processRating sg u delta ignoreCd in
      match o with
      | Throws err =>
          (sg1,
           [UsersRemove (emoji_name r) u; ProcessRating u delta ignoreCd],
           [], Some err)
      | Returns res =>
          let '(sg2, cs, ps, ex) := rate_each r us' sg1 delta ignoreCd in
          (sg2,
           UsersRemove (emoji_name r) u :: ProcessRating u delta ignoreCd :: cs,
           res :: ps, ex)
      end
  end.

Definition handleRatingReaction (r : reaction) (sg : Song) (delta : Z)
    (ignoreCd : bool) : Song * list call * option string :=
  let '(sg1, cs1, ps, ex) := rate_each r (humans r) sg delta ignoreCd in
  let '(sg2, cs2) := settle_all r sg1 ps in
  (sg2, cs1 ++ cs2, ex).

End WithCallback.

End Throwing.

(** ** Sample data *)

Module Sample.

Definition alice : user := mkUser "1001" false.
Definition bob : user := mkUser "1002" false.
Definition robot : user := mkUser "9000" true.

(** A command message by alice, and the bot's answer in the same channel. *)
Definition request : message := mkMessage (Some "general") alice.
Definition answer : message := mkMessage (Some "general") robot.

(** A message whose channel is gone. *)
Definition stale : message := mkMessage None alice.

(** A gateway that accepts everything. *)
Definition gw_ok : gateway :=
  mkGateway (fun _ => Some answer) (fun _ _ => true).

Definition three_pages : list content :=
  [CText "page one"; CText "page two"; CText "page three"].

Definition a_song : Song :=
  mkSong {[ "title" := VStr "A"; "artist" := VStr ""; "rating" := VNum 0 ]} ∅.

(** A song whose empty artist comes from its prototype. *)
Definition heir_song : Song :=
  mkSong {[ "title" := VStr "A"; "rating" := VNum 0 ]} {[ "artist" := VStr "" ]}.

(** A reaction as the listener sees it: the bot's own icon plus the user
    that just reacted. *)
Definition reaction_by (emoji : string) (u : user) : reaction :=
  mkReaction emoji [robot; u] answer.

(** A scoring callback that adds the delta to a numeric [rating] and
    resolves without a note. *)
Definition add_rating (sg : Song) (u : user) (delta : Z) (ignoreCd : bool)
  : Song * Rating.rating_result :=
  match own_fields sg !! "rating" with
  | Some (VNum n) =>
      (mkSong (<["rating" := VNum (n + delta)]> (own_fields sg)) (proto_fields sg),
       Rating.Resolved None)
  | _ => (sg, Rating.Resolved None)
  end.

(** A scoring callback that resolves with a note. *)
Definition chatty (sg : Song) (u : user) (delta : Z) (ignoreCd : bool)
  : Song * Rating.rating_result :=
  (sg, Rating.Resolved (Some "Song removed")).

(** A scoring callback whose promise rejects. *)
Definition failing (sg : Song) (u : user) (delta : Z) (ignoreCd : bool)
  : Song * Rating.rating_result :=
  (sg, Rating.Rejected "Error: database down").

(** A reaction that carries the bot's icon and the votes of two users. *)
Definition reaction_by_both (emoji : string) : reaction :=
  mkReaction emoji [robot; alice; bob] answer.

(** A scoring callback whose promise rejects for alice and resolves for
    everyone else. *)
Definition moody (sg : Song) (u : user) (delta : Z) (ignoreCd : bool)
  : Song * Rating.rating_result :=
  if decide (id u = id alice) then (sg, Rating.Rejected "Error: cooldown")
  else add_rating sg u delta ignoreCd.

(** A scoring callback that throws for alice before it returns a promise,
    and scores like [add_rating] for everyone else. *)
Definition crashing (sg : Song) (u : user) (delta : Z) (ignoreCd : bool)
  : Song * Throwing.outcome :=
  if decide (id u = id alice) then (sg, Throwing.Throws "TypeError: no database")
  else Throwing.returning add_rating sg u delta ignoreCd.

Definition paged0 : Paged.session :=
  Paged.mkSession request three_pages 0 answer
    [Paged.nextReaction; Paged.backReaction].

Definition rating0 : Rating.session :=
  Rating.mkSession a_song answer
    [Rating.upReaction; Rating.downReaction; Rating.poopReaction].

End Sample.

(** ** The contract of the reaction poster *)

(** The contract of section 4.1 written as a function of its own, to compare
    [postReactionEmojis] with: go through the list in order, stop at the
    first attach that fails, resolve when the list is used up. *)
Fixpoint attach_in_order (react : nat -> option string -> bool) (n : nat)
    (l : list string) : list attach_event * bool :=
  match l with
  | [] => ([], true)
  | e :: rest =>
      if react n (Some e) then
        let '(t, r) := attach_in_order react (S n) rest in
        (AttachBegin (Some e) :: AttachAck (Some e) :: t, r)
      else ([AttachBegin (Some e); AttachFail (Some e)], false)
  end.

(** ** The event loop between arrivals and completions *)

(** The listeners above run to the end when their event is delivered; what
    they start at the gateway or at the scoring callback completes later,
    as a separate turn of the event loop.  The two modules below make these
    turns explicit: a schedule lists, in the order in which they happen,
    the events delivered to a widget and the completions of what earlier
    listeners started. *)

Module PagedLoop.
Import Paged.

Inductive step :=
| Deliver (ev : event collector)     (* an event reaches the widget *)
| EditDone.                          (* the oldest edit in flight completes *)

Record world := mkWorld {
  sess : session;
  issued : list call;               (* every call made so far *)
  in_flight : nat                   (* edits issued and not yet completed *)
}.

Definition start (s : session) : world := mkWorld s [] 0.

Definition step_world (w : world) (st : step) : world :=
  match st with
  | Deliver ev =>
      let '(s', cs) := dispatch (sess w) ev in
      mkWorld s' (issued w ++ cs) (in_flight w + count is_edit cs)
  | EditDone => mkWorld (sess w) (issued w) (pred (in_flight w))
  end.

Definition run_world (w : world) (steps : list step) : world :=
  foldl step_world w steps.

Definition deliveries (steps : list step) : list (event collector) :=
  steps ≫= (fun st => match st with Deliver ev => [ev] | EditDone => [] end).

(** The ordering guarantee of section 5 as a test on a schedule: no event
    moves the cursor while an earlier render is still in flight. *)
Fixpoint serialized (w : world) (steps : list step) : bool :=
  match steps with
  | [] => true
  | st :: rest =>
      let w' := step_world w st in
      match st with
      | Deliver _ =>
          bool_decide (page (sess w') = page (sess w))
          || bool_decide (in_flight w = 0%nat)
      | EditDone => true
      end && serialized w' rest
  end.

End PagedLoop.

Module RatingLoop.
Import Rating.

Inductive step :=
| Deliver (ev : event collector)     (* an event reaches the widget *)
| Settle (i : nat)                   (* the i-th pending scoring promise settles *)
| EditDone.                          (* the oldest edit in flight completes *)

Record world := mkWorld {
  sess : session;
  pending : list (reaction * rating_result);
  issued : list call;
  in_flight : nat
}.

Definition start (s : session) : world := mkWorld s [] [] 0.

Definition is_vote_call (c : call) : bool :=
  match c with
  | UsersRemove _ _ | ProcessRating _ _ _ => true
  | _ => false
  end.

(** The calls a reaction asks of the collector that takes it: for every
    human user on the reaction, take the reaction back and score. *)
Definition asked (c : collector) (r : reaction) : list call :=
  humans r ≫= (fun v =>
    [UsersRemove (emoji_name r) v;
     ProcessRating v (delta_of c) (ignoreCd_of c)]).

(** The scoring calls a sequence of events asks for, given the collectors
    open at its start: a function of the events alone. *)
Fixpoint votes (op : list collector) (evs : list (event collector))
  : list call :=
  match evs with
  | [] => []
  | ReactionAdd r u :: evs' =>
      ([upReaction; downReaction; poopReaction] ≫= (fun c =>
         if bool_decide (c ∈ op) && filter_of c r u then asked c r else []))
      ++ votes op evs'
  | CollectorEnd c :: evs' => votes (filter (fun c' => c' ≠ c) op) evs'
  end.

Definition deliveries (steps : list step) : list (event collector) :=
  steps ≫= (fun st => match st with Deliver ev => [ev] | _ => [] end).

Section WithCallback.
Variable processRating : Song -> user -> Z -> bool -> Song * rating_result.

(** A ["collect"] listener up to the point where it returns: the note of
    the flag listener, the reactions taken back and the callback invoked,
    the promises pending. *)
Definition listen (c : collector) (s : session) (r : reaction)
  : session * list call * list (reaction * rating_result) :=
  let '(sg, cs, ps) :=
    rate_each processRating r (humans r) (song s) (delta_of c) (ignoreCd_of c) in
  (set_song s sg, prelude c r ++ cs, (fun res => (r, res)) <$> ps).

Definition offer (c : collector) (r : reaction) (u : user)
    (acc : session * list call * list (reaction * rating_result))
  : session * list call * list (reaction * rating_result) :=
  let '(s, cs, ps) := acc in
  if bool_decide (c ∈ open s) && filter_of c r u then
    let '(s', cs', ps') := listen c s r in (s', cs ++ cs', ps ++ ps')
  else (s, cs, ps).

Definition deliver (s : session) (ev : event collector)
  : session * list call * list (reaction * rating_result) :=
  match ev with
  | ReactionAdd r u =>
      offer poopReaction r u
        (offer downReaction r u (offer upReaction r u (s, [], [])))
  | CollectorEnd c =>
      if bool_decide (c ∈ open s) then (close s c, [ReactionsRemoveAll], [])
      else (s, [], [])
  end.

Definition step_world (w : world) (st : step) : world :=
  match st with
  | Deliver ev =>
      let '(s', cs, ps) := deliver (sess w) ev in
      mkWorld s' (pending w ++ ps) (issued w ++ cs) (in_flight w)
  | Settle i =>
      match pending w !! i with
      | Some (r, res) =>
          let '(sg, cs) := settled r (song (sess w)) res in
          mkWorld (set_song (sess w) sg) (delete i (pending w))
                  (issued w ++ cs) (in_flight w + count is_edit cs)
      | None => w
      end
  | EditDone =>
      mkWorld (sess w) (pending w) (issued w) (pred (in_flight w))
  end.

Definition run_world (w : world) (steps : list step) : world :=
  foldl step_world w steps.

(** The schedule on which the run-to-completion reading of
    [handleRatingReaction] rests: the event, then every promise it left
    pending, oldest first. *)
Definition eager (s : session) (ev : event collector) : list step :=
  Deliver ev :: replicate (List.length (deliver s ev).2) (Settle 0).

End WithCallback.

End RatingLoop.

(** The edits among the calls of a run keep up with the cursor: either
    there is none and the cursor is where it was in [s0], or the last one
    shows the page the cursor is on. *)
Definition edits_follow (s0 : Paged.session)
    (out : Paged.session * list call) : Prop :=
  Paged.pages out.1 = Paged.pages s0 ∧
  match last (filter (fun c => is_edit c = true) out.2) with
  | None => Paged.page out.1 = Paged.page s0
  | Some c => c = MessageEdit (page_at (Paged.pages s0) (Paged.page out.1))
  end.

(** ** Further parts of the service *)

(** How many line breaks a text holds, and [lines.join("\n")]. *)
Fixpoint newlines (s : string) : nat :=
  match s with
  | EmptyString => 0
  | String c rest =>
      ((if Ascii.eqb c "010"%char then 1 else 0) + newlines rest)%nat
  end.

Fixpoint join_lines (ls : list string) : string :=
  match ls with
  | [] => EmptyString
  | l :: rest =>
      match rest with
      | [] => l
      | _ :: _ => l +:+ String "010"%char (join_lines rest)
      end
  end.

Definition is_send (c : call) : bool :=
  match c with ChannelSend _ => true | _ => false end.

Definition is_log (c : call) : bool :=
  match c with ConsoleLog _ => true | _ => false end.

Definition is_remove_all (c : call) : bool :=
  match c with ReactionsRemoveAll => true | _ => false end.

Definition is_scoring (c : call) : bool :=
  match c with ProcessRating _ _ _ => true | _ => false end.

(** The attaches of a trace that failed. *)
Definition failed (t : list attach_event) : list (option string) :=
  t ≫= (fun ev => match ev with AttachFail e => [e] | _ => [] end).

(** [postReactionEmojis] takes its emojis off the caller's array with
    [shift()]: this is the array as it is when the returned promise
    settles. *)
Fixpoint emojiList_after (react : nat -> option string -> bool) (n : nat)
    (emojiList : list string) : list string :=
  match emojiList with
  | [] => []
  | e :: rest =>
      if react n (Some e) then
        match rest with
        | [] => []
        | _ :: _ => emojiList_after react (S n) rest
        end
      else rest
  end.

(** The calls a paged widget may make once it is up: it takes back
    reactions of the owner, edits its message, and strips the icons. *)
Definition paged_call (owner : user) (c : call) : bool :=
  match c with
  | UsersRemove _ u => bool_decide (u = owner)
  | MessageEdit _ | ReactionsRemoveAll => true
  | _ => false
  end.

(** The calls a rating widget may make once it is up. *)
Definition rating_call (c : call) : bool :=
  match c with
  | UsersRemove _ u => negb (bot u)
  | ProcessRating u _ _ => negb (bot u)
  | MessageEdit (CEmbed _) | ReactionsRemoveAll => true
  | SimpleNote _ _ type =>
      bool_decide (type = msgType.MUSIC) || bool_decide (type = msgType.FAIL)
  | _ => false
  end.

(** ** awaitCommand *)

Module Await.

(** The options object handed to [awaitMessages]. *)
Record options := mkOptions {
  errors : list string;
  max : nat;
  time : Z
}.

Definition OPTIONS : options := mkOptions ["time"] 1 120000.

(** How the promise of [awaitMessages] settles: resolved with the messages
    collected, or rejected (the time ran out, or the gateway failed), the
    reason given by its [toString()]. *)
Inductive reply :=
| Collected (ms : list message)
| Expired (err : string).

(** What the caller's [process] does with the collection: it completes, or
    it throws (or returns a promise that rejects). *)
Inductive processed :=
| Completed
| Raised (err : string).

Inductive entry :=
| AwaitMessages (o : options)
| Process (ms : list message)
| Made (c : call).

(** [msg.channel.awaitMessages] on a message without channel is a property
    read of [undefined]: the method throws before anything is called. *)
Inductive result :=
| ThrowsTypeError
| Returns (t : list entry).

(** [awaitCommand(msg, filter, process)].  The filter is only handed on to
    the gateway; what it lets through is part of [answer]. *)
Definition awaitCommand (m : message) (answer : reply)
    (process : list message -> processed) : result :=
  match channel m with
  | None => ThrowsTypeError
  | Some _ =>
      Returns
        (AwaitMessages OPTIONS ::
         match answer with
         | Collected ms =>
             Process ms ::
             match process ms with
             | Completed => []
             | Raised err => [Made (SimpleNote m err msgType.FAIL)]
             end
         | Expired err => [Made (SimpleNote m err msgType.FAIL)]
         end)
  end.

(** The error that reaches the [catch]: the rejection of [awaitMessages],
    or what [process] raised. *)
Definition failure (answer : reply) (process : list message -> processed)
  : option string :=
  match answer with
  | Expired err => Some err
  | Collected ms =>
      match process ms with
      | Completed => None
      | Raised err => Some err
      end
  end.

Definition notes (t : list entry) : list call :=
  t ≫= (fun e => match e with Made c => [c] | _ => [] end).

Definition processed_with (t : list entry) : list (list message) :=
  t ≫= (fun e => match e with Process ms => [ms] | _ => [] end).

Definition awaited (t : list entry) : list options :=
  t ≫= (fun e => match e with AwaitMessages o => [o] | _ => [] end).

End Await.

(** * Properties *)

(** ** Paged sessions *)

Module PagedFacts.
Import Paged.

Lemma on_collect_pages c s r : pages (on_collect c s r).1 = pages s.
Proof.
  destruct c; simpl.
  - destruct (page s + 1 <? _)%nat; reflexivity.
  - destruct (0 <? page s)%nat; reflexivity.
Qed.

Lemma on_collect_msg c s r : msg (on_collect c s r).1 = msg s.
Proof.
  destruct c; simpl.
  - destruct (page s + 1 <? _)%nat; reflexivity.
  - destruct (0 <? page s)%nat; reflexivity.
Qed.

Lemma on_collect_open c s r : open (on_collect c s r).1 = open s.
Proof.
  destruct c; simpl.
  - destruct (page s + 1 <? _)%nat; reflexivity.
  - destruct (0 <? page s)%nat; reflexivity.
Qed.

Lemma on_collect_bound c s r :
  (page s < List.length (pages s))%nat ->
  (page (on_collect c s r).1 < List.length (pages s))%nat.
Proof.
  intros Hlt. destruct c; simpl.
  - destruct (Nat.ltb_spec (page s + 1) (List.length (pages s))); simpl; lia.
  - destruct (Nat.ltb_spec 0 (page s)); simpl; lia.
Qed.

Lemma offer_fst c r u s cs :
  (offer c r u (s, cs)).1 =
  if bool_decide (c ∈ open s) && filter_of (msg s) c r u
  then (on_collect c s r).1 else s.
Proof.
  unfold offer.
  destruct (bool_decide (c ∈ open s) && filter_of (msg s) c r u);
    [destruct (on_collect c s r)|]; reflexivity.
Qed.

(** Whatever the listeners preserve is preserved by a whole event. *)
Lemma offer_preserves (P : session -> Prop) c r u acc :
  (∀ c s r, P s -> P (on_collect c s r).1) ->
  P acc.1 -> P (offer c r u acc).1.
Proof.
  intros Hc. destruct acc as [s cs]. rewrite offer_fst. simpl.
  destruct (_ && _); auto.
Qed.

Lemma dispatch_preserves (P : session -> Prop) s ev :
  (∀ c s r, P s -> P (on_collect c s r).1) ->
  (∀ c s, P s -> P (close s c)) ->
  P s -> P (dispatch s ev).1.
Proof.
  intros Hc Hcl Hs. destruct ev as [r u|c]; unfold dispatch.
  - apply (offer_preserves P); [done|]. by apply (offer_preserves P).
  - destruct (bool_decide (c ∈ open s)); simpl; auto.
Qed.

(** What stays put under any event: the pages and the owner. *)
Lemma dispatch_frame s ev :
  pages (dispatch s ev).1 = pages s ∧ msg (dispatch s ev).1 = msg s.
Proof.
  apply (dispatch_preserves
           (fun s' => pages s' = pages s ∧ msg s' = msg s)); [| |done].
  - intros c s' r [Hp Hm]. by rewrite on_collect_pages, on_collect_msg.
  - intros c s' [Hp Hm]. done.
Qed.

Lemma dispatch_bound s ev :
  (page s < List.length (pages s))%nat ->
  (page (dispatch s ev).1 < List.length (pages s))%nat.
Proof.
  intros Hlt.
  cut (pages (dispatch s ev).1 = pages s ∧
       (page (dispatch s ev).1 < List.length (pages (dispatch s ev).1))%nat).
  { intros [Hp Hb]. by rewrite <- Hp. }
  apply (dispatch_preserves
           (fun s' => pages s' = pages s ∧
                      (page s' < List.length (pages s'))%nat)); [| |done].
  - intros c s' r [Hp Hb]. rewrite on_collect_pages. split; [done|].
    by apply on_collect_bound.
  - intros c s' [Hp Hb]. done.
Qed.

Lemma run_frame evs : ∀ s,
  pages (run s evs).1 = pages s ∧ msg (run s evs).1 = msg s.
Proof.
  induction evs as [|ev evs IH]; intros s; simpl; [done|].
  destruct (dispatch s ev) as [s1 cs1] eqn:E1.
  destruct (run s1 evs) as [s2 cs2] eqn:E2. simpl.
  destruct (IH s1) as [Hp Hm]. rewrite E2 in Hp, Hm. simpl in Hp, Hm.
  destruct (dispatch_frame s ev) as [Hp' Hm']. rewrite E1 in Hp', Hm'.
  simpl in Hp', Hm'. split; congruence.
Qed.

Lemma run_bound evs : ∀ s,
  (page s < List.length (pages s))%nat ->
  (page (run s evs).1 < List.length (pages s))%nat.
Proof.
  induction evs as [|ev evs IH]; intros s Hlt; simpl; [done|].
  destruct (dispatch s ev) as [s1 cs1] eqn:E1.
  destruct (run s1 evs) as [s2 cs2] eqn:E2. simpl.
  pose proof (dispatch_bound s ev Hlt) as Hb.
  destruct (dispatch_frame s ev) as [Hp _].
  rewrite E1 in Hb, Hp. simpl in Hb, Hp.
  rewrite <- Hp in Hb. specialize (IH s1 Hb).
  rewrite E2 in IH. simpl in IH. by rewrite <- Hp.
Qed.

(** With no page at all there is nothing to move to: the cursor stays at
    0, which is then no index of [pages]. *)
Lemma empty_pages_stay_put evs : ∀ s,
  pages s = [] -> page s = 0%nat ->
  pages (run s evs).1 = [] ∧ page (run s evs).1 = 0%nat.
Proof.
  induction evs as [|ev evs IH]; intros s Hp H0; [done|].
  assert (Hd : pages (dispatch s ev).1 = [] ∧ page (dispatch s ev).1 = 0%nat).
  { apply (dispatch_preserves
             (fun s' => pages s' = [] ∧ page s' = 0%nat)); [| |done].
    - intros c s' r [Hp' H0']. destruct c; simpl; rewrite Hp', H0'; done.
    - by intros c s' [Hp' H0']. }
  simpl. destruct (dispatch s ev) as [s1 cs1]. simpl in Hd.
  destruct Hd as [Hp1 H1]. specialize (IH s1 Hp1 H1).
  by destruct (run s1 evs) as [s2 cs2].
Qed.

(** A widget that came up starts on page 0 with the caller's pages. *)
Lemma pagedContent_initial gw m ps s cs :
  pagedContent gw m ps = (Some s, cs) ->
  page s = 0%nat ∧ pages s = ps ∧ msg s = m ∧
  open s = [nextReaction; backReaction].
Proof.
  unfold pagedContent. destruct (channel m); [|done].
  destruct (send_reply gw _); [|done].
  destruct (postReactionEmojis _ _ _) as [t [|]]; [|done].
  intros [= <- _]. done.
Qed.

End PagedFacts.

Module PagedBoundary.
Import Paged PagedFacts.

Lemma forward_not_rewind : FORWARD ≠ REWIND.
Proof. unfold FORWARD, REWIND. discriminate. Qed.

(** What one reaction does, by cases on the collector that takes it. *)
Lemma dispatch_forward s r u :
  emoji_name r = FORWARD ->
  dispatch s (ReactionAdd r u) =
  if bool_decide (nextReaction ∈ open s) && bool_decide (id u = id (author (msg s)))
  then let '(s', cs') := on_collect nextReaction s r in (s', cs')
  else (s, []).
Proof.
  intros He. unfold dispatch.
  assert (Hn : filter_of (msg s) nextReaction r u =
               bool_decide (id u = id (author (msg s)))).
  { unfold filter_of. rewrite He. by rewrite bool_decide_eq_true_2. }
  assert (Hb : ∀ m, filter_of m backReaction r u = false).
  { intros m. unfold filter_of. rewrite He.
    rewrite (bool_decide_eq_false_2 _ forward_not_rewind). done. }
  unfold offer at 2. rewrite Hn.
  destruct (bool_decide (nextReaction ∈ open s) && _).
  - destruct (on_collect nextReaction s r) as [s' cs'] eqn:E.
    unfold offer. rewrite Hb, andb_false_r. done.
  - unfold offer. rewrite Hb, andb_false_r. done.
Qed.

Lemma dispatch_rewind s r u :
  emoji_name r = REWIND ->
  dispatch s (ReactionAdd r u) =
  if bool_decide (backReaction ∈ open s) && bool_decide (id u = id (author (msg s)))
  then let '(s', cs') := on_collect backReaction s r in (s', cs')
  else (s, []).
Proof.
  intros He. unfold dispatch.
  assert (Hn : ∀ m, filter_of m nextReaction r u = false).
  { intros m. unfold filter_of. rewrite He.
    rewrite bool_decide_eq_false_2; [done|].
    intros E. by apply forward_not_rewind. }
  assert (Hb : filter_of (msg s) backReaction r u =
               bool_decide (id u = id (author (msg s)))).
  { unfold filter_of. rewrite He. by rewrite bool_decide_eq_true_2. }
  unfold offer at 2. rewrite Hn, andb_false_r.
  unfold offer. rewrite Hb.
  destruct (bool_decide (backReaction ∈ open s) && _); [|done].
  by destruct (on_collect backReaction s r).
Qed.

Lemma shown_apply_no_edit self cs : ∀ v,
  filter (fun c => is_edit c = true) cs = [] ->
  shown (apply_calls self v cs) = shown v.
Proof.
  induction cs as [|c cs IH]; intros v Hf; [done|].
  unfold apply_calls in *. simpl.
  rewrite filter_cons in Hf.
  destruct (decide (is_edit c = true)) as [|Hne]; [done|].
  rewrite IH by done.
  by destruct c as [| | |[e|]| | | |].
Qed.

(** At either end of the pages the reaction is taken back and nothing
    else happens. *)
Lemma forward_at_end s r u :
  emoji_name r = FORWARD ->
  (page s + 1 >= List.length (pages s))%nat ->
  (dispatch s (ReactionAdd r u)).1 = s ∧
  ((dispatch s (ReactionAdd r u)).2 = [] ∨
   (dispatch s (ReactionAdd r u)).2 = [UsersRemove FORWARD (author (msg s))]).
Proof.
  intros He Hge. rewrite dispatch_forward by done.
  destruct (_ && _); [|by auto].
  unfold on_collect. rewrite He.
  destruct (Nat.ltb_spec (page s + 1) (List.length (pages s))); [lia|].
  by auto.
Qed.

Lemma back_at_start s r u :
  emoji_name r = REWIND ->
  page s = 0%nat ->
  (dispatch s (ReactionAdd r u)).1 = s ∧
  ((dispatch s (ReactionAdd r u)).2 = [] ∨
   (dispatch s (ReactionAdd r u)).2 = [UsersRemove REWIND (author (msg s))]).
Proof.
  intros He H0. rewrite dispatch_rewind by done.
  destruct (_ && _); [|by auto].
  unfold on_collect. rewrite He, H0. simpl. by auto.
Qed.

(** The calls made at either end, exactly. *)
Lemma forward_at_end_calls s r u :
  emoji_name r = FORWARD ->
  (page s + 1 >= List.length (pages s))%nat ->
  (dispatch s (ReactionAdd r u)).2 =
    if bool_decide (nextReaction ∈ open s)
       && bool_decide (id u = id (author (msg s)))
    then [UsersRemove FORWARD (author (msg s))] else [].
Proof.
  intros He Hge. rewrite dispatch_forward by done.
  destruct (_ && _); [|done].
  unfold on_collect. rewrite He.
  by destruct (Nat.ltb_spec (page s + 1) (List.length (pages s))); [lia|].
Qed.

Lemma back_at_start_calls s r u :
  emoji_name r = REWIND ->
  page s = 0%nat ->
  (dispatch s (ReactionAdd r u)).2 =
    if bool_decide (backReaction ∈ open s)
       && bool_decide (id u = id (author (msg s)))
    then [UsersRemove REWIND (author (msg s))] else [].
Proof.
  intros He H0. rewrite dispatch_rewind by done.
  destruct (_ && _); [|done].
  unfold on_collect. by rewrite He, H0.
Qed.

End PagedBoundary.

Section PagedClaims.
Import Paged PagedFacts PagedBoundary.

(** C2 (as amended): in a paged session started by [pagedContent] on a
    list of at least one page, whatever forward/back reactions and timer
    events follow, the cursor [page] stays within [0, len(pages) - 1].  A
    forward reaction when [page + 1 >= len(pages)] and a back reaction
    when [page = 0] leave the session and the shown content as they are
    and issue no [edit] call; they are not without effect on the message:
    when the reaction is the owner's and the collector still listens, the
    one call made is the removal of the owner's reaction, and otherwise no
    call is made at all. *)
Theorem paged_cursor_in_bounds gw m ps s0 cs0 evs :
  pagedContent gw m ps = (Some s0, cs0) ->
  ps ≠ [] ->
  let s := (run s0 evs).1 in
  (0 ≤ Z.of_nat (page s) ≤ Z.of_nat (List.length ps) - 1)%Z ∧
  (∀ r u self v,
      emoji_name r = FORWARD ->
      (page s + 1 >= List.length ps)%nat ->
      let out := dispatch s (ReactionAdd r u) in
      out.1 = s ∧
      out.2 = (if bool_decide (nextReaction ∈ open s)
                  && bool_decide (id u = id (author m))
               then [UsersRemove FORWARD (author m)] else []) ∧
      filter (fun c => is_edit c = true) out.2 = [] ∧
      shown (apply_calls self v out.2) = shown v) ∧
  (∀ r u self v,
      emoji_name r = REWIND ->
      page s = 0%nat ->
      let out := dispatch s (ReactionAdd r u) in
      out.1 = s ∧
      out.2 = (if bool_decide (backReaction ∈ open s)
                  && bool_decide (id u = id (author m))
               then [UsersRemove REWIND (author m)] else []) ∧
      filter (fun c => is_edit c = true) out.2 = [] ∧
      shown (apply_calls self v out.2) = shown v).
Proof.
  intros Hinit Hne s.
  destruct (pagedContent_initial _ _ _ _ _ Hinit) as (Hp0 & Hps & Hm0 & _).
  assert (Hlen : (0 < List.length ps)%nat) by (destruct ps; [done|simpl; lia]).
  assert (Hb : (page s < List.length (pages s0))%nat).
  { apply run_bound. rewrite Hp0, Hps. done. }
  assert (Hpages : pages s = ps).
  { unfold s. destruct (run_frame evs s0) as [-> _]. done. }
  assert (Hmsg : msg s = m).
  { unfold s. destruct (run_frame evs s0) as [_ ->]. done. }
  rewrite Hps in Hb.
  split; [lia|]. split.
  - intros r u self v He Hge out.
    destruct (forward_at_end s r u He) as [H1 H2]; [by rewrite Hpages|].
    assert (Hf : filter (fun c => is_edit c = true) out.2 = []).
    { unfold out. by destruct H2 as [-> | ->]. }
    split; [done|]. split; [|split; [done|by apply shown_apply_no_edit]].
    unfold out. rewrite forward_at_end_calls; [|done|by rewrite Hpages].
    by rewrite Hmsg.
  - intros r u self v He H0 out.
    destruct (back_at_start s r u He H0) as [H1 H2].
    assert (Hf : filter (fun c => is_edit c = true) out.2 = []).
    { unfold out. by destruct H2 as [-> | ->]. }
    split; [done|]. split; [|split; [done|by apply shown_apply_no_edit]].
    unfold out. rewrite back_at_start_calls by done. by rewrite Hmsg.
Qed.

End PagedClaims.

Section PagedOwner.
Import Paged PagedFacts PagedBoundary.

Lemma filter_of_stranger m c r u :
  id u ≠ id (author m) -> filter_of m c r u = false.
Proof.
  intros Hne. unfold filter_of.
  destruct c; rewrite (bool_decide_eq_false_2 _ Hne); apply andb_false_r.
Qed.

(** C6: a reaction by a user whose id differs from the id of the author of
    the originating message is rejected by both collector filters: the
    session is unchanged (no cursor move) and no call is made (no render);
    the same forward reaction by the owner, inside the bounds, moves the
    cursor and renders the next page. *)
Theorem paged_navigation_owner_only (s : session) (r : reaction) (u : user) :
  (id u ≠ id (author (msg s)) ->
   dispatch s (ReactionAdd r u) = (s, [])) ∧
  (id u = id (author (msg s)) ->
   emoji_name r = FORWARD ->
   nextReaction ∈ open s ->
   (page s + 1 < List.length (pages s))%nat ->
   dispatch s (ReactionAdd r u) =
     (set_page s (S (page s)),
      [UsersRemove FORWARD (author (msg s));
       MessageEdit (page_at (pages s) (S (page s)))])).
Proof.
  split.
  - intros Hne. unfold dispatch.
    unfold offer at 2. rewrite filter_of_stranger, andb_false_r by done.
    unfold offer. by rewrite filter_of_stranger, andb_false_r by done.
  - intros Hid He Hopen Hlt. rewrite dispatch_forward by done.
    rewrite !bool_decide_eq_true_2 by done. simpl. rewrite He.
    destruct (Nat.ltb_spec (page s + 1) (List.length (pages s))); [done|lia].
Qed.

End PagedOwner.

(** ** Rating sessions *)

Module RatingFacts.
Import Rating.

Lemma emoji_of_inj c c' : emoji_of c = emoji_of c' -> c = c'.
Proof. destruct c, c'; (done || (unfold emoji_of, UP, DOWN, POOP; discriminate)). Qed.

Lemma filter_absent (c : collector) (op : list collector) :
  c ∉ op -> filter (fun c' => c' ≠ c) op = op.
Proof.
  induction op as [|c0 op IH]; intros Hn; [done|].
  apply not_elem_of_cons in Hn as [Hne Hn].
  rewrite filter_cons. destruct (decide (c0 ≠ c)); [|done].
  by rewrite IH.
Qed.

Lemma music_not_fail : msgType.MUSIC ≠ msgType.FAIL.
Proof. unfold msgType.MUSIC, msgType.FAIL. discriminate. Qed.

Lemma count_app P cs cs' : count P (cs ++ cs') = (count P cs + count P cs')%nat.
Proof. unfold count. by rewrite filter_app, length_app. Qed.

Lemma count_cons P c cs :
  count P (c :: cs) = ((if P c then 1 else 0) + count P cs)%nat.
Proof.
  unfold count. rewrite filter_cons.
  destruct (P c) eqn:E; destruct (decide _); simpl; congruence.
Qed.

Lemma tally_cons P res ps :
  tally P (res :: ps) = ((if P res then 1 else 0) + tally P ps)%nat.
Proof.
  unfold tally. rewrite filter_cons.
  destruct (P res) eqn:E; destruct (decide _); simpl; congruence.
Qed.

(** The continuation renders exactly when the promise resolved, sends a
    music note exactly when it resolved with a note, and a failure note
    exactly when it rejected. *)
Lemma settled_counts r sg res :
  let cs := (settled r sg res).2 in
  count is_edit cs = (if is_resolved res then 1 else 0)%nat ∧
  count (is_note_of msgType.MUSIC) cs = (if has_note res then 1 else 0)%nat ∧
  count (is_note_of msgType.FAIL) cs = (if is_resolved res then 0 else 1)%nat ∧
  (∀ v d cd, ProcessRating v d cd ∉ cs).
Proof.
  destruct res as [[text|]|err]; simpl.
  - destruct (buildSongEmbed sg) as [sg' e]. simpl.
    destruct (negb (bool_decide (text = ""))); simpl;
      repeat split; try done; intros v d cd Hin;
      repeat (apply elem_of_cons in Hin as [Hin|Hin]; [done|]);
      by apply elem_of_nil in Hin.
  - destruct (buildSongEmbed sg) as [sg' e]. simpl.
    repeat split; try done. intros v d cd Hin.
    repeat (apply elem_of_cons in Hin as [Hin|Hin]; [done|]);
      by apply elem_of_nil in Hin.
  - repeat split; try done. intros v d cd Hin.
    repeat (apply elem_of_cons in Hin as [Hin|Hin]; [done|]);
      by apply elem_of_nil in Hin.
Qed.

Lemma settle_all_counts r ps : ∀ sg,
  let cs := (settle_all r sg ps).2 in
  count is_edit cs = tally is_resolved ps ∧
  count (is_note_of msgType.MUSIC) cs = tally has_note ps ∧
  count (is_note_of msgType.FAIL) cs = tally (fun x => negb (is_resolved x)) ps ∧
  (∀ v d cd, ProcessRating v d cd ∉ cs).
Proof.
  induction ps as [|res ps IH]; intros sg; simpl.
  - repeat split; try done. intros v d cd Hin. by apply elem_of_nil in Hin.
  - destruct (settled_counts r sg res) as (H1 & H2 & H3 & H4).
    destruct (settled r sg res) as [sg1 cs1]. simpl in *.
    destruct (IH sg1) as (I1 & I2 & I3 & I4).
    destruct (settle_all r sg1 ps) as [sg2 cs2]. simpl in *.
    rewrite !count_app, !tally_cons, H1, H2, H3, I1, I2, I3.
    repeat split; try done.
    + by destruct (is_resolved res).
    + intros v d cd Hin. apply elem_of_app in Hin as [Hin|Hin];
        [by apply (H4 v d cd) | by apply (I4 v d cd)].
Qed.

End RatingFacts.

(** ** Songs and their embed *)

Module SongFacts.

Lemma dash_twice v : dash_if_empty (dash_if_empty v) = dash_if_empty v.
Proof.
  unfold dash_if_empty. destruct (decide (v = VStr "")) as [->|Hv].
  - by rewrite decide_False.
  - by rewrite decide_False.
Qed.

Lemma dash_not_empty v : dash_if_empty v ≠ VStr "".
Proof.
  unfold dash_if_empty. by destruct (decide (v = VStr "")).
Qed.

(** The own fields after the loop, key by key. *)
Lemma own_after (sg : Song) key :
  own_fields (buildSongEmbed sg).1 !! key =
    dash_entry (own_fields sg !! key) (proto_fields sg !! key).
Proof.
  unfold buildSongEmbed. cbn [fst own_fields]. rewrite lookup_merge.
  by destruct (own_fields sg !! key), (proto_fields sg !! key).
Qed.

(** What a property read gives after the loop. *)
Lemma read_after (sg : Song) key :
  read_field (buildSongEmbed sg).1 key = dash_if_empty <$> read_field sg key.
Proof.
  unfold read_field. rewrite own_after.
  change (proto_fields (buildSongEmbed sg).1) with (proto_fields sg).
  destruct (own_fields sg !! key) as [v|]; [done|].
  destruct (proto_fields sg !! key) as [v|]; simpl; [|done].
  unfold dash_if_empty. by destruct (decide (v = VStr "")).
Qed.

Lemma get_after (sg : Song) key :
  get_field (buildSongEmbed sg).1 key = dash_if_empty (get_field sg key).
Proof.
  unfold get_field. rewrite read_after.
  by destruct (read_field sg key).
Qed.

Lemma song_eq (a b : Song) :
  own_fields a = own_fields b -> proto_fields a = proto_fields b -> a = b.
Proof. destruct a, b. simpl. by intros -> ->. Qed.

(** A second pass of the loop finds nothing to do. *)
Lemma buildSongEmbed_twice (sg : Song) :
  buildSongEmbed (buildSongEmbed sg).1 = buildSongEmbed sg.
Proof.
  assert (H : (buildSongEmbed (buildSongEmbed sg).1).1 = (buildSongEmbed sg).1).
  { apply song_eq; [|done]. apply map_eq. intros key.
    rewrite (own_after (buildSongEmbed sg).1), own_after.
    change (proto_fields (buildSongEmbed sg).1) with (proto_fields sg).
    unfold dash_entry.
    destruct (own_fields sg !! key) as [v|]; simpl.
    - by rewrite dash_twice.
    - destruct (proto_fields sg !! key) as [v|]; [|done].
      by destruct (decide (v = VStr "")). }
  unfold buildSongEmbed in *. cbn [fst snd] in *. by rewrite H.
Qed.

(** The continuations of one reaction: every edit shows the embed of the
    song they start from, there is one per resolved promise, and the song
    is changed once one of them ran. *)
Lemma settle_all_renders r ps : ∀ sg,
  (∀ x, MessageEdit x ∈ (Rating.settle_all r sg ps).2 ->
        x = CEmbed (buildSongEmbed sg).2) ∧
  count is_edit (Rating.settle_all r sg ps).2
    = Rating.tally Rating.is_resolved ps ∧
  (Rating.settle_all r sg ps).1 =
    if decide (Rating.tally Rating.is_resolved ps = 0%nat) then sg
    else (buildSongEmbed sg).1.
Proof.
  induction ps as [|res ps IH]; intros sg.
  - simpl. repeat split; [|done..]. intros x Hin. by apply elem_of_nil in Hin.
  - destruct (RatingFacts.settle_all_counts r (res :: ps) sg) as (Hc & _).
    split; [|split; [done|]].
    + change (Rating.settle_all r sg (res :: ps)) with
        (let '(sg1, cs1) := Rating.settled r sg res in
         let '(sg2, cs2) := Rating.settle_all r sg1 ps in (sg2, cs1 ++ cs2)).
      destruct res as [note|err].
      * change (Rating.settled r sg (Rating.Resolved note)) with
          ((buildSongEmbed sg).1,
           MessageEdit (CEmbed (buildSongEmbed sg).2) ::
           match note with
           | Some text =>
               if Rating.truthy note
               then [SimpleNote (r_message r) text msgType.MUSIC] else []
           | None => []
           end).
        cbv beta iota.
        destruct (IH (buildSongEmbed sg).1) as (I1 & _).
        destruct (Rating.settle_all r (buildSongEmbed sg).1 ps) as [sg2 cs2].
        cbn [snd] in *. intros x Hin.
        apply elem_of_cons in Hin as [Hin|Hin]; [by injection Hin as ->|].
        apply elem_of_app in Hin as [Hin|Hin].
        -- destruct note as [text|]; [destruct (Rating.truthy (Some text))|];
             repeat (apply elem_of_cons in Hin as [Hin|Hin]; [done|]);
             by apply elem_of_nil in Hin.
        -- rewrite (I1 x Hin). by rewrite buildSongEmbed_twice.
      * change (Rating.settled r sg (Rating.Rejected err)) with
          (sg, [SimpleNote (r_message r) err msgType.FAIL]).
        cbv beta iota. destruct (IH sg) as (I1 & _).
        destruct (Rating.settle_all r sg ps) as [sg2 cs2].
        cbn [snd] in *. intros x Hin.
        apply elem_of_cons in Hin as [Hin|Hin]; [done|]. by apply I1.
    + change (Rating.settle_all r sg (res :: ps)) with
        (let '(sg1, cs1) := Rating.settled r sg res in
         let '(sg2, cs2) := Rating.settle_all r sg1 ps in (sg2, cs1 ++ cs2)).
      rewrite RatingFacts.tally_cons.
      destruct res as [note|err].
      * change (Rating.settled r sg (Rating.Resolved note)) with
          ((buildSongEmbed sg).1,
           MessageEdit (CEmbed (buildSongEmbed sg).2) ::
           match note with
           | Some text =>
               if Rating.truthy note
               then [SimpleNote (r_message r) text msgType.MUSIC] else []
           | None => []
           end).
        cbv beta iota.
        destruct (IH (buildSongEmbed sg).1) as (_ & _ & I3).
        destruct (Rating.settle_all r (buildSongEmbed sg).1 ps) as [sg2 cs2].
        cbn [fst] in *. rewrite I3. simpl.
        destruct (decide (Rating.tally Rating.is_resolved ps = 0%nat)); [done|].
        exact (f_equal fst (buildSongEmbed_twice sg)).
      * change (Rating.settled r sg (Rating.Rejected err)) with
          (sg, [SimpleNote (r_message r) err msgType.FAIL]).
        cbv beta iota. destruct (IH sg) as (_ & _ & I3).
        destruct (Rating.settle_all r sg ps) as [sg2 cs2].
        cbn [fst] in *. by rewrite I3.
Qed.

(** The [then] branch, written out. *)
Lemma settled_resolved r sg note :
  Rating.settled r sg (Rating.Resolved note) =
    ((buildSongEmbed sg).1,
     MessageEdit (CEmbed (buildSongEmbed sg).2) ::
     match note with
     | Some text =>
         if Rating.truthy note
         then [SimpleNote (r_message r) text msgType.MUSIC] else []
     | None => []
     end).
Proof. reflexivity. Qed.

(** The calls of one continuation do not depend on whether the song was
    rendered before. *)
Lemma settled_after_render r sg res :
  (Rating.settled r (buildSongEmbed sg).1 res).2 = (Rating.settled r sg res).2.
Proof.
  destruct res as [note|err]; [|done].
  change (Rating.settled r (buildSongEmbed sg).1 (Rating.Resolved note)) with
    ((buildSongEmbed (buildSongEmbed sg).1).1,
     MessageEdit (CEmbed (buildSongEmbed (buildSongEmbed sg).1).2) ::
     match note with
     | Some text =>
         if Rating.truthy note
         then [SimpleNote (r_message r) text msgType.MUSIC] else []
     | None => []
     end).
  by rewrite buildSongEmbed_twice.
Qed.

(** The continuations of one reaction answer each promise on its own: what
    is sent for one promise depends on how that promise settled, and on
    nothing that happened to the others. *)
Lemma settle_all_local r ps : ∀ sg,
  (Rating.settle_all r sg ps).2 = ps ≫= (fun res => (Rating.settled r sg res).2).
Proof.
  induction ps as [|res ps IH]; intros sg; [done|].
  change (Rating.settle_all r sg (res :: ps)) with
    (let '(sg1, cs1) := Rating.settled r sg res in
     let '(sg2, cs2) := Rating.settle_all r sg1 ps in (sg2, cs1 ++ cs2)).
  destruct res as [note|err].
  - specialize (IH (buildSongEmbed sg).1).
    change (Rating.settled r sg (Rating.Resolved note)) with
      ((buildSongEmbed sg).1, (Rating.settled r sg (Rating.Resolved note)).2).
    cbv beta iota.
    destruct (Rating.settle_all r (buildSongEmbed sg).1 ps) as [sg2 cs2].
    cbn [snd] in *. rewrite IH. clear IH. cbn [mbind list_bind]. f_equal.
    induction ps as [|res' ps IH']; [done|]. cbn [mbind list_bind].
    by rewrite settled_after_render, IH'.
  - specialize (IH sg).
    change (Rating.settled r sg (Rating.Rejected err)) with
      (sg, [SimpleNote (r_message r) err msgType.FAIL]).
    cbv beta iota. destruct (Rating.settle_all r sg ps) as [sg2 cs2].
    cbn [snd] in *. by rewrite IH.
Qed.

End SongFacts.

Module RatingVotes.
Import Rating RatingFacts.

Section WithCallback.
Variable processRating : Song -> user -> Z -> bool -> Song * rating_result.

Local Abbreviation rate_each := (Rating.rate_each processRating).
Local Abbreviation handleRatingReaction := (Rating.handleRatingReaction processRating).
Local Abbreviation on_collect := (Rating.on_collect processRating).
Local Abbreviation offer := (Rating.offer processRating).
Local Abbreviation dispatch := (Rating.dispatch processRating).
Local Abbreviation run := (Rating.run processRating).

(** The loop makes two calls per user, in the order of the users, and
    leaves one pending promise per user. *)
Lemma rate_each_calls r d cd us : ∀ sg,
  (rate_each r us sg d cd).1.2 =
    us ≫= (fun v => [UsersRemove (emoji_name r) v; ProcessRating v d cd]) ∧
  List.length (rate_each r us sg d cd).2 = List.length us.
Proof.
  induction us as [|v us IH]; intros sg; simpl; [done|].
  destruct (processRating sg v d cd) as [sg1 res].
  destruct (IH sg1) as [I1 I2].
  destruct (rate_each r us sg1 d cd) as [[sg2 cs] ps]. simpl in *.
  by rewrite I1, I2.
Qed.

Lemma rate_each_counts r d cd us sg :
  let cs := (rate_each r us sg d cd).1.2 in
  count is_edit cs = 0%nat ∧
  count (is_note_of msgType.MUSIC) cs = 0%nat ∧
  count (is_note_of msgType.FAIL) cs = 0%nat.
Proof.
  simpl. destruct (rate_each_calls r d cd us sg) as [-> _].
  induction us as [|v us IH]; [done|]. simpl.
  rewrite !count_cons. simpl. done.
Qed.

(** When every callback promise rejects, so does every pending one. *)
Lemma rate_each_all_rejected r d cd us : ∀ sg,
  (∀ sg' v, v ∈ us -> is_resolved (processRating sg' v d cd).2 = false) ->
  tally is_resolved (rate_each r us sg d cd).2 = 0%nat ∧
  tally (fun x => negb (is_resolved x)) (rate_each r us sg d cd).2
    = List.length us.
Proof.
  induction us as [|v us IH]; intros sg Hrej; simpl; [done|].
  pose proof (Hrej sg v ltac:(left)) as Hv.
  destruct (processRating sg v d cd) as [sg1 res]. simpl in Hv.
  destruct (IH sg1) as [I1 I2].
  { intros sg' w Hw. apply Hrej. by right. }
  destruct (rate_each r us sg1 d cd) as [[sg2 cs] ps]. simpl in *.
  rewrite !tally_cons, Hv, I1, I2. done.
Qed.

Lemma rate_each_no_notes r d cd us : ∀ sg,
  (∀ sg' v, v ∈ us -> has_note (processRating sg' v d cd).2 = false) ->
  tally has_note (rate_each r us sg d cd).2 = 0%nat.
Proof.
  induction us as [|v us IH]; intros sg Hn; simpl; [done|].
  pose proof (Hn sg v ltac:(left)) as Hv.
  destruct (processRating sg v d cd) as [sg1 res]. simpl in Hv.
  assert (I := IH sg1 ltac:(intros sg' w Hw; apply Hn; by right)).
  destruct (rate_each r us sg1 d cd) as [[sg2 cs] ps]. simpl in *.
  by rewrite tally_cons, Hv, I.
Qed.

(** The calls of one [handleRatingReaction]: the loop, then the
    continuations. *)
Lemma handleRatingReaction_calls r sg d cd :
  (handleRatingReaction r sg d cd).2 =
    (rate_each r (humans r) sg d cd).1.2 ++
    (settle_all r (rate_each r (humans r) sg d cd).1.1
                  (rate_each r (humans r) sg d cd).2).2.
Proof.
  unfold Rating.handleRatingReaction.
  destruct (rate_each r (humans r) sg d cd) as [[sg1 cs1] ps]. simpl.
  by destruct (settle_all r sg1 ps).
Qed.

Lemma on_collect_eq c s r :
  on_collect c s r =
    (set_song s (handleRatingReaction r (song s) (delta_of c) (ignoreCd_of c)).1,
     prelude c r ++
     (handleRatingReaction r (song s) (delta_of c) (ignoreCd_of c)).2).
Proof.
  destruct c; simpl;
    by destruct (handleRatingReaction r (song s) _ _).
Qed.

Lemma on_collect_keeps_open c s r : open (on_collect c s r).1 = open s.
Proof. by rewrite on_collect_eq. Qed.

Lemma offer_skip c r u acc :
  filter_of c r u = false -> offer c r u acc = acc.
Proof.
  intros Hf. destruct acc as [s cs]. unfold Rating.offer.
  by rewrite Hf, andb_false_r.
Qed.

Lemma offer_first c r u s :
  offer c r u (s, []) =
    if bool_decide (c ∈ open s) && filter_of c r u
    then on_collect c s r else (s, []).
Proof.
  unfold Rating.offer. destruct (_ && _); [|done].
  by destruct (on_collect c s r).
Qed.

Lemma filter_of_emoji c c' r u :
  emoji_name r = emoji_of c ->
  filter_of c' r u = bool_decide (c' = c) && negb (bot u).
Proof.
  intros He. unfold filter_of. rewrite He. f_equal.
  apply bool_decide_ext.
  split; [intros E; symmetry; by apply emoji_of_inj | by intros ->].
Qed.

(** A reaction is taken by the one open collector whose emoji it
    carries, provided the user is not a bot; otherwise by none. *)
Lemma dispatch_vote c s r u :
  emoji_name r = emoji_of c ->
  dispatch s (ReactionAdd r u) =
    if bool_decide (c ∈ open s) && negb (bot u)
    then on_collect c s r else (s, []).
Proof.
  intros He. unfold Rating.dispatch.
  pose proof (fun c' => filter_of_emoji c c' r u He) as Hf.
  destruct c.
  - rewrite offer_first, (Hf upReaction), (bool_decide_eq_true_2 (upReaction = upReaction)) by done.
    rewrite !offer_skip; [done| |];
      by rewrite Hf, bool_decide_eq_false_2.
  - rewrite (offer_skip upReaction)
      by (by rewrite Hf, bool_decide_eq_false_2).
    rewrite offer_first, (Hf downReaction), (bool_decide_eq_true_2 (downReaction = downReaction)) by done.
    rewrite offer_skip; [done|]. by rewrite Hf, bool_decide_eq_false_2.
  - rewrite (offer_skip upReaction)
      by (by rewrite Hf, bool_decide_eq_false_2).
    rewrite (offer_skip downReaction)
      by (by rewrite Hf, bool_decide_eq_false_2).
    by rewrite offer_first, (Hf poopReaction), (bool_decide_eq_true_2 (poopReaction = poopReaction)).
Qed.

Lemma dispatch_bot s r u :
  bot u = true -> dispatch s (ReactionAdd r u) = (s, []).
Proof.
  intros Hb. unfold Rating.dispatch.
  rewrite !offer_skip; [done| | |];
    unfold filter_of; rewrite Hb; apply andb_false_r.
Qed.

Lemma dispatch_other s r u :
  (∀ c, emoji_name r ≠ emoji_of c) ->
  dispatch s (ReactionAdd r u) = (s, []).
Proof.
  intros Hne. unfold Rating.dispatch.
  rewrite !offer_skip; [done| | |];
    unfold filter_of; by rewrite bool_decide_eq_false_2.
Qed.

End WithCallback.

End RatingVotes.

Module RatingRuns.
Import Rating RatingFacts RatingVotes.

Section WithCallback.
Variable processRating : Song -> user -> Z -> bool -> Song * rating_result.

Local Abbreviation rate_each := (Rating.rate_each processRating).
Local Abbreviation handleRatingReaction := (Rating.handleRatingReaction processRating).
Local Abbreviation on_collect := (Rating.on_collect processRating).
Local Abbreviation dispatch := (Rating.dispatch processRating).
Local Abbreviation run := (Rating.run processRating).

Lemma human_elem r v : v ∈ humans r ↔ v ∈ users r ∧ bot v = false.
Proof. unfold humans. rewrite list_elem_of_filter. tauto. Qed.

(** Every reaction either names the emoji of one collector or of none. *)
Lemma emoji_cases (e : string) :
  (∃ c, e = emoji_of c) ∨ (∀ c, e ≠ emoji_of c).
Proof.
  destruct (decide (e = UP)) as [->|H1]; [left; by exists upReaction|].
  destruct (decide (e = DOWN)) as [->|H2]; [left; by exists downReaction|].
  destruct (decide (e = POOP)) as [->|H3]; [left; by exists poopReaction|].
  right. by intros [].
Qed.

(** The scoring calls of one listener run: one per human user of the
    reaction, with the listener's delta and flag. *)
Lemma on_collect_rating_calls c s r v d cd :
  ProcessRating v d cd ∈ (on_collect c s r).2 ↔
  v ∈ humans r ∧ d = delta_of c ∧ cd = ignoreCd_of c.
Proof.
  rewrite on_collect_eq. simpl. rewrite handleRatingReaction_calls.
  destruct (rate_each_calls processRating r (delta_of c) (ignoreCd_of c)
              (humans r) (song s)) as [-> _].
  pose proof (settle_all_counts r
    (rate_each r (humans r) (song s) (delta_of c) (ignoreCd_of c)).2
    (rate_each r (humans r) (song s) (delta_of c) (ignoreCd_of c)).1.1)
    as (_ & _ & _ & Hno).
  rewrite !elem_of_app, list_elem_of_bind. split.
  - intros [Hp|[(w & Hin & Hw)|Hs]].
    + destruct c; simpl in Hp; try by apply elem_of_nil in Hp.
      apply elem_of_cons in Hp as [Hp|Hp]; [done|by apply elem_of_nil in Hp].
    + apply elem_of_cons in Hin as [Hin|Hin]; [done|].
      apply elem_of_cons in Hin as [Hin|Hin]; [|by apply elem_of_nil in Hin].
      injection Hin as -> -> ->. done.
    + by apply Hno in Hs.
  - intros (Hv & -> & ->). right; left. exists v. split; [|done].
    right; left.
  Qed.

Lemma dispatch_rating_calls s ev v d cd :
  ProcessRating v d cd ∈ (dispatch s ev).2 ->
  bot v = false ∧ (d = 1 ∨ d = -1 ∨ d = -1000)%Z.
Proof.
  destruct ev as [r u|c].
  - destruct (emoji_cases (emoji_name r)) as [[c Hc]|Hnone].
    + rewrite (dispatch_vote _ c) by done.
      destruct (_ && _); [|by intros H%elem_of_nil].
      rewrite on_collect_rating_calls. intros (Hv & -> & _).
      apply human_elem in Hv as [_ Hv]. split; [done|].
      destruct c; simpl; auto.
    + rewrite dispatch_other by done. by intros H%elem_of_nil.
  - simpl. destruct (bool_decide _); simpl.
    + intros H. apply elem_of_cons in H as [H|H]; [done|by apply elem_of_nil in H].
    + by intros H%elem_of_nil.
Qed.

(** When every scoring promise of a reaction rejects, the listener renders
    nothing and sends one failure note per vote. *)
Lemma on_collect_all_rejected c s r :
  (∀ sg v, v ∈ humans r ->
     is_resolved (processRating sg v (delta_of c) (ignoreCd_of c)).2 = false) ->
  count is_edit (on_collect c s r).2 = 0%nat ∧
  count (is_note_of msgType.FAIL) (on_collect c s r).2 = List.length (humans r).
Proof.
  intros Hrej. rewrite on_collect_eq. simpl.
  rewrite handleRatingReaction_calls, !count_app.
  destruct (rate_each_counts processRating r (delta_of c) (ignoreCd_of c)
              (humans r) (song s)) as (-> & _ & ->).
  destruct (settle_all_counts r
    (rate_each r (humans r) (song s) (delta_of c) (ignoreCd_of c)).2
    (rate_each r (humans r) (song s) (delta_of c) (ignoreCd_of c)).1.1)
    as (-> & _ & -> & _).
  destruct (rate_each_all_rejected processRating r (delta_of c) (ignoreCd_of c)
              (humans r) (song s) Hrej) as [-> ->].
  split; destruct c; simpl; rewrite ?count_cons; simpl;
    rewrite ?(bool_decide_eq_false_2 _ music_not_fail); done.
Qed.

(** A collector whose timer ran out is no longer open, and once all three
    are gone the session is Closed. *)
Lemma collector_end_closes s c :
  c ∉ open (dispatch s (CollectorEnd c)).1.
Proof.
  simpl. destruct (bool_decide (c ∈ open s)) eqn:E; simpl.
  - rewrite list_elem_of_filter. tauto.
  - by apply bool_decide_eq_false in E.
Qed.

Lemma collector_end_open s c :
  open (dispatch s (CollectorEnd c)).1 = filter (fun c' => c' ≠ c) (open s).
Proof.
  simpl. destruct (bool_decide (c ∈ open s)) eqn:E; simpl; [done|].
  apply bool_decide_eq_false in E. by rewrite filter_absent.
Qed.

Lemma run_cons_session s ev evs :
  (run s (ev :: evs)).1 = (run (dispatch s ev).1 evs).1.
Proof.
  change (run s (ev :: evs)) with
    (let '(s1, cs1) := dispatch s ev in
     let '(s2, cs2) := run s1 evs in (s2, cs1 ++ cs2)).
  destruct (dispatch s ev) as [s1 cs1]. cbn [fst].
  by destruct (run s1 evs) as [s2 cs2].
Qed.

Lemma all_timers_close_session s :
  status_of (run s [CollectorEnd upReaction; CollectorEnd downReaction;
                    CollectorEnd poopReaction]).1 = Closed.
Proof.
  unfold status_of.
  assert (H : open (run s [CollectorEnd upReaction; CollectorEnd downReaction;
                           CollectorEnd poopReaction]).1 = []);
    [|by rewrite H].
  rewrite !run_cons_session. cbn [Rating.run fst].
  rewrite !collector_end_open.
  apply elem_of_nil_inv. intros c.
  rewrite !list_elem_of_filter. destruct c; tauto.
Qed.

Lemma run_rating_calls evs : ∀ s v d cd,
  ProcessRating v d cd ∈ (run s evs).2 ->
  bot v = false ∧ (d = 1 ∨ d = -1 ∨ d = -1000)%Z.
Proof.
  induction evs as [|ev evs IH]; intros s v d cd; simpl.
  - by intros H%elem_of_nil.
  - pose proof (dispatch_rating_calls s ev v d cd) as Hd.
    destruct (dispatch s ev) as [s1 cs1].
    specialize (IH s1 v d cd).
    destruct (run s1 evs) as [s2 cs2]. simpl in *.
    rewrite elem_of_app. intros [H|H]; auto.
Qed.

End WithCallback.

End RatingRuns.

Section RatingClaims.
Import Rating RatingFacts RatingVotes RatingRuns.

Variable processRating : Song -> user -> Z -> bool -> Song * rating_result.

(** C5: in a rating session a reaction added by a bot passes no collector
    filter, so it changes nothing and reaches no listener; every call of
    the scoring callback made in any run of the session is for a user that
    is not a bot, with a delta of exactly +1, -1 or -1000; and the delta is
    the one of the emoji reacted with: +1 for up, -1 for down, -1000 for
    the flag. *)
Theorem rating_only_human_votes (s : session) (evs : list (event collector)) :
  (∀ r u, bot u = true ->
          Rating.dispatch processRating s (ReactionAdd r u) = (s, [])) ∧
  (∀ v d cd, ProcessRating v d cd ∈ (Rating.run processRating s evs).2 ->
             bot v = false ∧ (d = 1 ∨ d = -1 ∨ d = -1000)%Z) ∧
  (∀ c r u v d cd,
      emoji_name r = emoji_of c ->
      ProcessRating v d cd
        ∈ (Rating.dispatch processRating s (ReactionAdd r u)).2 ->
      bot u = false ∧ d = delta_of c ∧ cd = ignoreCd_of c).
Proof.
  split; [|split].
  - intros r u Hb. by apply dispatch_bot.
  - apply run_rating_calls.
  - intros c r u v d cd He. rewrite (dispatch_vote _ c) by done.
    destruct (bot u); simpl.
    + rewrite andb_false_r. by intros H%elem_of_nil.
    + destruct (_ && _); [|by intros H%elem_of_nil].
      rewrite on_collect_rating_calls. by intros (_ & -> & ->).
Qed.

End RatingClaims.

Module ThrowingFacts.
Import Rating.

(** For a callback that never throws, the two readings of
    [handleRatingReaction] agree. *)
Lemma rate_each_returning processRating r d cd us : ∀ sg,
  Throwing.rate_each (Throwing.returning processRating) r us sg d cd
    = (Rating.rate_each processRating r us sg d cd, None).
Proof.
  induction us as [|v us IH]; intros sg; [done|].
  cbn [Throwing.rate_each Rating.rate_each]. unfold Throwing.returning at 1.
  destruct (processRating sg v d cd) as [sg1 res]. rewrite IH.
  by destruct (Rating.rate_each processRating r us sg1 d cd) as [[sg2 cs] ps].
Qed.

Lemma handleRatingReaction_returning processRating r sg d cd :
  Throwing.handleRatingReaction (Throwing.returning processRating) r sg d cd
    = (Rating.handleRatingReaction processRating r sg d cd, None).
Proof.
  unfold Throwing.handleRatingReaction, Rating.handleRatingReaction.
  rewrite rate_each_returning.
  destruct (Rating.rate_each processRating r (humans r) sg d cd)
    as [[sg1 cs1] ps].
  by destruct (settle_all r sg1 ps) as [sg2 cs2].
Qed.

End ThrowingFacts.

Section FlagVote.
Import Rating RatingFacts RatingVotes RatingRuns.

Variable processRating : Song -> user -> Z -> bool -> Song * rating_result.

Lemma flag_calls s r :
  (Rating.on_collect processRating poopReaction s r).2 =
    SimpleNote (r_message r) cleanNote msgType.MUSIC ::
    (humans r ≫= (fun v => [UsersRemove (emoji_name r) v;
                             ProcessRating v (-1000) true])) ++
    (settle_all r
       (rate_each processRating r (humans r) (song s) (-1000) true).1.1
       (rate_each processRating r (humans r) (song s) (-1000) true).2).2.
Proof.
  rewrite on_collect_eq. simpl. rewrite handleRatingReaction_calls.
  by destruct (rate_each_calls processRating r (-1000) true
                 (humans r) (song s)) as [-> _].
Qed.

(** C1 (as amended): a flag vote by a human user takes back the reaction of
    that user (and of every other human on the reaction), first sends the
    music-kind note "Let me clean that ... for you", and calls the scoring
    callback for each of them with delta -1000 and the cooldown ignored;
    the only further music notes are those the callback resolves with, so
    exactly one music note is sent when the callback resolves without a
    note.  No collector is ended: the session stays Active with the same
    open subscriptions. *)
Theorem flag_vote_keeps_session_open (s : session) (r : reaction) (u : user) :
  emoji_name r = POOP ->
  bot u = false ->
  u ∈ users r ->
  poopReaction ∈ open s ->
  let out := Rating.dispatch processRating s (ReactionAdd r u) in
  UsersRemove POOP u ∈ out.2 ∧
  ProcessRating u (-1000) true ∈ out.2 ∧
  head out.2 = Some (SimpleNote (r_message r) cleanNote msgType.MUSIC) ∧
  count (is_note_of msgType.MUSIC) out.2 =
    S (tally has_note
         (rate_each processRating r (humans r) (song s) (-1000) true).2) ∧
  ((∀ sg v, has_note (processRating sg v (-1000) true).2 = false) ->
   count (is_note_of msgType.MUSIC) out.2 = 1%nat) ∧
  open out.1 = open s ∧
  status_of out.1 = Active.
Proof.
  intros He Hb Hu Hopen out.
  assert (Hout : out = Rating.on_collect processRating poopReaction s r).
  { unfold out. rewrite (dispatch_vote _ poopReaction) by done.
    by rewrite bool_decide_eq_true_2, Hb by done. }
  assert (Hh : u ∈ humans r) by (by apply human_elem).
  assert (Hcount : count (is_note_of msgType.MUSIC) out.2 =
    S (tally has_note
         (rate_each processRating r (humans r) (song s) (-1000) true).2)).
  { rewrite Hout, on_collect_eq. simpl. rewrite count_cons. simpl.
    rewrite handleRatingReaction_calls, count_app.
    destruct (rate_each_counts processRating r (-1000) true (humans r) (song s))
      as (_ & -> & _).
    by destruct (settle_all_counts r
      (rate_each processRating r (humans r) (song s) (-1000) true).2
      (rate_each processRating r (humans r) (song s) (-1000) true).1.1)
      as (_ & -> & _). }
  repeat split.
  - rewrite Hout, flag_calls, He. right. apply elem_of_app. left.
    apply list_elem_of_bind. exists u. split; [left | done].
  - rewrite Hout. apply on_collect_rating_calls. done.
  - by rewrite Hout, flag_calls.
  - done.
  - intros Hquiet. rewrite Hcount.
    by rewrite rate_each_no_notes.
  - by rewrite Hout, on_collect_keeps_open.
  - unfold status_of. rewrite Hout, on_collect_keeps_open.
    destruct (open s); [by apply elem_of_nil in Hopen | done].
Qed.


End FlagVote.

(** ** The reaction poster *)

Section Poster.
Variable react : nat -> option string -> bool.

Lemma postReactionEmojis_nonempty l : ∀ n,
  l ≠ [] -> postReactionEmojis react n l = attach_in_order react n l.
Proof.
  induction l as [|e rest IH]; intros n Hne; [done|]. simpl.
  destruct (react n (Some e)); [|done].
  destruct rest as [|e' rest']; [done|].
  by rewrite IH.
Qed.

Lemma attach_in_order_sequenced l : ∀ n,
  strictly_sequenced (attach_in_order react n l).1 = true.
Proof.
  induction l as [|e rest IH]; intros n; simpl; [done|].
  destruct (react n (Some e)); simpl.
  - specialize (IH (S n)). destruct (attach_in_order react (S n) rest).
    simpl in *. by rewrite bool_decide_eq_true_2.
  - by rewrite bool_decide_eq_true_2.
Qed.

(** Resolution means every emoji of the list was acknowledged, in order,
    and happens exactly when no attach fails. *)
Lemma attach_in_order_resolves l : ∀ n,
  (attach_in_order react n l).2 = true ->
  acked (attach_in_order react n l).1 = Some <$> l ∧
  begun (attach_in_order react n l).1 = Some <$> l.
Proof.
  induction l as [|e rest IH]; intros n; simpl; [done|].
  destruct (react n (Some e)); simpl; [|done].
  specialize (IH (S n)). destruct (attach_in_order react (S n) rest) as [t r].
  simpl in *. intros Hr. destruct (IH Hr) as [-> ->]. done.
Qed.

Lemma attach_in_order_all_ok l : ∀ n,
  (∀ i e, l !! i = Some e -> react (n + i) (Some e) = true) ->
  (attach_in_order react n l).2 = true.
Proof.
  induction l as [|e rest IH]; intros n Hall; simpl; [done|].
  rewrite <- (Nat.add_0_r n) at 1. rewrite (Hall 0%nat e) by done.
  specialize (IH (S n)). destruct (attach_in_order react (S n) rest) as [t r].
  simpl in *. apply IH. intros i e' Hi.
  replace (S (n + i)) with (n + S i)%nat by lia. by apply Hall.
Qed.

Lemma attach_in_order_resolved_all_ok l : ∀ n,
  (attach_in_order react n l).2 = true ->
  ∀ i e, l !! i = Some e -> react (n + i) (Some e) = true.
Proof.
  induction l as [|e0 rest IH]; intros n Hr i e Hi; [done|].
  simpl in Hr. destruct (react n (Some e0)) eqn:Hre; [|done].
  specialize (IH (S n)). destruct (attach_in_order react (S n) rest) as [t r].
  simpl in *. destruct i as [|i].
  - injection Hi as <-. by rewrite Nat.add_0_r.
  - replace (n + S i)%nat with (S n + i)%nat by lia. by apply IH.
Qed.

(** Rejection means some attach failed; it is the first one that did, the
    trace ends with it, and the emojis after it were never requested. *)
Lemma attach_in_order_rejects l : ∀ n,
  (attach_in_order react n l).2 = false ->
  ∃ k e,
    l !! k = Some e ∧
    react (n + k) (Some e) = false ∧
    (∀ j e', (j < k)%nat -> l !! j = Some e' -> react (n + j) (Some e') = true) ∧
    begun (attach_in_order react n l).1 = Some <$> take (S k) l ∧
    acked (attach_in_order react n l).1 = Some <$> take k l ∧
    last (attach_in_order react n l).1 = Some (AttachFail (Some e)).
Proof.
  induction l as [|e rest IH]; intros n; simpl; [done|].
  destruct (react n (Some e)) eqn:Hre; simpl.
  - specialize (IH (S n)). destruct (attach_in_order react (S n) rest) as [t r].
    simpl in *. intros Hr. destruct (IH Hr) as (k & e' & Hk & Hf & Hbefore & Hb & Ha & Hl).
    exists (S k), e'. repeat split.
    + done.
    + by replace (n + S k)%nat with (S (n + k)) by lia.
    + intros [|j] e'' Hj Hlk.
      * injection Hlk as <-. by rewrite Nat.add_0_r.
      * replace (n + S j)%nat with (S (n + j)) by lia.
        apply Hbefore; [lia|done].
    + by rewrite Hb.
    + by rewrite Ha.
    + destruct t; [done|]. done.
  - intros _. exists 0%nat, e. rewrite Nat.add_0_r.
    repeat split; try done. intros j e' Hj. lia.
Qed.

End Poster.

Section PosterClaims.

(** C4 (as amended): for every non-empty list of emoji symbols the poster
    requests the attaches in list order, each request being answered before
    the next is made; its promise resolves exactly when no attach fails,
    and then every emoji of the list has been acknowledged, in order; when
    the promise rejects, the first attach that failed is the last entry of
    the trace, the emojis before it were acknowledged, and the emojis after
    it are never requested. *)
Theorem postReactionEmojis_in_order
    (react : nat -> option string -> bool) (n : nat) (l : list string) :
  l ≠ [] ->
  let out := postReactionEmojis react n l in
  strictly_sequenced out.1 = true ∧
  (out.2 = true ->
     begun out.1 = Some <$> l ∧ acked out.1 = Some <$> l) ∧
  (out.2 = true ↔
     ∀ i e, l !! i = Some e -> react (n + i) (Some e) = true) ∧
  (out.2 = false ->
     ∃ k e,
       l !! k = Some e ∧
       react (n + k) (Some e) = false ∧
       (∀ j e', (j < k)%nat -> l !! j = Some e' ->
                react (n + j) (Some e') = true) ∧
       begun out.1 = Some <$> take (S k) l ∧
       acked out.1 = Some <$> take k l ∧
       last out.1 = Some (AttachFail (Some e))).
Proof.
  intros Hne out. unfold out. rewrite postReactionEmojis_nonempty by done.
  split; [apply attach_in_order_sequenced|].
  split; [intros Hr; by destruct (attach_in_order_resolves react l n Hr)|].
  split; [|apply attach_in_order_rejects].
  split; [apply attach_in_order_resolved_all_ok | apply attach_in_order_all_ok].
Qed.

End PosterClaims.

(** ** Unavailable channels, teardown, and the song embed *)

Section Boundary.

Variable processRating : Song -> user -> Z -> bool -> Song * Rating.rating_result.

(** C8: when the channel of the input message is undefined, [simpleNote]
    and [send] only write to the console and return the resolved stub, whose
    [delete] returns [null] and calls nothing; [pagedContent] and
    [displaySong] only write to the console, build no widget and leave the
    song untouched.  In all four cases no call reaches the gateway. *)
Theorem unavailable_channel_is_noop (gw : gateway) (m : message)
    (text type : string) (c : content) (ps : list content) (sg : Song) :
  channel m = None ->
  simpleNote m text type = (Stub, [ConsoleLog (LText text)]) ∧
  send m c = (Stub, [ConsoleLog (LContent c)]) ∧
  stub_delete = (VNull, []) ∧
  Paged.pagedContent gw m ps = (None, [ConsoleLog (LPages ps)]) ∧
  Rating.displaySong gw m sg = (sg, None, [ConsoleLog (LSong sg)]) ∧
  gateway_calls (simpleNote m text type).2 = [] ∧
  gateway_calls (send m c).2 = [] ∧
  gateway_calls (Paged.pagedContent gw m ps).2 = [] ∧
  gateway_calls (Rating.displaySong gw m sg).2 = [].
Proof.
  intros Hc.
  unfold simpleNote, send, Paged.pagedContent, Rating.displaySong.
  rewrite Hc. repeat split.
Qed.

(** C9: the teardown of a widget is the ["end"] listener of a collector.
    When a second collector of the same session ends after the first (or
    the same one is ended again), the only call issued is another
    [removeAll]: no note is sent, the listener has no failing path, and the
    message is left exactly as after the first teardown, without any
    reaction icon. *)
Theorem teardown_twice_as_once (self : string) (v : view) :
  (∀ (s : Paged.session) c1 c2,
      c1 ∈ Paged.open s ->
      let once := Paged.dispatch s (CollectorEnd c1) in
      let twice := Paged.dispatch once.1 (CollectorEnd c2) in
      once.2 = [ReactionsRemoveAll] ∧
      (twice.2 = [] ∨ twice.2 = [ReactionsRemoveAll]) ∧
      (c2 = c1 -> twice.2 = []) ∧
      count is_note (once.2 ++ twice.2) = 0%nat ∧
      icons (apply_calls self v once.2) = ∅ ∧
      apply_calls self v (once.2 ++ twice.2) = apply_calls self v once.2) ∧
  (∀ (s : Rating.session) c1 c2,
      c1 ∈ Rating.open s ->
      let once := Rating.dispatch processRating s (CollectorEnd c1) in
      let twice := Rating.dispatch processRating once.1 (CollectorEnd c2) in
      once.2 = [ReactionsRemoveAll] ∧
      (twice.2 = [] ∨ twice.2 = [ReactionsRemoveAll]) ∧
      (c2 = c1 -> twice.2 = []) ∧
      count is_note (once.2 ++ twice.2) = 0%nat ∧
      icons (apply_calls self v once.2) = ∅ ∧
      apply_calls self v (once.2 ++ twice.2) = apply_calls self v once.2).
Proof.
  split.
  - intros s c1 c2 H1. simpl. rewrite bool_decide_eq_true_2 by done. simpl.
    split; [done|].
    assert (Hself : c1 ∉ filter (λ c', c' ≠ c1) (Paged.open s)).
    { rewrite list_elem_of_filter. tauto. }
    destruct (bool_decide (c2 ∈ _)) eqn:E; simpl.
    + repeat split; try done; [by right|].
      intros ->. apply bool_decide_eq_true in E. done.
    + repeat split; try done. by left.
  - intros s c1 c2 H1. simpl. rewrite bool_decide_eq_true_2 by done. simpl.
    split; [done|].
    assert (Hself : c1 ∉ filter (λ c', c' ≠ c1) (Rating.open s)).
    { rewrite list_elem_of_filter. tauto. }
    destruct (bool_decide (c2 ∈ _)) eqn:E; simpl.
    + repeat split; try done; [by right|].
      intros ->. apply bool_decide_eq_true in E. done.
    + repeat split; try done. by left.
Qed.

(** C10 (as amended): [buildSongEmbed] writes into the song it is given.
    Every enumerable field that reads as the empty string, whether the song
    owns it or inherits it, is an own field holding "-" after the call;
    every other own field holds what it held before, no other own field is
    added, and the inherited fields themselves are untouched.  The embed is
    built after the loop: each of its five fields shows the value the
    changed song has, "-" where the song had the empty string.  The first
    render in [displaySong] and every re-render of
    [handleRatingReaction] go through it: all edits of one reaction show
    the embed of the song as the callback left it, there is one per
    resolved vote, and the song carries the change once one was made. *)
Theorem buildSongEmbed_overwrites_empty_fields (sg : Song) :
  (∀ key,
      own_fields (buildSongEmbed sg).1 !! key =
        if decide (read_field sg key = Some (VStr "")) then Some (VStr "-")
        else own_fields sg !! key) ∧
  proto_fields (buildSongEmbed sg).1 = proto_fields sg ∧
  fields (buildSongEmbed sg).2 =
    [ Field "Title" (dash_if_empty (get_field sg "title")) true;
      Field "Artist" (dash_if_empty (get_field sg "artist")) true;
      BlankField;
      Field "Requester" (dash_if_empty (get_field sg "requester")) true;
      Field "Rating" (dash_if_empty (get_field sg "rating")) true;
      Field "Source" (dash_if_empty (get_field sg "src")) true ] ∧
  (∀ gw m,
      channel m ≠ None ->
      (Rating.displaySong gw m sg).1.1 = (buildSongEmbed sg).1 ∧
      head (gateway_calls (Rating.displaySong gw m sg).2) =
        Some (ChannelSend (CEmbed (buildSongEmbed sg).2))) ∧
  (∀ r delta ignoreCd,
      let called :=
        Rating.rate_each processRating r (Rating.humans r) sg delta ignoreCd in
      let out := Rating.handleRatingReaction processRating r sg delta ignoreCd in
      (∀ x, MessageEdit x ∈ out.2 -> x = CEmbed (buildSongEmbed called.1.1).2) ∧
      count is_edit out.2 = Rating.tally Rating.is_resolved called.2 ∧
      out.1 = if decide (Rating.tally Rating.is_resolved called.2 = 0%nat)
              then called.1.1 else (buildSongEmbed called.1.1).1).
Proof.
  split; [|split; [|split; [|split]]].
  - intros key. rewrite SongFacts.own_after. unfold read_field, dash_entry.
    destruct (own_fields sg !! key) as [v|]; simpl.
    + unfold dash_if_empty. destruct (decide (v = VStr "")) as [->|Hv].
      * by rewrite decide_True.
      * rewrite decide_False; [done|]. by intros [= ->].
    + destruct (proto_fields sg !! key) as [v|]; [|done].
      destruct (decide (v = VStr "")) as [->|Hv].
      * by rewrite decide_True.
      * rewrite decide_False; [done|]. by intros [= ->].
  - done.
  - unfold buildSongEmbed. cbn [snd fields].
    by rewrite !(SongFacts.get_after sg).
  - intros gw m Hm. unfold Rating.displaySong.
    destruct (channel m); [|done].
    destruct (buildSongEmbed sg) as [sg' e].
    destruct (send_reply gw _); [|done].
    by destruct (postReactionEmojis _ _ _) as [t [|]].
  - intros r delta ignoreCd called out. unfold out, called.
    unfold Rating.handleRatingReaction.
    pose proof (RatingVotes.rate_each_counts processRating r delta ignoreCd
                  (Rating.humans r) sg) as (Hedit & _ & _).
    pose proof (RatingVotes.rate_each_calls processRating r delta ignoreCd
                  (Rating.humans r) sg) as [Hcalls _].
    destruct (Rating.rate_each processRating r (Rating.humans r) sg delta ignoreCd)
      as [[sg1 cs1] ps]. cbn [fst snd] in *.
    destruct (SongFacts.settle_all_renders r ps sg1) as (H1 & H2 & H3).
    destruct (Rating.settle_all r sg1 ps) as [sg2 cs2]. cbn [fst snd] in *.
    split; [|split; [|done]].
    + intros x Hin. apply elem_of_app in Hin as [Hin|Hin]; [|by apply H1].
      rewrite Hcalls in Hin. apply list_elem_of_bind in Hin as (v & Hin & _).
      repeat (apply elem_of_cons in Hin as [Hin|Hin]; [done|]).
      by apply elem_of_nil in Hin.
    + by rewrite RatingFacts.count_app, Hedit, H2.
Qed.

End Boundary.

(** ** Arrival order *)

Module PagedOrder.
Import Paged PagedFacts PagedLoop.

Lemma edits_follow_refl s : edits_follow s (s, []).
Proof. by split. Qed.

Lemma edits_follow_trans s0 s cs s' cs' :
  edits_follow s0 (s, cs) -> edits_follow s (s', cs') ->
  edits_follow s0 (s', cs ++ cs').
Proof.
  unfold edits_follow. simpl. intros [Hp H] [Hp' H'].
  split; [congruence|].
  rewrite filter_app, last_app.
  destruct (last (filter _ cs')) as [c'|].
  - by rewrite <- Hp.
  - destruct (last (filter _ cs)) as [c|]; congruence.
Qed.

Lemma on_collect_follows c s r : edits_follow s (on_collect c s r).
Proof.
  destruct c; simpl.
  - destruct (page s + 1 <? _)%nat; by split.
  - destruct (0 <? page s)%nat; by split.
Qed.

Lemma offer_follows s0 c r u acc :
  edits_follow s0 acc -> edits_follow s0 (offer c r u acc).
Proof.
  destruct acc as [s cs]. intros H. unfold offer.
  destruct (_ && _); [|done].
  pose proof (on_collect_follows c s r) as H'.
  destruct (on_collect c s r) as [s' cs'].
  by eapply edits_follow_trans.
Qed.

Lemma dispatch_follows s ev : edits_follow s (dispatch s ev).
Proof.
  destruct ev as [r u|c]; unfold dispatch.
  - do 2 apply offer_follows. apply edits_follow_refl.
  - destruct (bool_decide _); by split.
Qed.

Lemma run_follows evs : ∀ s, edits_follow s (run s evs).
Proof.
  induction evs as [|ev evs IH]; intros s; simpl.
  - apply edits_follow_refl.
  - pose proof (dispatch_follows s ev) as H1.
    destruct (dispatch s ev) as [s1 cs1].
    specialize (IH s1). destruct (run s1 evs) as [s2 cs2].
    by eapply edits_follow_trans.
Qed.

(** Completions leave no trace in the session or in the calls: a schedule
    does what its deliveries alone do, in their order. *)
Lemma run_world_deliveries steps : ∀ w,
  sess (run_world w steps) = (run (sess w) (deliveries steps)).1 ∧
  issued (run_world w steps) =
    issued w ++ (run (sess w) (deliveries steps)).2.
Proof.
  induction steps as [|st steps IH]; intros w.
  - simpl. by rewrite app_nil_r.
  - unfold run_world in *. simpl foldl.
    destruct (IH (step_world w st)) as [IH1 IH2]. rewrite IH1, IH2.
    destruct st as [ev|]; simpl.
    + destruct (dispatch (sess w) ev) as [s1 cs1]. simpl.
      destruct (run s1 (deliveries steps)) as [s2 cs2]. simpl.
      by rewrite app_assoc.
    + done.
Qed.

End PagedOrder.

Module RatingOrder.
Import Rating RatingFacts RatingVotes RatingLoop.

Abbreviation only_votes := (filter (fun c => is_vote_call c = true)).
Abbreviation only_edits := (filter (fun c => is_edit c = true)).

Section WithCallback.
Variable processRating : Song -> user -> Z -> bool -> Song * rating_result.

Lemma only_votes_asked c r : only_votes (asked c r) = asked c r.
Proof.
  unfold asked. induction (humans r) as [|v us IH]; [done|].
  change (only_votes
            (UsersRemove (emoji_name r) v
               :: ProcessRating v (delta_of c) (ignoreCd_of c)
               :: (us ≫= (fun v => [UsersRemove (emoji_name r) v;
                     ProcessRating v (delta_of c) (ignoreCd_of c)]))) =
          UsersRemove (emoji_name r) v
            :: ProcessRating v (delta_of c) (ignoreCd_of c)
            :: (us ≫= (fun v => [UsersRemove (emoji_name r) v;
                  ProcessRating v (delta_of c) (ignoreCd_of c)]))).
  rewrite !filter_cons. simpl. by rewrite IH.
Qed.

Lemma listen_votes c s r :
  only_votes (listen processRating c s r).1.2 = asked c r ∧
  open (listen processRating c s r).1.1 = open s.
Proof.
  unfold listen.
  destruct (rate_each_calls processRating r (delta_of c) (ignoreCd_of c)
              (humans r) (song s)) as [Hcalls _].
  destruct (rate_each processRating r (humans r) (song s) _ _) as [[sg cs] ps].
  simpl in *. subst cs. rewrite filter_app.
  fold (asked c r). rewrite only_votes_asked.
  by destruct c.
Qed.

Lemma offer_votes c r u s cs ps :
  only_votes (RatingLoop.offer processRating c r u (s, cs, ps)).1.2 =
    only_votes cs ++
    (if bool_decide (c ∈ open s) && filter_of c r u then asked c r else []) ∧
  open (RatingLoop.offer processRating c r u (s, cs, ps)).1.1 = open s.
Proof.
  unfold RatingLoop.offer.
  destruct (bool_decide (c ∈ open s) && filter_of c r u).
  - destruct (listen_votes c s r) as [H1 H2].
    destruct (listen processRating c s r) as [[s' cs'] ps']. simpl in *.
    by rewrite filter_app, H1.
  - simpl. by rewrite app_nil_r.
Qed.

Lemma deliver_votes s ev :
  only_votes (deliver processRating s ev).1.2 ++
    votes (open (deliver processRating s ev).1.1) [] = votes (open s) [ev] ∧
  ∀ evs, votes (open s) (ev :: evs) =
         only_votes (deliver processRating s ev).1.2 ++
         votes (open (deliver processRating s ev).1.1) evs.
Proof.
  assert (Hgoal : ∀ evs, votes (open s) (ev :: evs) =
         only_votes (deliver processRating s ev).1.2 ++
         votes (open (deliver processRating s ev).1.1) evs).
  { intros evs. destruct ev as [r u|c]; unfold deliver.
    - destruct (RatingLoop.offer processRating upReaction r u (s, [], []))
        as [[s1 cs1] ps1] eqn:E1.
      pose proof (offer_votes upReaction r u s [] []) as [A1 B1].
      rewrite E1 in A1, B1. simpl in A1, B1.
      destruct (RatingLoop.offer processRating downReaction r u (s1, cs1, ps1))
        as [[s2 cs2] ps2] eqn:E2.
      pose proof (offer_votes downReaction r u s1 cs1 ps1) as [A2 B2].
      rewrite E2 in A2, B2. simpl in A2, B2.
      pose proof (offer_votes poopReaction r u s2 cs2 ps2) as [A3 B3].
      rewrite A3, B3, A2, B2, A1, B1.
      simpl. rewrite app_nil_r. by rewrite <- !app_assoc.
    - simpl. destruct (bool_decide (c ∈ open s)) eqn:E; simpl.
      + done.
      + apply bool_decide_eq_false in E. by rewrite filter_absent. }
  split; [|done]. by rewrite Hgoal.
Qed.

Lemma settled_no_votes r sg res : only_votes (settled r sg res).2 = [].
Proof.
  destruct res as [[text|]|err]; simpl; try done.
  by destruct (negb (bool_decide (text = ""))).
Qed.

(** Settlements and completions add no scoring call and close no
    collector: the scoring calls of a schedule are those its deliveries
    ask for, in their order. *)
Lemma run_world_votes steps : ∀ w,
  only_votes (issued (run_world processRating w steps)) =
    only_votes (issued w) ++ votes (open (sess w)) (deliveries steps).
Proof.
  induction steps as [|st steps IH]; intros w.
  - simpl. by rewrite app_nil_r.
  - unfold run_world in *. simpl foldl. rewrite IH.
    destruct st as [ev|i|].
    + change (deliveries (Deliver ev :: steps)) with (ev :: deliveries steps).
      destruct (deliver_votes (sess w) ev) as [_ ->]. simpl.
      destruct (deliver processRating (sess w) ev) as [[s' cs] ps]. simpl.
      by rewrite filter_app, app_assoc.
    + change (deliveries (Settle i :: steps)) with (deliveries steps).
      simpl. destruct (pending w !! i) as [[r res]|]; [|done].
      pose proof (settled_no_votes r (song (sess w)) res) as Hs.
      destruct (settled r (song (sess w)) res) as [sg cs]. simpl in *.
      by rewrite filter_app, Hs, app_nil_r.
    + done.
Qed.

(** *** The run-to-completion reading is one schedule of the loop *)

Lemma loop_offer_skip c r u acc :
  filter_of c r u = false -> RatingLoop.offer processRating c r u acc = acc.
Proof.
  intros Hf. destruct acc as [[s cs] ps]. unfold RatingLoop.offer.
  by rewrite Hf, andb_false_r.
Qed.

Lemma loop_offer_first c r u s :
  RatingLoop.offer processRating c r u (s, [], []) =
    if bool_decide (c ∈ open s) && filter_of c r u
    then listen processRating c s r else (s, [], []).
Proof.
  unfold RatingLoop.offer. destruct (_ && _); [|done].
  by destruct (listen processRating c s r) as [[s' cs'] ps'].
Qed.

Lemma deliver_vote c s r u :
  emoji_name r = emoji_of c ->
  deliver processRating s (ReactionAdd r u) =
    if bool_decide (c ∈ open s) && negb (bot u)
    then listen processRating c s r else (s, [], []).
Proof.
  intros He. unfold deliver.
  pose proof (fun c' => filter_of_emoji c c' r u He) as Hf.
  destruct c.
  - rewrite loop_offer_first, (Hf upReaction),
      (bool_decide_eq_true_2 (upReaction = upReaction)) by done.
    rewrite !loop_offer_skip; [done| |];
      by rewrite Hf, bool_decide_eq_false_2.
  - rewrite (loop_offer_skip upReaction)
      by (by rewrite Hf, bool_decide_eq_false_2).
    rewrite loop_offer_first, (Hf downReaction),
      (bool_decide_eq_true_2 (downReaction = downReaction)) by done.
    rewrite loop_offer_skip; [done|]. by rewrite Hf, bool_decide_eq_false_2.
  - rewrite (loop_offer_skip upReaction)
      by (by rewrite Hf, bool_decide_eq_false_2).
    rewrite (loop_offer_skip downReaction)
      by (by rewrite Hf, bool_decide_eq_false_2).
    by rewrite loop_offer_first, (Hf poopReaction),
      (bool_decide_eq_true_2 (poopReaction = poopReaction)).
Qed.

Lemma deliver_other s r u :
  (∀ c, emoji_name r ≠ emoji_of c) ->
  deliver processRating s (ReactionAdd r u) = (s, [], []).
Proof.
  intros Hne. unfold deliver.
  rewrite !loop_offer_skip; [done| | |];
    unfold filter_of; by rewrite bool_decide_eq_false_2.
Qed.

(** Settling the promises of one reaction oldest first is [settle_all]. *)
Lemma settle_oldest_first r ps : ∀ s issued0 n,
  run_world processRating
    (mkWorld s ((fun res => (r, res)) <$> ps) issued0 n)
    (replicate (List.length ps) (Settle 0)) =
  mkWorld (set_song s (settle_all r (song s) ps).1) []
          (issued0 ++ (settle_all r (song s) ps).2)
          (n + count is_edit (settle_all r (song s) ps).2).
Proof.
  induction ps as [|res ps IH]; intros s issued0 n.
  - simpl. rewrite app_nil_r, Nat.add_0_r. by destruct s.
  - unfold run_world in *. simpl.
    destruct (settled r (song s) res) as [sg1 cs1] eqn:E1. simpl.
    rewrite IH. simpl.
    destruct (settle_all r sg1 ps) as [sg2 cs2]. simpl.
    by rewrite count_app, app_assoc, Nat.add_assoc.
Qed.

(** An event followed at once by the settlement of every promise it
    created leaves the session and the calls of [Rating.dispatch]. *)
Lemma eager_schedule_is_dispatch s ev :
  let w := run_world processRating (start s) (eager processRating s ev) in
  sess w = (Rating.dispatch processRating s ev).1 ∧
  issued w = (Rating.dispatch processRating s ev).2 ∧
  pending w = [].
Proof.
  unfold eager, run_world, start. simpl foldl.
  destruct ev as [r u|c].
  - destruct (RatingRuns.emoji_cases (emoji_name r)) as [[c Hc]|Hnone].
    + rewrite (deliver_vote c), (dispatch_vote _ c) by done.
      destruct (_ && _); [|done].
      rewrite on_collect_eq, handleRatingReaction_calls.
      unfold Rating.handleRatingReaction, listen.
      destruct (rate_each processRating r (humans r) (song s) _ _)
        as [[sg1 cs1] ps]. simpl.
      rewrite length_fmap.
      pose proof (settle_oldest_first r ps (set_song s sg1)
                    (prelude c r ++ cs1) 0) as H.
      unfold run_world in H. rewrite H. simpl.
      destruct (settle_all r sg1 ps) as [sg2 cs2]. simpl.
      by rewrite app_assoc.
    + by rewrite deliver_other, dispatch_other.
  - simpl. by destruct (bool_decide (c ∈ open s)).
Qed.

(** *** Re-renders happen at settlements *)

Lemma no_edits cs : count is_edit cs = 0%nat -> only_edits cs = [].
Proof. unfold count. apply nil_length_inv. Qed.

Lemma listen_shape c s r :
  listen processRating c s r =
    (set_song s
       (rate_each processRating r (humans r) (song s)
          (delta_of c) (ignoreCd_of c)).1.1,
     prelude c r ++ asked c r,
     (fun res => (r, res)) <$>
       (rate_each processRating r (humans r) (song s)
          (delta_of c) (ignoreCd_of c)).2).
Proof.
  unfold listen, asked.
  destruct (rate_each_calls processRating r (delta_of c) (ignoreCd_of c)
              (humans r) (song s)) as [Hcalls _].
  destruct (rate_each processRating r (humans r) (song s) _ _) as [[sg cs] ps].
  cbn [fst snd] in *. by subst cs.
Qed.

Lemma asked_tally c r :
  count is_scoring (asked c r) = List.length (humans r) ∧
  count is_edit (asked c r) = 0%nat ∧
  count (is_note_of msgType.FAIL) (asked c r) = 0%nat.
Proof.
  unfold asked. induction (humans r) as [|v us IH]; [done|].
  rewrite bind_cons, !count_app. destruct IH as (-> & -> & ->).
  by rewrite !count_cons.
Qed.

Lemma prelude_tally c r :
  count is_scoring (prelude c r) = 0%nat ∧
  count is_edit (prelude c r) = 0%nat ∧
  count (is_note_of msgType.FAIL) (prelude c r) = 0%nat.
Proof. destruct c; simpl; repeat split; done. Qed.

(** What a delivery comes to: nothing, the end of a collector, or the
    listener of the one collector that takes the reaction. *)
Lemma deliver_cases s ev :
  deliver processRating s ev = (s, [], []) ∨
  (∃ c, ev = CollectorEnd c ∧
        deliver processRating s ev = (close s c, [ReactionsRemoveAll], [])) ∨
  (∃ c r u, ev = ReactionAdd r u ∧ c ∈ open s ∧ filter_of c r u = true ∧
            deliver processRating s ev = listen processRating c s r).
Proof.
  destruct ev as [r u|c].
  - destruct (RatingRuns.emoji_cases (emoji_name r)) as [[c Hc]|Hnone].
    + rewrite (deliver_vote c) by done.
      destruct (bool_decide (c ∈ open s)) eqn:E1; [|by left].
      destruct (bot u) eqn:E2; [by left|]. right; right. exists c, r, u.
      apply bool_decide_eq_true in E1. repeat split; try done.
      unfold filter_of. by rewrite bool_decide_eq_true_2, E2.
    + left. by apply deliver_other.
  - simpl. destruct (bool_decide (c ∈ open s));
      [right; left; by exists c | by left].
Qed.

Lemma deliver_balance s ev :
  count is_scoring (deliver processRating s ev).1.2
    = List.length (deliver processRating s ev).2 ∧
  count is_edit (deliver processRating s ev).1.2 = 0%nat ∧
  count (is_note_of msgType.FAIL) (deliver processRating s ev).1.2 = 0%nat.
Proof.
  destruct (deliver_cases s ev)
    as [->|[(c & _ & ->)|(c & r & u & _ & _ & _ & ->)]]; [done|done|].
  rewrite listen_shape. cbn [fst snd]. rewrite !count_app, length_fmap.
  destruct (prelude_tally c r) as (-> & -> & ->).
  destruct (asked_tally c r) as (-> & -> & ->).
  by destruct (rate_each_calls processRating r (delta_of c) (ignoreCd_of c)
                 (humans r) (song s)) as [_ ->].
Qed.

Lemma settled_tally r sg res :
  count is_scoring (settled r sg res).2 = 0%nat ∧
  count is_edit (settled r sg res).2 = (if is_resolved res then 1 else 0)%nat ∧
  count (is_note_of msgType.FAIL) (settled r sg res).2
    = (if is_resolved res then 0 else 1)%nat.
Proof.
  destruct (settled_counts r sg res) as (A & _ & B & _).
  split; [|done].
  destruct res as [note|err]; [|done].
  rewrite SongFacts.settled_resolved. cbn [snd].
  destruct note as [text|]; [destruct (truthy (Some text))|]; done.
Qed.

(** One turn of the loop keeps the books: a scoring call is a promise
    pending, and a promise that settles is an edit or a failure note. *)
Lemma step_balance w st :
  (count is_scoring (issued (step_world processRating w st))
   + count is_edit (issued w)
   + count (is_note_of msgType.FAIL) (issued w)
   + List.length (pending w)
   = count is_scoring (issued w)
     + count is_edit (issued (step_world processRating w st))
     + count (is_note_of msgType.FAIL) (issued (step_world processRating w st))
     + List.length (pending (step_world processRating w st)))%nat.
Proof.
  destruct st as [ev|i|]; unfold step_world.
  - destruct (deliver_balance (sess w) ev) as (A & B & C).
    destruct (deliver processRating (sess w) ev) as [[s' cs] ps].
    cbn [fst snd issued pending] in *.
    rewrite !count_app, length_app. lia.
  - destruct (pending w !! i) as [[r res]|] eqn:E; [|lia].
    destruct (settled_tally r (song (sess w)) res) as (A & B & C).
    destruct (settled r (song (sess w)) res) as [sg cs].
    cbn [fst snd issued pending] in *.
    rewrite !count_app, length_delete by eauto.
    apply lookup_lt_Some in E. destruct (is_resolved res); lia.
  - cbn [issued pending]. lia.
Qed.

Lemma run_balance steps : ∀ w,
  (count is_scoring (issued (run_world processRating w steps))
   + count is_edit (issued w)
   + count (is_note_of msgType.FAIL) (issued w)
   + List.length (pending w)
   = count is_scoring (issued w)
     + count is_edit (issued (run_world processRating w steps))
     + count (is_note_of msgType.FAIL) (issued (run_world processRating w steps))
     + List.length (pending (run_world processRating w steps)))%nat.
Proof.
  induction steps as [|st steps IH]; intros w; [unfold run_world; simpl; lia|].
  change (run_world processRating w (st :: steps)) with
    (run_world processRating (step_world processRating w st) steps).
  pose proof (IH (step_world processRating w st)).
  pose proof (step_balance w st). lia.
Qed.

(** The edits one turn adds: the embed of the song as it is, when the turn
    settles a promise that resolved, and nothing in every other turn. *)
Lemma step_edits w st :
  only_edits (issued (step_world processRating w st)) =
    only_edits (issued w) ++
    match st with
    | Settle i =>
        match pending w !! i with
        | Some (r, Resolved _) =>
            [MessageEdit (CEmbed (buildSongEmbed (song (sess w))).2)]
        | _ => []
        end
    | _ => []
    end.
Proof.
  destruct st as [ev|i|]; unfold step_world.
  - destruct (deliver_balance (sess w) ev) as (_ & B & _).
    destruct (deliver processRating (sess w) ev) as [[s' cs] ps].
    cbn [fst snd issued] in *. by rewrite filter_app, (no_edits _ B).
  - destruct (pending w !! i) as [[r [note|err]]|]; [| |by rewrite app_nil_r].
    + rewrite SongFacts.settled_resolved. cbn [issued].
      rewrite filter_app. f_equal.
      destruct note as [text|]; [destruct (truthy (Some text))|]; done.
    + cbn [settled issued]. by rewrite filter_app.
  - cbn [issued]. by rewrite app_nil_r.
Qed.

Lemma step_settle w i :
  song (sess (step_world processRating w (Settle i))) =
    match pending w !! i with
    | Some (r, Resolved _) => (buildSongEmbed (song (sess w))).1
    | _ => song (sess w)
    end ∧
  pending (step_world processRating w (Settle i)) =
    match pending w !! i with
    | Some _ => delete i (pending w)
    | None => pending w
    end.
Proof.
  unfold step_world.
  destruct (pending w !! i) as [[r [note|err]]|]; [|done..].
  by rewrite SongFacts.settled_resolved.
Qed.

Lemma run_edits_mono steps : ∀ w,
  (count is_edit (issued w)
   ≤ count is_edit (issued (run_world processRating w steps)))%nat.
Proof.
  induction steps as [|st steps IH]; intros w; [done|].
  change (run_world processRating w (st :: steps)) with
    (run_world processRating (step_world processRating w st) steps).
  etrans; [|apply IH]. unfold count. rewrite step_edits, length_app. lia.
Qed.

(** Once the deliveries are over, whatever the order in which the promises
    settle: either no edit is issued and the song is as it was, or the last
    edit issued shows the song as the deliveries left it. *)
Lemma settlements_render_song steps : ∀ w,
  deliveries steps = [] ->
  (only_edits (issued (run_world processRating w steps))
     = only_edits (issued w) ∧
   song (sess (run_world processRating w steps)) = song (sess w)) ∨
  (last (only_edits (issued (run_world processRating w steps)))
     = Some (MessageEdit (CEmbed (buildSongEmbed (song (sess w))).2)) ∧
   song (sess (run_world processRating w steps))
     = (buildSongEmbed (song (sess w))).1 ∧
   (count is_edit (issued w)
    < count is_edit (issued (run_world processRating w steps)))%nat).
Proof.
  induction steps as [|st steps IH]; intros w Hd; [by left|].
  change (run_world processRating w (st :: steps)) with
    (run_world processRating (step_world processRating w st) steps).
  destruct st as [ev|i|]; [discriminate Hd| |].
  - change (deliveries (Settle i :: steps)) with (deliveries steps) in Hd.
    pose proof (step_edits w (Settle i)) as He. cbv beta iota in He.
    destruct (step_settle w i) as [Hs _].
    specialize (IH (step_world processRating w (Settle i)) Hd).
    destruct (pending w !! i) as [[r [note|err]]|] eqn:E.
    + right. destruct IH as [[I1 I2]|(I1 & I2 & I3)].
      * rewrite I1, I2, He, Hs, last_snoc. repeat split.
        unfold count. rewrite I1, He, length_app. simpl. lia.
      * rewrite I1, I2, Hs, SongFacts.buildSongEmbed_twice. repeat split.
        unfold count in *. rewrite He, length_app in I3. lia.
    + rewrite app_nil_r in He. unfold count. by rewrite <- He, <- Hs.
    + rewrite app_nil_r in He. unfold count. by rewrite <- He, <- Hs.
  - change (deliveries (EditDone :: steps)) with (deliveries steps) in Hd.
    apply (IH (step_world processRating w EditDone) Hd).
Qed.

Lemma elem_of_delete_other {A} (l : list A) i x y :
  l !! i = Some y -> x ∈ l -> x ≠ y -> x ∈ delete i l.
Proof.
  intros Hi Hin Hne. rewrite delete_take_drop.
  rewrite <- (take_drop_middle l i y Hi) in Hin.
  apply elem_of_app in Hin as [Hin|Hin]; [apply elem_of_app; by left|].
  apply elem_of_cons in Hin as [->|Hin]; [done|].
  apply elem_of_app; by right.
Qed.

(** A promise that resolved and has settled was rendered. *)
Lemma settled_promise_rendered steps : ∀ w,
  deliveries steps = [] ->
  pending (run_world processRating w steps) = [] ->
  (∃ r note, (r, Resolved note) ∈ pending w) ->
  (count is_edit (issued w)
   < count is_edit (issued (run_world processRating w steps)))%nat.
Proof.
  induction steps as [|st steps IH]; intros w Hd Hp (r & note & Hin).
  - unfold run_world in Hp. simpl in Hp. rewrite Hp in Hin.
    by apply elem_of_nil in Hin.
  - change (run_world processRating w (st :: steps)) with
      (run_world processRating (step_world processRating w st) steps) in *.
    destruct st as [ev|i|]; [discriminate Hd| |].
    + change (deliveries (Settle i :: steps)) with (deliveries steps) in Hd.
      pose proof (step_edits w (Settle i)) as He. cbv beta iota in He.
      destruct (step_settle w i) as [_ Hq].
      pose proof (run_edits_mono steps (step_world processRating w (Settle i)))
        as Hmono.
      destruct (pending w !! i) as [[r' [note'|err]]|] eqn:E.
      * assert (Hc : count is_edit (issued (step_world processRating w (Settle i)))
                     = S (count is_edit (issued w))).
        { unfold count. rewrite He, length_app. simpl. lia. }
        lia.
      * assert (Hin' : (r, Resolved note)
                       ∈ pending (step_world processRating w (Settle i))).
        { rewrite Hq. by apply (elem_of_delete_other _ _ _ _ E). }
        pose proof (IH _ Hd Hp (ex_intro _ r (ex_intro _ note Hin'))) as I.
        rewrite app_nil_r in He. unfold count in *. by rewrite <- He.
      * assert (Hin' : (r, Resolved note)
                       ∈ pending (step_world processRating w (Settle i)))
          by (by rewrite Hq).
        pose proof (IH _ Hd Hp (ex_intro _ r (ex_intro _ note Hin'))) as I.
        rewrite app_nil_r in He. unfold count in *. by rewrite <- He.
    + change (deliveries (EditDone :: steps)) with (deliveries steps) in Hd.
      apply (IH (step_world processRating w EditDone) Hd Hp).
      by exists r, note.
Qed.

(** A delivery runs the listener to its end at once: the callback has
    changed the song, the reactions are taken back, the promises pend. *)
Lemma step_deliver_vote w c r u :
  c ∈ open (sess w) ->
  filter_of c r u = true ->
  step_world processRating w (Deliver (ReactionAdd r u)) =
    mkWorld
      (set_song (sess w)
         (rate_each processRating r (humans r) (song (sess w))
            (delta_of c) (ignoreCd_of c)).1.1)
      (pending w ++
       ((fun res => (r, res)) <$>
          (rate_each processRating r (humans r) (song (sess w))
             (delta_of c) (ignoreCd_of c)).2))
      (issued w ++ prelude c r ++ asked c r)
      (in_flight w).
Proof.
  intros Hopen Hf. unfold filter_of in Hf.
  apply andb_true_iff in Hf as [He Hb]. apply bool_decide_eq_true in He.
  unfold step_world. rewrite (deliver_vote c) by done.
  rewrite (bool_decide_eq_true_2 (c ∈ open (sess w))), Hb by done.
  cbn [andb]. by rewrite listen_shape.
Qed.

(** *** The song of the loop and the song of one-at-a-time processing *)

(** Two songs are the same up to the dashes when [buildSongEmbed] leaves
    the same song from both; it then builds the same embed from both. *)
Lemma same_render sg1 sg2 :
  (buildSongEmbed sg1).1 = (buildSongEmbed sg2).1 ->
  (buildSongEmbed sg1).2 = (buildSongEmbed sg2).2.
Proof.
  intros H.
  change ((buildSongEmbed sg1).2) with
    (mkEmbed (Some 890629%Z)
       [ Field "Title" (get_field (buildSongEmbed sg1).1 "title") true;
         Field "Artist" (get_field (buildSongEmbed sg1).1 "artist") true;
         BlankField;
         Field "Requester" (get_field (buildSongEmbed sg1).1 "requester") true;
         Field "Rating" (get_field (buildSongEmbed sg1).1 "rating") true;
         Field "Source" (get_field (buildSongEmbed sg1).1 "src") true ]).
  by rewrite H.
Qed.

Hypothesis Hblind : dash_blind processRating.

Lemma callback_up_to_dashes sg1 sg2 u d cd :
  (buildSongEmbed sg1).1 = (buildSongEmbed sg2).1 ->
  (processRating sg1 u d cd).2 = (processRating sg2 u d cd).2 ∧
  (buildSongEmbed (processRating sg1 u d cd).1).1
    = (buildSongEmbed (processRating sg2 u d cd).1).1.
Proof.
  intros H.
  destruct (Hblind sg1 u d cd) as [A1 B1].
  destruct (Hblind sg2 u d cd) as [A2 B2].
  rewrite H in A1, B1. split; congruence.
Qed.

Lemma rate_each_up_to_dashes r d cd us : ∀ sg1 sg2,
  (buildSongEmbed sg1).1 = (buildSongEmbed sg2).1 ->
  (rate_each processRating r us sg1 d cd).2
    = (rate_each processRating r us sg2 d cd).2 ∧
  (buildSongEmbed (rate_each processRating r us sg1 d cd).1.1).1
    = (buildSongEmbed (rate_each processRating r us sg2 d cd).1.1).1.
Proof.
  induction us as [|v us IH]; intros sg1 sg2 H; [done|].
  cbn [Rating.rate_each].
  destruct (callback_up_to_dashes sg1 sg2 v d cd H) as [A B].
  destruct (processRating sg1 v d cd) as [sg1' res1].
  destruct (processRating sg2 v d cd) as [sg2' res2].
  cbn [fst snd] in A, B. subst res2.
  destruct (IH sg1' sg2' B) as [I1 I2].
  destruct (rate_each processRating r us sg1' d cd) as [[t1 cs1] ps1].
  destruct (rate_each processRating r us sg2' d cd) as [[t2 cs2] ps2].
  cbn [fst snd] in *. by subst ps2.
Qed.

Lemma settle_all_up_to_dashes r ps sg :
  (buildSongEmbed (settle_all r sg ps).1).1 = (buildSongEmbed sg).1.
Proof.
  destruct (SongFacts.settle_all_renders r ps sg) as (_ & _ & ->).
  destruct (decide _); [done|].
  exact (f_equal fst (SongFacts.buildSongEmbed_twice sg)).
Qed.

(** One delivery in the loop and the same event processed to its end. *)
Lemma deliver_up_to_dashes s1 s2 ev :
  (buildSongEmbed (song s1)).1 = (buildSongEmbed (song s2)).1 ->
  open s1 = open s2 ->
  (buildSongEmbed (song (deliver processRating s1 ev).1.1)).1
    = (buildSongEmbed (song (Rating.dispatch processRating s2 ev).1)).1 ∧
  open (deliver processRating s1 ev).1.1
    = open (Rating.dispatch processRating s2 ev).1.
Proof.
  intros Hs Ho. destruct ev as [r u|c].
  - destruct (RatingRuns.emoji_cases (emoji_name r)) as [[c Hc]|Hnone].
    + rewrite (deliver_vote c), (dispatch_vote _ c) by done. rewrite Ho.
      destruct (_ && _); [|done].
      rewrite listen_shape, on_collect_eq. cbn [fst snd song open set_song].
      split; [|done].
      unfold Rating.handleRatingReaction.
      destruct (rate_each_up_to_dashes r (delta_of c) (ignoreCd_of c)
                  (humans r) (song s1) (song s2) Hs) as [_ H2].
      destruct (rate_each processRating r (humans r) (song s2) _ _)
        as [[sg2 cs2] ps2].
      cbn [fst snd] in *.
      pose proof (settle_all_up_to_dashes r ps2 sg2) as H3.
      destruct (settle_all r sg2 ps2) as [sg3 cs3]. cbn [fst] in *.
      congruence.
    + by rewrite deliver_other, dispatch_other.
  - unfold deliver, Rating.dispatch. rewrite Ho.
    destruct (bool_decide (c ∈ open s2)); [|done].
    unfold on_end, close. cbn [fst snd song open].
    split; [exact Hs | by rewrite Ho].
Qed.

(** Whatever the schedule, the song of the loop is, up to the dashes, the
    song left by processing its deliveries one at a time in arrival order,
    and the same collectors are open. *)
Lemma run_world_up_to_dashes steps : ∀ w s,
  (buildSongEmbed (song (sess w))).1 = (buildSongEmbed (song s)).1 ->
  open (sess w) = open s ->
  (buildSongEmbed (song (sess (run_world processRating w steps)))).1
    = (buildSongEmbed
         (song (Rating.run processRating s (deliveries steps)).1)).1 ∧
  open (sess (run_world processRating w steps))
    = open (Rating.run processRating s (deliveries steps)).1.
Proof.
  induction steps as [|st steps IH]; intros w s Hs Ho; [done|].
  change (run_world processRating w (st :: steps)) with
    (run_world processRating (step_world processRating w st) steps).
  destruct st as [ev|i|].
  - change (deliveries (Deliver ev :: steps)) with (ev :: deliveries steps).
    rewrite RatingRuns.run_cons_session.
    destruct (deliver_up_to_dashes (sess w) s ev Hs Ho) as [A B].
    apply IH.
    + unfold step_world.
      by destruct (deliver processRating (sess w) ev) as [[s' cs] ps].
    + unfold step_world.
      by destruct (deliver processRating (sess w) ev) as [[s' cs] ps].
  - change (deliveries (Settle i :: steps)) with (deliveries steps).
    apply IH.
    + destruct (step_settle w i) as [-> _].
      destruct (pending w !! i) as [[r [note|err]]|]; [|done..].
      rewrite <- Hs.
      exact (f_equal fst (SongFacts.buildSongEmbed_twice (song (sess w)))).
    + unfold step_world.
      destruct (pending w !! i) as [[r res]|]; [|done].
      by destruct (settled r (song (sess w)) res).
  - change (deliveries (EditDone :: steps)) with (deliveries steps).
    by apply IH.
Qed.

End WithCallback.

End RatingOrder.

Section Ordering.

Variable processRating : Song -> user -> Z -> bool -> Song * Rating.rating_result.


End Ordering.

(** ** The claims at sample inputs *)

(** The sample callback does not look at the dashes. *)
Lemma add_rating_dash_blind : dash_blind Sample.add_rating.
Proof.
  intros sg u delta ignoreCd. unfold Sample.add_rating.
  rewrite (SongFacts.own_after sg "rating").
  destruct (own_fields sg !! "rating") as [v|] eqn:E.
  - assert (Hd : ∀ n, v = VNum n -> dash_if_empty v = VNum n).
    { intros n ->. done. }
    destruct v as [| |b|n|t]; cbn [dash_entry].
    1-3: by split; [|exact (f_equal fst (SongFacts.buildSongEmbed_twice sg))].
    + rewrite (Hd n eq_refl). split; [done|].
      apply SongFacts.song_eq; [|done]. apply map_eq. intros key.
      rewrite !SongFacts.own_after. cbn [fst own_fields proto_fields].
      change (proto_fields (buildSongEmbed sg).1) with (proto_fields sg).
      destruct (decide (key = "rating")) as [->|Hne].
      * by rewrite !lookup_insert_eq.
      * rewrite !lookup_insert_ne by done. rewrite SongFacts.own_after.
        destruct (own_fields sg !! key) as [x|]; cbn [dash_entry].
        -- by rewrite SongFacts.dash_twice.
        -- destruct (proto_fields sg !! key) as [x|]; [|done].
           destruct (decide (x = VStr "")); [reflexivity|].
           cbn [dash_entry]. by rewrite decide_False.
    + unfold dash_if_empty. destruct (decide (VStr t = VStr "")).
      * by split; [|exact (f_equal fst (SongFacts.buildSongEmbed_twice sg))].
      * by split; [|exact (f_equal fst (SongFacts.buildSongEmbed_twice sg))].
  - cbn [dash_entry]. destruct (proto_fields sg !! "rating") as [x|].
    + destruct (decide (x = VStr "")).
      * by split; [|exact (f_equal fst (SongFacts.buildSongEmbed_twice sg))].
      * by split; [|exact (f_equal fst (SongFacts.buildSongEmbed_twice sg))].
    + by split; [|exact (f_equal fst (SongFacts.buildSongEmbed_twice sg))].
Qed.

(** C1, as stated, fails: after a flag vote by alice on a fresh rating
    widget the session is not Closed and all three collectors are still
    open; and with a callback that resolves with a note, two music notes
    are sent, not one. *)
Lemma flag_vote_not_terminal :
  let flag := ReactionAdd (Sample.reaction_by Rating.POOP Sample.alice)
                Sample.alice in
  Rating.status_of (Rating.dispatch Sample.add_rating Sample.rating0 flag).1
    ≠ Rating.Closed ∧
  Rating.open (Rating.dispatch Sample.add_rating Sample.rating0 flag).1
    = [Rating.upReaction; Rating.downReaction; Rating.poopReaction] ∧
  count (is_note_of msgType.MUSIC)
        (Rating.dispatch Sample.chatty Sample.rating0 flag).2 = 2%nat.
Proof. vm_compute. repeat split. discriminate. Qed.


(** C4, as stated, fails on the empty list: the poster still requests one
    attach, of [undefined], which is no emoji of the list, and it rejects
    when the gateway refuses that attach. *)
Lemma postReactionEmojis_empty_list :
  begun (postReactionEmojis (fun _ _ => true) 0 []).1 = [None] ∧
  begun (postReactionEmojis (fun _ _ => true) 0 []).1 ≠ Some <$> [] ∧
  postReactionEmojis (fun _ e => bool_decide (e ≠ None)) 0 [] =
    ([AttachBegin None; AttachFail None], false).
Proof. repeat split. discriminate. Qed.

(** The amended C1 at alice's flag vote on a fresh widget. *)
Lemma flag_vote_keeps_session_open_witness :
  let r := Sample.reaction_by Rating.POOP Sample.alice in
  let out := Rating.dispatch Sample.add_rating Sample.rating0
               (ReactionAdd r Sample.alice) in
  (emoji_name r = Rating.POOP ∧ bot Sample.alice = false ∧
   Sample.alice ∈ users r ∧ Rating.poopReaction ∈ Rating.open Sample.rating0) ∧
  UsersRemove Rating.POOP Sample.alice ∈ out.2 ∧
  head out.2 = Some (SimpleNote (r_message r) Rating.cleanNote msgType.MUSIC) ∧
  Rating.open out.1 = Rating.open Sample.rating0 ∧
  Rating.status_of out.1 = Rating.Active.
Proof.
  assert (H1 : emoji_name (Sample.reaction_by Rating.POOP Sample.alice)
               = Rating.POOP) by reflexivity.
  assert (H2 : bot Sample.alice = false) by reflexivity.
  assert (H3 : Sample.alice ∈ users (Sample.reaction_by Rating.POOP Sample.alice))
    by (right; left).
  assert (H4 : Rating.poopReaction ∈ Rating.open Sample.rating0)
    by (right; right; left).
  destruct (flag_vote_keeps_session_open Sample.add_rating Sample.rating0
              (Sample.reaction_by Rating.POOP Sample.alice) Sample.alice
              H1 H2 H3 H4) as (A & _ & B & _ & _ & C & D).
  repeat split; assumption.
Defined.

(** C2 at three pages: alice goes forward three times, then back once. *)
Lemma paged_cursor_in_bounds_witness :
  let fwd := ReactionAdd (Sample.reaction_by Paged.FORWARD Sample.alice)
               Sample.alice in
  let rew := ReactionAdd (Sample.reaction_by Paged.REWIND Sample.alice)
               Sample.alice in
  let s := (Paged.run Sample.paged0 [fwd; fwd; fwd; rew]).1 in
  ((Paged.pagedContent Sample.gw_ok Sample.request Sample.three_pages).1
     = Some Sample.paged0 ∧ Sample.three_pages ≠ []) ∧
  (0 ≤ Z.of_nat (Paged.page s) ≤ Z.of_nat (List.length Sample.three_pages) - 1)%Z.
Proof.
  split; [split; [reflexivity | discriminate]|].
  apply (paged_cursor_in_bounds Sample.gw_ok Sample.request Sample.three_pages
           Sample.paged0
           (Paged.pagedContent Sample.gw_ok Sample.request Sample.three_pages).2);
    [reflexivity | discriminate].
Defined.

(** The amended C4 at the two navigation emojis. *)
Lemma postReactionEmojis_in_order_witness :
  let out := postReactionEmojis (fun _ _ => true) 0 [Paged.REWIND; Paged.FORWARD] in
  [Paged.REWIND; Paged.FORWARD] ≠ [] ∧
  strictly_sequenced out.1 = true ∧
  (out.2 = true ->
   begun out.1 = Some <$> [Paged.REWIND; Paged.FORWARD] ∧
   acked out.1 = Some <$> [Paged.REWIND; Paged.FORWARD]).
Proof.
  assert (H : [Paged.REWIND; Paged.FORWARD] ≠ []) by discriminate.
  destruct (postReactionEmojis_in_order (fun _ _ => true) 0
              [Paged.REWIND; Paged.FORWARD] H) as (A & B & _).
  repeat split; try assumption; apply B; assumption.
Defined.

(** C5 on a fresh widget: the bot's own reaction, then alice's up vote. *)
Lemma rating_only_human_votes_witness :
  let evs := [ReactionAdd (Sample.reaction_by Rating.UP Sample.robot) Sample.robot;
              ReactionAdd (Sample.reaction_by Rating.UP Sample.alice) Sample.alice] in
  ProcessRating Sample.alice 1 false
    ∈ (Rating.run Sample.add_rating Sample.rating0 evs).2 ∧
  bot Sample.alice = false ∧ (1 = 1 ∨ 1 = -1 ∨ 1 = -1000)%Z.
Proof.
  assert (H : ProcessRating Sample.alice 1 false
    ∈ (Rating.run Sample.add_rating Sample.rating0
         [ReactionAdd (Sample.reaction_by Rating.UP Sample.robot) Sample.robot;
          ReactionAdd (Sample.reaction_by Rating.UP Sample.alice) Sample.alice]).2)
    by (vm_compute; right; left).
  split; [exact H|].
  exact (proj1 (proj2 (rating_only_human_votes Sample.add_rating
                         Sample.rating0 _))
           Sample.alice 1%Z false H).
Defined.

(** C6 at bob's forward reaction on alice's widget. *)
Lemma paged_navigation_owner_only_witness :
  let r := Sample.reaction_by Paged.FORWARD Sample.bob in
  id Sample.bob ≠ id (author (Paged.msg Sample.paged0)) ∧
  Paged.dispatch Sample.paged0 (ReactionAdd r Sample.bob) = (Sample.paged0, []).
Proof.
  assert (H : id Sample.bob ≠ id (author (Paged.msg Sample.paged0)))
    by discriminate.
  split; [exact H|].
  exact (proj1 (paged_navigation_owner_only Sample.paged0
                  (Sample.reaction_by Paged.FORWARD Sample.bob) Sample.bob) H).
Defined.



(** C8 at a message whose channel is gone. *)
Lemma unavailable_channel_is_noop_witness :
  channel Sample.stale = None ∧
  simpleNote Sample.stale "hello" msgType.INFO = (Stub, [ConsoleLog (LText "hello")]) ∧
  gateway_calls (Paged.pagedContent Sample.gw_ok Sample.stale Sample.three_pages).2 = [] ∧
  gateway_calls (Rating.displaySong Sample.gw_ok Sample.stale Sample.a_song).2 = [].
Proof.
  assert (H : channel Sample.stale = None) by reflexivity.
  destruct (unavailable_channel_is_noop Sample.gw_ok Sample.stale "hello"
              msgType.INFO (CText "hello") Sample.three_pages Sample.a_song H)
    as (A & _ & _ & _ & _ & _ & _ & B & C).
  repeat split; assumption.
Defined.

(** C9 at a paged widget whose two timers run out one after the other. *)
Lemma teardown_twice_as_once_witness :
  let v := mkView (CText "page one")
             {[ Paged.REWIND := {["9000"]}; Paged.FORWARD := {["9000"]} ]} in
  let once := Paged.dispatch Sample.paged0 (CollectorEnd Paged.nextReaction) in
  let twice := Paged.dispatch once.1 (CollectorEnd Paged.backReaction) in
  Paged.nextReaction ∈ Paged.open Sample.paged0 ∧
  twice.2 = [ReactionsRemoveAll] ∧
  apply_calls "9000" v (once.2 ++ twice.2) = apply_calls "9000" v once.2.
Proof.
  assert (H : Paged.nextReaction ∈ Paged.open Sample.paged0) by left.
  split; [exact H|]. split; [reflexivity|].
  exact (proj2 (proj2 (proj2 (proj2 (proj2
    (proj1 (teardown_twice_as_once Sample.add_rating "9000"
              (mkView (CText "page one")
                 {[ Paged.REWIND := {["9000"]}; Paged.FORWARD := {["9000"]} ]}))
       Sample.paged0 Paged.nextReaction Paged.backReaction H)))))).
Defined.

(** C10 at a song that inherits an empty artist: the embed shows "-". *)
Lemma buildSongEmbed_overwrites_empty_fields_witness :
  fields (buildSongEmbed Sample.heir_song).2 =
    [ Field "Title" (VStr "A") true; Field "Artist" (VStr "-") true;
      BlankField; Field "Requester" VUndefined true;
      Field "Rating" (VNum 0) true; Field "Source" VUndefined true ].
Proof.
  exact (proj1 (proj2 (proj2
    (buildSongEmbed_overwrites_empty_fields Sample.add_rating
       Sample.heir_song)))).
Defined.

(** C2, where the original wording fails.  On an empty list of pages
    [pagedContent] still brings the widget up, with the cursor at 0 and no
    page to point at, so the cursor is outside [0, len(pages) - 1].  And a
    forward reaction by the owner at the last of three pages, reached by
    going forward twice, is not without effect on the message: the owner's
    reaction is removed from it, so the icons the gateway shows change. *)
Lemma paged_boundary_touches_message :
  (∃ s0 cs0,
      Paged.pagedContent Sample.gw_ok Sample.request [] = (Some s0, cs0) ∧
      Paged.page s0 = 0%nat ∧
      ¬ (0 ≤ Z.of_nat (Paged.page s0)
           ≤ Z.of_nat (List.length (Paged.pages s0)) - 1)%Z) ∧
  (Paged.run Sample.paged0
     [ReactionAdd (Sample.reaction_by Paged.FORWARD Sample.alice) Sample.alice;
      ReactionAdd (Sample.reaction_by Paged.FORWARD Sample.alice) Sample.alice]).1
    = Paged.set_page Sample.paged0 2 ∧
  (Paged.page (Paged.set_page Sample.paged0 2) + 1
     >= List.length (Paged.pages (Paged.set_page Sample.paged0 2)))%nat ∧
  (Paged.dispatch (Paged.set_page Sample.paged0 2)
     (ReactionAdd (Sample.reaction_by Paged.FORWARD Sample.alice)
        Sample.alice)).2
    = [UsersRemove Paged.FORWARD Sample.alice] ∧
  icons (apply_calls "9000"
           (mkView (CText "page three")
              {[ Paged.FORWARD := {[ "9000"; "1001" ]} ]})
           [UsersRemove Paged.FORWARD Sample.alice]) !! Paged.FORWARD
    ≠ Some {[ "9000"; "1001" ]}.
Proof.
  split; [|split; [reflexivity|split; [|split]]].
  - eexists _, _. split; [reflexivity|]. split; [reflexivity|].
    simpl. lia.
  - simpl. lia.
  - reflexivity.
  - unfold apply_calls. cbn [foldl apply_call icons shown id Sample.alice].
    rewrite lookup_insert_eq, lookup_singleton_eq. cbn [default].
    intros [= H].
Qed.

(** C10, where the original wording fails: a song that has no artist field
    of its own and inherits an empty one.  The song has no own field
    holding the empty string, yet the call changes it: it gains an own
    artist field holding "-", while the inherited one stays empty. *)
Lemma buildSongEmbed_adds_inherited_field :
  (∀ key, own_fields Sample.heir_song !! key ≠ Some (VStr "")) ∧
  own_fields Sample.heir_song !! "artist" = None ∧
  own_fields (buildSongEmbed Sample.heir_song).1 !! "artist"
    = Some (VStr "-") ∧
  proto_fields (buildSongEmbed Sample.heir_song).1 !! "artist"
    = Some (VStr "") ∧
  get_field Sample.heir_song "artist" = VStr "" ∧
  get_field (buildSongEmbed Sample.heir_song).1 "artist" = VStr "-" ∧
  (buildSongEmbed Sample.heir_song).1 ≠ Sample.heir_song.
Proof.
  split; [|do 5 (split; [reflexivity|])].
  - intros key. unfold Sample.heir_song. cbn [own_fields].
    destruct (decide (key = "title")) as [->|Ht]; [done|].
    destruct (decide (key = "rating")) as [->|Hr]; [done|].
    by rewrite lookup_insert_ne, lookup_singleton_ne.
  - intros H. apply (f_equal (fun o => own_fields o !! "artist")) in H.
    discriminate H.
Qed.

(** ** Walk-throughs *)

(** The end-to-end run of section 8 of the spec: alice votes up, then
    down, then bob flags.  The rating goes 1, 0, -1000 with one re-render
    each, the flag sends its note, and all three collectors are still
    open afterwards. *)
Example rating_walk_through :
  let up := ReactionAdd (Sample.reaction_by Rating.UP Sample.alice) Sample.alice in
  let down := ReactionAdd (Sample.reaction_by Rating.DOWN Sample.alice) Sample.alice in
  let flag := ReactionAdd (Sample.reaction_by Rating.POOP Sample.bob) Sample.bob in
  let after evs := Rating.run Sample.add_rating Sample.rating0 evs in
  get_field (Rating.song (after [up]).1) "rating" = VNum 1 ∧
  count is_edit (after [up]).2 = 1%nat ∧
  get_field (Rating.song (after [up; down]).1) "rating" = VNum 0 ∧
  count is_edit (after [up; down]).2 = 2%nat ∧
  get_field (Rating.song (after [up; down; flag]).1) "rating" = VNum (-1000) ∧
  count (is_note_of msgType.MUSIC) (after [up; down; flag]).2 = 1%nat ∧
  Rating.open (after [up; down; flag]).1 =
    [Rating.upReaction; Rating.downReaction; Rating.poopReaction].
Proof. vm_compute. repeat split. Qed.

(** Two up votes by alice that arrive before either promise settles, the
    promises then settling youngest first: both deltas are in the song at
    once, no edit is issued before a settlement, and each of the two edits
    shows the rating 2. *)
Example rating_loop_walk_through :
  let up := ReactionAdd (Sample.reaction_by Rating.UP Sample.alice) Sample.alice in
  let after steps :=
    RatingLoop.run_world Sample.add_rating
      (RatingLoop.start Sample.rating0) steps in
  let arrived := [RatingLoop.Deliver up; RatingLoop.Deliver up] in
  let rated_two :=
    mkEmbed (Some 890629%Z)
      [ Field "Title" (VStr "A") true; Field "Artist" (VStr "-") true;
        BlankField; Field "Requester" VUndefined true;
        Field "Rating" (VNum 2) true; Field "Source" VUndefined true ] in
  get_field (Rating.song (RatingLoop.sess (after arrived))) "rating" = VNum 2 ∧
  count is_edit (RatingLoop.issued (after arrived)) = 0%nat ∧
  filter (fun c => is_edit c = true)
         (RatingLoop.issued
            (after (arrived ++ [RatingLoop.Settle 1; RatingLoop.Settle 0])))
    = [MessageEdit (CEmbed rated_two); MessageEdit (CEmbed rated_two)] ∧
  RatingLoop.pending
    (after (arrived ++ [RatingLoop.Settle 1; RatingLoop.Settle 0])) = [].
Proof. vm_compute. repeat split. Qed.

(** Three pages, the owner going forward three times and back once: the
    third forward is taken back without an edit. *)
Example paged_walk_through :
  let fwd := ReactionAdd (Sample.reaction_by Paged.FORWARD Sample.alice)
               Sample.alice in
  let rew := ReactionAdd (Sample.reaction_by Paged.REWIND Sample.alice)
               Sample.alice in
  (Paged.run Sample.paged0 [fwd; fwd; fwd; rew]).2 =
    [UsersRemove Paged.FORWARD Sample.alice; MessageEdit (CText "page two");
     UsersRemove Paged.FORWARD Sample.alice; MessageEdit (CText "page three");
     UsersRemove Paged.FORWARD Sample.alice;
     UsersRemove Paged.REWIND Sample.alice; MessageEdit (CText "page two")].
Proof. reflexivity. Qed.

(** A two-line failure note: one send per line, each with the glyph. *)
Example two_line_note :
  simpleNote Sample.request (String "a" (String "010" (String "b" EmptyString)))
    msgType.FAIL =
  (SendPromise (CText ":x: | b"),
   [ConsoleLog (LText (String "a" (String "010" (String "b" EmptyString))));
    ChannelSend (CText ":x: | a"); ChannelSend (CText ":x: | b")]).
Proof. reflexivity. Qed.

(** Setting up the rating widget: the embed, then the three emojis in
    order. *)
Example displaySong_calls :
  gateway_calls (Rating.displaySong Sample.gw_ok Sample.request Sample.a_song).2 =
    [ChannelSend (CEmbed (buildSongEmbed Sample.a_song).2);
     MessageReact (Some Rating.UP); MessageReact (Some Rating.DOWN);
     MessageReact (Some Rating.POOP)].
Proof. reflexivity. Qed.

(** * Further properties *)

(** ** Notes and plain sends *)

Module NoteFacts.

Lemma split_lines_nonempty s : split_lines s ≠ [].
Proof.
  destruct s as [|c rest]; simpl; [done|].
  destruct (Ascii.eqb c "010"); [done|].
  by destruct (split_lines rest).
Qed.

Lemma split_lines_length s : List.length (split_lines s) = S (newlines s).
Proof.
  induction s as [|c rest IH]; simpl; [done|].
  destruct (Ascii.eqb c "010"); simpl; [by rewrite IH|].
  pose proof (split_lines_nonempty rest) as Hne.
  destruct (split_lines rest) as [|l ls]; [done|]. simpl in *. done.
Qed.

Lemma split_lines_join s : join_lines (split_lines s) = s.
Proof.
  induction s as [|c rest IH]; simpl; [done|].
  pose proof (split_lines_nonempty rest) as Hne.
  destruct (Ascii.eqb_spec c "010") as [->|Hc].
  - change (join_lines (EmptyString :: split_lines rest))
      with (match split_lines rest with
            | [] => EmptyString
            | _ :: _ => EmptyString +:+ String "010" (join_lines (split_lines rest))
            end).
    destruct (split_lines rest) as [|l ls]; [done|]. by rewrite IH.
  - destruct (split_lines rest) as [|l ls]; [done|].
    destruct ls as [|l' ls']; simpl in *; by rewrite <- IH.
Qed.

Lemma split_lines_no_break s :
  Forall (fun l => newlines l = 0%nat) (split_lines s).
Proof.
  induction s as [|c rest IH]; simpl; [by repeat constructor|].
  destruct (Ascii.eqb c "010") eqn:E; [by constructor|].
  destruct (split_lines rest) as [|l ls]; [by repeat constructor; simpl; rewrite E|].
  inversion IH as [|? ? Hl Hls]; subst. constructor; [|done].
  simpl. by rewrite E.
Qed.

Lemma split_lines_single s : newlines s = 0%nat -> split_lines s = [s].
Proof.
  induction s as [|c rest IH]; simpl; [done|].
  destruct (Ascii.eqb c "010"); [done|]. simpl. intros H.
  by rewrite IH.
Qed.

Lemma sends_reach_gateway (f : string -> content) (ls : list string) :
  filter (fun c => is_gateway c = true)
         (((fun l => ChannelSend (f l)) <$> ls) ≫= expand)
  = (fun l => ChannelSend (f l)) <$> ls.
Proof.
  induction ls as [|l ls IH]; [done|].
  change (filter (fun c => is_gateway c = true)
            (ChannelSend (f l) ::
             (((fun l => ChannelSend (f l)) <$> ls) ≫= expand)) =
          ChannelSend (f l) :: ((fun l => ChannelSend (f l)) <$> ls)).
  rewrite filter_cons. simpl. by rewrite IH.
Qed.

Lemma simpleNote_gateway m ch text type :
  channel m = Some ch ->
  gateway_calls (simpleNote m text type).2 =
    (fun l => ChannelSend (CText (note_line type l))) <$> split_lines text.
Proof.
  intros Hc. unfold simpleNote, gateway_calls. rewrite Hc. cbn [snd].
  change ((debugPrint (LText text) ++
           ((fun l => ChannelSend (CText l)) <$> (note_line type <$> split_lines text))) ≫= expand)
    with (ConsoleLog (LText text) ::
          (((fun l => ChannelSend (CText l)) <$> (note_line type <$> split_lines text)) ≫= expand)).
  rewrite filter_cons. simpl.
  rewrite (sends_reach_gateway CText). by rewrite <- list_fmap_compose.
Qed.

Lemma last_send_result (ls : list string) :
  foldl (fun _ l => SendPromise (CText l)) Stub ls =
    match last ls with
    | Some l => SendPromise (CText l)
    | None => Stub
    end.
Proof.
  induction ls as [|l ls _] using rev_ind; [done|].
  by rewrite foldl_app, last_snoc.
Qed.

End NoteFacts.

Section NoteProperties.
Import NoteFacts.

(** X1: with a channel, [simpleNote] sends one message per line of the
    text, in order and each with the glyph of the type: one more message
    than the text has line breaks, so at least one, even for the empty
    text.  What it returns is the promise of the send of the last line. *)
Theorem simpleNote_one_send_per_line (m : message) (ch text type : string) :
  channel m = Some ch ->
  let out := simpleNote m text type in
  gateway_calls out.2 =
    (fun l => ChannelSend (CText (note_line type l))) <$> split_lines text ∧
  List.length (gateway_calls out.2) = S (newlines text) ∧
  ∃ l, last (split_lines text) = Some l ∧
       out.1 = SendPromise (CText (note_line type l)).
Proof.
  intros Hc out. unfold out. rewrite (simpleNote_gateway m ch) by done.
  split; [done|]. split; [by rewrite length_fmap, split_lines_length|].
  unfold simpleNote. rewrite Hc. simpl. rewrite last_send_result.
  rewrite fmap_last.
  destruct (last (split_lines text)) as [l|] eqn:E.
  - by exists l.
  - apply last_None in E. by apply split_lines_nonempty in E.
Qed.

(** X2: nothing of the text is lost or merged: the lines a note sends
    hold no line break, and joined again with line breaks they are the
    text. *)
Theorem simpleNote_loses_no_text (m : message) (ch text type : string) :
  channel m = Some ch ->
  ∃ lines,
    gateway_calls (simpleNote m text type).2 =
      (fun l => ChannelSend (CText (note_line type l))) <$> lines ∧
    join_lines lines = text ∧
    Forall (fun l => newlines l = 0%nat) lines.
Proof.
  intros Hc. exists (split_lines text).
  split; [by apply (simpleNote_gateway m ch)|].
  split; [apply split_lines_join | apply split_lines_no_break].
Qed.

(** X3: a note of a type that is none of the four of [msgType], with a
    text of one line, is a plain [send] of the text: same promise, same
    call at the gateway, with or without a channel. *)
Theorem simpleNote_unknown_type_is_send (m : message) (text type : string) :
  type ∉ [msgType.INFO; msgType.MUSIC; msgType.SEARCH; msgType.FAIL] ->
  newlines text = 0%nat ->
  (simpleNote m text type).1 = (send m (CText text)).1 ∧
  gateway_calls (simpleNote m text type).2 =
    gateway_calls (send m (CText text)).2.
Proof.
  intros Ht Hn.
  assert (Hline : note_line type text = text).
  { unfold note_line.
    rewrite !bool_decide_eq_false_2; [done|..]; intros ->; apply Ht;
      repeat (first [left | right]). }
  unfold simpleNote, send, gateway_calls.
  destruct (channel m); [|done].
  rewrite (split_lines_single text Hn). simpl. by rewrite Hline.
Qed.

End NoteProperties.

(** ** The song embed *)

Section EmbedProperties.

(** X4: rendering a song a second time changes nothing more: the song
    left by [buildSongEmbed] is a fixed point of it, and the second embed
    is the first. *)
Theorem buildSongEmbed_idempotent (sg : Song) :
  buildSongEmbed (buildSongEmbed sg).1 = buildSongEmbed sg.
Proof. apply SongFacts.buildSongEmbed_twice. Qed.

(** X5: after [buildSongEmbed] no field of the song reads as the empty
    string, whether the song owns it or inherits it, and no own field
    holds the empty string; no field of the embed carries the empty
    string as its value; a field the song neither owns nor inherits is
    shown as [undefined] and is not added to the song. *)
Theorem buildSongEmbed_no_empty_value (sg : Song) :
  (∀ key, read_field (buildSongEmbed sg).1 key ≠ Some (VStr "")) ∧
  (∀ key, own_fields (buildSongEmbed sg).1 !! key ≠ Some (VStr "")) ∧
  (∀ name v inline,
      Field name v inline ∈ fields (buildSongEmbed sg).2 -> v ≠ VStr "") ∧
  (∀ key, read_field sg key = None ->
      own_fields (buildSongEmbed sg).1 !! key = None ∧
      get_field (buildSongEmbed sg).1 key = VUndefined).
Proof.
  split; [|split; [|split]].
  - intros key. rewrite SongFacts.read_after.
    destruct (read_field sg key) as [v|]; simpl; [|done].
    intros [= H]. by apply SongFacts.dash_not_empty in H.
  - intros key. rewrite SongFacts.own_after. unfold dash_entry.
    destruct (own_fields sg !! key) as [v|].
    + intros [= H]. by apply SongFacts.dash_not_empty in H.
    + destruct (proto_fields sg !! key) as [v|]; [|done].
      by destruct (decide (v = VStr "")).
  - intros name v inline Hin.
    unfold buildSongEmbed in Hin. cbn [snd fields] in Hin.
    repeat (apply elem_of_cons in Hin as [Hin|Hin];
            [ first [ injection Hin as _ -> _;
                      rewrite (SongFacts.get_after sg);
                      apply SongFacts.dash_not_empty
                    | discriminate Hin ] | ]).
    by apply elem_of_nil in Hin.
  - intros key Hk. split.
    + rewrite SongFacts.own_after. unfold read_field in Hk.
      destruct (own_fields sg !! key); [done|].
      by destruct (proto_fields sg !! key).
    + unfold get_field. by rewrite SongFacts.read_after, Hk.
Qed.

End EmbedProperties.

(** ** The reaction poster and the caller's array *)

Section PosterProperties.
Variable react : nat -> option string -> bool.

Lemma begun_cons_begin e t : begun (AttachBegin e :: t) = e :: begun t.
Proof. done. Qed.

Lemma begun_cons_ack e t : begun (AttachAck e :: t) = begun t.
Proof. done. Qed.

Lemma acked_cons_ack e t : acked (AttachAck e :: t) = e :: acked t.
Proof. done. Qed.

Lemma acked_cons_begin e t : acked (AttachBegin e :: t) = acked t.
Proof. done. Qed.

Lemma failed_cons_other e t :
  failed (AttachBegin e :: t) = failed t ∧ failed (AttachAck e :: t) = failed t.
Proof. done. Qed.

Lemma postReactionEmojis_step n e e' rest :
  postReactionEmojis react n (e :: e' :: rest) =
    if react n (Some e) then
      let '(t, r) := postReactionEmojis react (S n) (e' :: rest) in
      (AttachBegin (Some e) :: AttachAck (Some e) :: t, r)
    else ([AttachBegin (Some e); AttachFail (Some e)], false).
Proof. done. Qed.

Lemma emojiList_after_step n e e' rest :
  emojiList_after react n (e :: e' :: rest) =
    if react n (Some e) then emojiList_after react (S n) (e' :: rest)
    else e' :: rest.
Proof. done. Qed.

(** X6: [postReactionEmojis] uses up the array it is given.  When its
    promise settles the caller's array holds exactly the emojis that were
    never requested: nothing when the promise resolves, and the emojis
    after the failed one when it rejects. *)
Theorem postReactionEmojis_consumes_list (n : nat) (l : list string) :
  let out := postReactionEmojis react n l in
  emojiList_after react n l = drop (List.length (begun out.1)) l ∧
  (out.2 = true -> emojiList_after react n l = []) ∧
  Some <$> (take (List.length (begun out.1)) l ++ emojiList_after react n l)
    = Some <$> l.
Proof.
  assert (H : ∀ l n,
    emojiList_after react n l =
      drop (List.length (begun (postReactionEmojis react n l).1)) l ∧
    ((postReactionEmojis react n l).2 = true -> emojiList_after react n l = [])).
  { clear. induction l as [|e rest IH]; intros n.
    - simpl. by destruct (react n None).
    - destruct rest as [|e' rest'].
      + simpl. by destruct (react n (Some e)).
      + rewrite postReactionEmojis_step, emojiList_after_step.
        destruct (react n (Some e)); [|done].
        destruct (IH (S n)) as [I1 I2].
        destruct (postReactionEmojis react (S n) (e' :: rest')) as [t r].
        cbn [fst snd] in *.
        rewrite begun_cons_begin, begun_cons_ack. done. }
  intros out. destruct (H l n) as [H1 H2].
  split; [done|]. split; [done|]. by rewrite H1, take_drop.
Qed.

(** X7: whatever the list and the gateway do, the poster requests at most
    one attach per emoji (one attach for the empty list), at most one of
    its attaches fails, and every attach before a failed one was
    acknowledged. *)
Theorem postReactionEmojis_attach_bounds (n : nat) (l : list string) :
  let out := postReactionEmojis react n l in
  (1 <= List.length (begun out.1) <= Nat.max 1 (List.length l))%nat ∧
  List.length (failed out.1) = (if out.2 then 0 else 1)%nat ∧
  begun out.1 = acked out.1 ++ failed out.1.
Proof.
  revert n. induction l as [|e rest IH]; intros n.
  - simpl. destruct (react n None); simpl; repeat split; lia.
  - destruct rest as [|e' rest'].
    + simpl. destruct (react n (Some e)); simpl; repeat split; lia.
    + rewrite postReactionEmojis_step.
      destruct (react n (Some e)); [|simpl; repeat split; lia].
      specialize (IH (S n)).
      destruct (postReactionEmojis react (S n) (e' :: rest')) as [t r].
      cbn [fst snd] in *. destruct IH as ([I1 I1'] & I2 & I3).
      rewrite begun_cons_begin, begun_cons_ack, acked_cons_begin,
        acked_cons_ack.
      destruct (failed_cons_other (Some e) (AttachAck (Some e) :: t)) as [-> _].
      destruct (failed_cons_other (Some e) t) as [_ ->].
      cbn [List.length] in *. split; [lia|]. split; [done|].
      by rewrite I3.
Qed.

End PosterProperties.

(** ** Setting a widget up *)

Section SetupProperties.

Lemma setup_calls_reach_gateway (x : logged) (c : content)
    (es : list (option string)) :
  gateway_calls (debugPrint x ++ ChannelSend c :: (MessageReact <$> es)) =
    ChannelSend c :: (MessageReact <$> es).
Proof.
  unfold gateway_calls.
  change ((debugPrint x ++ ChannelSend c :: (MessageReact <$> es)) ≫= expand)
    with (ConsoleLog x :: ChannelSend c :: ((MessageReact <$> es) ≫= expand)).
  rewrite !filter_cons. simpl. f_equal.
  induction es as [|e es IH]; [done|].
  change (((MessageReact <$> e :: es) ≫= expand))
    with (MessageReact e :: ((MessageReact <$> es) ≫= expand)).
  rewrite filter_cons. simpl. by rewrite IH.
Qed.

Lemma setup_calls_no_note (x : logged) (c : content)
    (es : list (option string)) :
  count is_note (debugPrint x ++ ChannelSend c :: (MessageReact <$> es)) = 0%nat.
Proof.
  change (debugPrint x ++ ChannelSend c :: (MessageReact <$> es))
    with (ConsoleLog x :: ChannelSend c :: (MessageReact <$> es)).
  rewrite !RatingFacts.count_cons. simpl.
  induction es as [|e es IH]; [done|].
  change (MessageReact <$> e :: es) with (MessageReact e :: (MessageReact <$> es)).
  by rewrite RatingFacts.count_cons.
Qed.

(** The attaches requested for the two navigation emojis, by cases on the
    gateway's answers. *)
Lemma post_two react (a b : string) :
  postReactionEmojis react 0 [a; b] =
    if react 0%nat (Some a) then
      if react 1%nat (Some b) then
        ([AttachBegin (Some a); AttachAck (Some a);
          AttachBegin (Some b); AttachAck (Some b)], true)
      else
        ([AttachBegin (Some a); AttachAck (Some a);
          AttachBegin (Some b); AttachFail (Some b)], false)
    else ([AttachBegin (Some a); AttachFail (Some a)], false).
Proof.
  simpl. destruct (react 0%nat (Some a)); [|done].
  by destruct (react 1%nat (Some b)).
Qed.

Lemma post_three react (a b c : string) :
  postReactionEmojis react 0 [a; b; c] =
    if react 0%nat (Some a) then
      if react 1%nat (Some b) then
        if react 2%nat (Some c) then
          ([AttachBegin (Some a); AttachAck (Some a);
            AttachBegin (Some b); AttachAck (Some b);
            AttachBegin (Some c); AttachAck (Some c)], true)
        else
          ([AttachBegin (Some a); AttachAck (Some a);
            AttachBegin (Some b); AttachAck (Some b);
            AttachBegin (Some c); AttachFail (Some c)], false)
      else
        ([AttachBegin (Some a); AttachAck (Some a);
          AttachBegin (Some b); AttachFail (Some b)], false)
    else ([AttachBegin (Some a); AttachFail (Some a)], false).
Proof.
  simpl. destruct (react 0%nat (Some a)); [|done].
  destruct (react 1%nat (Some b)); [|done].
  by destruct (react 2%nat (Some c)).
Qed.

(** X8: with a channel, [pagedContent] sends the first page, then attaches
    the rewind and the forward emoji, and stops at the first of these that
    the gateway refuses: the send is always requested, the rewind attach
    is requested when the send is accepted, and the forward attach when
    the rewind attach is accepted too.  The widget comes up exactly when all three
    succeed, and then starts on page 0 of the caller's pages with both
    collectors open, on the message the gateway created; when it does not
    come up nothing else is done, and in particular no note is sent. *)
Theorem pagedContent_setup (gw : gateway) (m : message) (ch : string)
    (ps : list content) :
  channel m = Some ch ->
  let first := page_at ps 0 in
  let out := Paged.pagedContent gw m ps in
  (is_Some out.1 ↔
     is_Some (send_reply gw first) ∧
     react_reply gw 0 (Some Paged.REWIND) = true ∧
     react_reply gw 1 (Some Paged.FORWARD) = true) ∧
  (∀ s, out.1 = Some s ->
     Paged.page s = 0%nat ∧ Paged.pages s = ps ∧ Paged.msg s = m ∧
     send_reply gw first = Some (Paged.curPage s) ∧
     Paged.open s = [Paged.nextReaction; Paged.backReaction]) ∧
  gateway_calls out.2 `prefix_of`
    [ChannelSend first; MessageReact (Some Paged.REWIND);
     MessageReact (Some Paged.FORWARD)] ∧
  gateway_calls out.2 =
    ChannelSend first ::
    match send_reply gw first with
    | None => []
    | Some _ =>
        MessageReact (Some Paged.REWIND) ::
        (if react_reply gw 0 (Some Paged.REWIND)
         then [MessageReact (Some Paged.FORWARD)] else [])
    end ∧
  head (gateway_calls out.2) = Some (ChannelSend first) ∧
  (send_reply gw first = None -> gateway_calls out.2 = [ChannelSend first]) ∧
  (react_reply gw 0 (Some Paged.REWIND) = false ->
     MessageReact (Some Paged.FORWARD) ∉ out.2) ∧
  count is_note out.2 = 0%nat.
Proof.
  intros Hc first out. unfold out, Paged.pagedContent. rewrite Hc.
  fold first. rewrite post_two.
  destruct (send_reply gw first) as [cur|] eqn:Es;
    [destruct (react_reply gw 0 (Some Paged.REWIND)) eqn:E0;
     [destruct (react_reply gw 1 (Some Paged.FORWARD)) eqn:E1|]|];
    cbn [fst snd];
    rewrite ?setup_calls_reach_gateway, ?setup_calls_no_note,
      ?(setup_calls_reach_gateway _ _ []), ?(setup_calls_no_note _ _ []).
  all: split;
    [split;
     [intros [x Hx]; first [discriminate Hx | by eauto]
     |intros (Hs & H0 & H1);
      first [discriminate H0 | discriminate H1
            | (destruct Hs as [? Hs]; discriminate Hs) | by eauto]]|].
  all: split;
    [intros s Hs; first [discriminate Hs | (injection Hs as <-; by repeat split)]|].
  all: split; [by eexists|].
  all: split; [reflexivity|].
  all: split; [reflexivity|].
  all: split; [intros Hn; first [discriminate Hn | reflexivity]|].
  all: split; [|reflexivity].
  all: intros Hf; try discriminate Hf.
  all: intros Hin; cbn in Hin.
  all: repeat (apply elem_of_cons in Hin as [Hin|Hin];
               [try discriminate Hin; injection Hin as Hin;
                by apply PagedBoundary.forward_not_rewind|]).
  all: by apply elem_of_nil in Hin.
Qed.

(** X9: with a channel, [displaySong] writes the dashes into the song
    before anything is sent, so the caller's song is changed whether or not
    the gateway accepts anything; it then sends the embed and attaches the
    up, down and flag emojis in this order, stopping at the first refusal:
    the send is always requested, and each attach is requested exactly
    when everything before it was accepted.
    The widget comes up exactly when all four succeed, holding the changed
    song, with its three collectors open. *)
Theorem displaySong_setup (gw : gateway) (m : message) (ch : string)
    (sg : Song) :
  channel m = Some ch ->
  let shown_embed := CEmbed (buildSongEmbed sg).2 in
  let out := Rating.displaySong gw m sg in
  out.1.1 = (buildSongEmbed sg).1 ∧
  (is_Some out.1.2 ↔
     is_Some (send_reply gw shown_embed) ∧
     react_reply gw 0 (Some Rating.UP) = true ∧
     react_reply gw 1 (Some Rating.DOWN) = true ∧
     react_reply gw 2 (Some Rating.POOP) = true) ∧
  (∀ s, out.1.2 = Some s ->
     Rating.song s = (buildSongEmbed sg).1 ∧
     send_reply gw shown_embed = Some (Rating.songMsg s) ∧
     Rating.open s =
       [Rating.upReaction; Rating.downReaction; Rating.poopReaction]) ∧
  gateway_calls out.2 `prefix_of`
    [ChannelSend shown_embed; MessageReact (Some Rating.UP);
     MessageReact (Some Rating.DOWN); MessageReact (Some Rating.POOP)] ∧
  gateway_calls out.2 =
    ChannelSend shown_embed ::
    match send_reply gw shown_embed with
    | None => []
    | Some _ =>
        MessageReact (Some Rating.UP) ::
        (if react_reply gw 0 (Some Rating.UP) then
           MessageReact (Some Rating.DOWN) ::
           (if react_reply gw 1 (Some Rating.DOWN)
            then [MessageReact (Some Rating.POOP)] else [])
         else [])
    end ∧
  head (gateway_calls out.2) = Some (ChannelSend shown_embed) ∧
  count is_note out.2 = 0%nat.
Proof.
  intros Hc shown_embed out. unfold out, Rating.displaySong. rewrite Hc.
  change (buildSongEmbed sg)
    with ((buildSongEmbed sg).1, (buildSongEmbed sg).2).
  cbv beta iota. fold shown_embed. rewrite post_three.
  destruct (send_reply gw shown_embed) as [sm|] eqn:Es;
    [destruct (react_reply gw 0 (Some Rating.UP)) eqn:E0;
     [destruct (react_reply gw 1 (Some Rating.DOWN)) eqn:E1;
      [destruct (react_reply gw 2 (Some Rating.POOP)) eqn:E2|]|]|];
    cbn [fst snd];
    rewrite ?setup_calls_reach_gateway, ?setup_calls_no_note,
      ?(setup_calls_reach_gateway _ _ []), ?(setup_calls_no_note _ _ []).
  all: split; [reflexivity|].
  all: split;
    [split;
     [intros [x Hx]; first [discriminate Hx | by eauto]
     |intros (Hs & H0 & H1 & H2);
      first [discriminate H0 | discriminate H1 | discriminate H2
            | (destruct Hs as [? Hs]; discriminate Hs) | by eauto]]|].
  all: split;
    [intros s Hs; first [discriminate Hs | (injection Hs as <-; by repeat split)]|].
  all: split; [by eexists|].
  all: split; [reflexivity|].
  all: by split.
Qed.

(** X10: each of the four operations writes its argument to the console
    exactly once, and before it does anything else, with or without a
    channel and whatever the gateway answers. *)
Theorem operations_log_first (gw : gateway) (m : message)
    (text type : string) (c : content) (ps : list content) (sg : Song) :
  (head (simpleNote m text type).2 = Some (ConsoleLog (LText text)) ∧
   count is_log (simpleNote m text type).2 = 1%nat) ∧
  (head (send m c).2 = Some (ConsoleLog (LContent c)) ∧
   count is_log (send m c).2 = 1%nat) ∧
  (head (Paged.pagedContent gw m ps).2 = Some (ConsoleLog (LPages ps)) ∧
   count is_log (Paged.pagedContent gw m ps).2 = 1%nat) ∧
  (head (Rating.displaySong gw m sg).2 = Some (ConsoleLog (LSong sg)) ∧
   count is_log (Rating.displaySong gw m sg).2 = 1%nat).
Proof.
  assert (Hsends : ∀ (A : Type) (f : A -> call) (ls : list A),
            (∀ l, is_log (f l) = false) -> count is_log (f <$> ls) = 0%nat).
  { intros A f ls Hf. induction ls as [|l ls IH]; [done|].
    change (f <$> l :: ls) with (f l :: (f <$> ls)).
    rewrite RatingFacts.count_cons, Hf. done. }
  assert (Hreacts : ∀ t, count is_log (MessageReact <$> begun t) = 0%nat).
  { intros t. by apply Hsends. }
  repeat split.
  - unfold simpleNote. by destruct (channel m).
  - unfold simpleNote. destruct (channel m); [|done]. cbn [snd].
    change (debugPrint (LText text) ++ ?x) with (ConsoleLog (LText text) :: x).
    rewrite RatingFacts.count_cons. simpl. by rewrite Hsends.
  - unfold send. by destruct (channel m).
  - unfold send. by destruct (channel m).
  - unfold Paged.pagedContent. destruct (channel m); [|done].
    destruct (send_reply gw _); [|done].
    by destruct (postReactionEmojis _ _ _) as [t [|]].
  - unfold Paged.pagedContent. destruct (channel m); [|done].
    destruct (send_reply gw _); [|done].
    destruct (postReactionEmojis _ _ _) as [t [|]]; cbn [snd];
      change (debugPrint ?a ++ ?x) with (ConsoleLog a :: x);
      rewrite !RatingFacts.count_cons; simpl; by rewrite Hreacts.
  - unfold Rating.displaySong. destruct (channel m); [|done].
    destruct (buildSongEmbed sg) as [sg' e].
    destruct (send_reply gw _); [|done].
    by destruct (postReactionEmojis _ _ _) as [t [|]].
  - unfold Rating.displaySong. destruct (channel m); [|done].
    destruct (buildSongEmbed sg) as [sg' e].
    destruct (send_reply gw _); [|done].
    destruct (postReactionEmojis _ _ _) as [t [|]]; cbn [snd];
      change (debugPrint ?a ++ ?x) with (ConsoleLog a :: x);
      rewrite !RatingFacts.count_cons; simpl; by rewrite Hreacts.
Qed.

End SetupProperties.

(** ** Navigating pages *)

Module PagedMore.
Import Paged PagedFacts PagedBoundary.

Lemma offer_calls c r u s cs :
  (offer c r u (s, cs)).2 =
    cs ++ if bool_decide (c ∈ open s) && filter_of (msg s) c r u
          then (on_collect c s r).2 else [].
Proof.
  unfold offer.
  destruct (bool_decide (c ∈ open s) && filter_of (msg s) c r u);
    [by destruct (on_collect c s r)|]. simpl. by rewrite app_nil_r.
Qed.

Lemma run_step s ev evs :
  run s (ev :: evs) =
    ((run (dispatch s ev).1 evs).1,
     (dispatch s ev).2 ++ (run (dispatch s ev).1 evs).2).
Proof.
  change (run s (ev :: evs)) with
    (let '(s1, cs1) := dispatch s ev in
     let '(s2, cs2) := run s1 evs in (s2, cs1 ++ cs2)).
  destruct (dispatch s ev) as [s1 cs1]. cbn [fst snd].
  by destruct (run s1 evs) as [s2 cs2].
Qed.

(** What holds of a session and of the calls of its listeners holds of
    every event and of every run. *)
Lemma dispatch_forall (I : session -> Prop) (P : call -> Prop) s ev :
  (∀ c s r, I s -> I (on_collect c s r).1 ∧ Forall P (on_collect c s r).2) ->
  (∀ c s, I s -> I (close s c)) ->
  P ReactionsRemoveAll ->
  I s -> I (dispatch s ev).1 ∧ Forall P (dispatch s ev).2.
Proof.
  intros Hc Hcl Hr Hs.
  assert (Hoffer : ∀ c r u acc,
            I acc.1 ∧ Forall P acc.2 ->
            I (offer c r u acc).1 ∧ Forall P (offer c r u acc).2).
  { intros c r u [s0 cs0] [H1 H2]. simpl in H1, H2.
    rewrite offer_fst, offer_calls.
    destruct (_ && _).
    - destruct (Hc c s0 r H1) as [H3 H4]. split; [done|].
      by apply Forall_app.
    - by rewrite app_nil_r. }
  destruct ev as [r u|c]; unfold dispatch.
  - apply Hoffer, Hoffer. by split.
  - destruct (bool_decide (c ∈ open s)); simpl;
      [split; [by apply Hcl | by repeat constructor] | by split].
Qed.

Lemma run_forall (I : session -> Prop) (P : call -> Prop) evs : ∀ s,
  (∀ c s r, I s -> I (on_collect c s r).1 ∧ Forall P (on_collect c s r).2) ->
  (∀ c s, I s -> I (close s c)) ->
  P ReactionsRemoveAll ->
  I s -> I (run s evs).1 ∧ Forall P (run s evs).2.
Proof.
  induction evs as [|ev evs IH]; intros s Hc Hcl Hr Hs; [by split|].
  rewrite run_step. cbn [fst snd].
  destruct (dispatch_forall I P s ev Hc Hcl Hr Hs) as [H1 H2].
  destruct (IH _ Hc Hcl Hr H1) as [H3 H4].
  split; [done|]. by apply Forall_app.
Qed.

Lemma page_at_elem (ps : list content) i :
  (i < List.length ps)%nat -> page_at ps i ∈ ps.
Proof.
  intros Hi. unfold page_at.
  destruct (lookup_lt_is_Some_2 ps i Hi) as [x Hx]. rewrite Hx. simpl.
  by eapply list_elem_of_lookup_2.
Qed.

Lemma forward_step s r u :
  emoji_name r = FORWARD ->
  id u = id (author (msg s)) ->
  nextReaction ∈ open s ->
  (dispatch s (ReactionAdd r u)).1 =
    set_page s (Nat.min (page s + 1) (List.length (pages s) - 1)
                `max` page s).
Proof.
  intros He Hu Hn. rewrite dispatch_forward by done.
  rewrite !bool_decide_eq_true_2 by done. simpl.
  destruct (Nat.ltb_spec (page s + 1) (List.length (pages s))); simpl.
  - f_equal. lia.
  - destruct s as [m0 ps p cur op]. unfold set_page. simpl in *.
    f_equal. lia.
Qed.

Lemma forward_inside s r u :
  emoji_name r = FORWARD ->
  id u = id (author (msg s)) ->
  nextReaction ∈ open s ->
  (page s + 1 < List.length (pages s))%nat ->
  dispatch s (ReactionAdd r u) =
    (set_page s (S (page s)),
     [UsersRemove FORWARD (author (msg s));
      MessageEdit (page_at (pages s) (S (page s)))]).
Proof.
  intros He Hu Hn Hlt. rewrite dispatch_forward by done.
  rewrite !bool_decide_eq_true_2 by done. simpl. rewrite He.
  destruct (Nat.ltb_spec (page s + 1) (List.length (pages s))); [done|lia].
Qed.

Lemma back_inside s r u :
  emoji_name r = REWIND ->
  id u = id (author (msg s)) ->
  backReaction ∈ open s ->
  (0 < page s)%nat ->
  dispatch s (ReactionAdd r u) =
    (set_page s (pred (page s)),
     [UsersRemove REWIND (author (msg s));
      MessageEdit (page_at (pages s) (pred (page s)))]).
Proof.
  intros He Hu Hn Hlt. rewrite dispatch_rewind by done.
  rewrite !bool_decide_eq_true_2 by done. simpl. rewrite He.
  destruct (Nat.ltb_spec 0 (page s)); [done|lia].
Qed.

End PagedMore.

Section PagedProperties.
Import Paged PagedFacts PagedBoundary PagedMore.

(** X11: [n] forward reactions of the owner move the cursor [n] pages on,
    but never past the last page: from page [p] the widget ends on page
    [min (p + n) (len - 1)]. *)
Theorem paged_forward_many (s : session) (r : reaction) (u : user) (n : nat) :
  emoji_name r = FORWARD ->
  id u = id (author (msg s)) ->
  nextReaction ∈ open s ->
  (page s < List.length (pages s))%nat ->
  page (run s (replicate n (ReactionAdd r u))).1 =
    Nat.min (page s + n) (List.length (pages s) - 1).
Proof.
  intros He Hu. revert s Hu.
  induction n as [|n IH]; intros s Hu Hn Hlt.
  - simpl. lia.
  - change (replicate (S n) (ReactionAdd r u))
      with (ReactionAdd (C := collector) r u :: replicate n (ReactionAdd r u)).
    rewrite run_step. cbn [fst].
    pose proof (forward_step s r u He Hu Hn) as Hstep.
    rewrite Hstep.
    set (p := (Nat.min (page s + 1) (List.length (pages s) - 1) `max` page s)).
    rewrite (IH (set_page s p)); [|done|done|simpl; unfold p; lia].
    simpl. unfold p. lia.
Qed.

(** X12: forward and then back brings the owner to the page shown before:
    the cursor is where it was and the last edit shows that page again. *)
Theorem paged_forward_back (s : session) (r r' : reaction) (u : user) :
  emoji_name r = FORWARD ->
  emoji_name r' = REWIND ->
  id u = id (author (msg s)) ->
  nextReaction ∈ open s ->
  backReaction ∈ open s ->
  (page s + 1 < List.length (pages s))%nat ->
  run s [ReactionAdd r u; ReactionAdd r' u] =
    (s, [UsersRemove FORWARD (author (msg s));
         MessageEdit (page_at (pages s) (S (page s)));
         UsersRemove REWIND (author (msg s));
         MessageEdit (page_at (pages s) (page s))]).
Proof.
  intros He He' Hu Hn Hb Hlt.
  rewrite run_step, (forward_inside s r u) by done. cbn [fst snd].
  rewrite run_step, (back_inside (set_page s (S (page s))) r' u)
    by (done || (simpl; lia)).
  simpl. by destruct s.
Qed.

(** X13: as long as the cursor starts on a page, every edit of a run shows
    one of the pages the widget was given: [pages[page]] is never read
    outside the array. *)
Theorem paged_edits_show_pages (s : session) (evs : list (event collector)) :
  (page s < List.length (pages s))%nat ->
  ∀ x, MessageEdit x ∈ (run s evs).2 -> x ∈ pages s.
Proof.
  intros Hlt x Hin.
  destruct (run_forall
    (fun s' => pages s' = pages s ∧ (page s' < List.length (pages s'))%nat)
    (fun c => ∀ y, c = MessageEdit y -> y ∈ pages s) evs s) as [_ HP].
  - intros c s' r' [Hp Hb]. rewrite on_collect_pages.
    split; [split; [done|by apply on_collect_bound]|].
    destruct c; simpl.
    + destruct (Nat.ltb_spec (page s' + 1) (List.length (pages s')));
        repeat constructor; try done.
      intros y [= <-]. rewrite <- Hp. apply page_at_elem. lia.
    + destruct (Nat.ltb_spec 0 (page s'));
        repeat constructor; try done.
      intros y [= <-]. rewrite <- Hp. apply page_at_elem. lia.
  - by intros c s' [Hp Hb].
  - done.
  - done.
  - rewrite Forall_forall in HP. by apply (HP _ Hin).
Qed.

(** X14: once it is up, a paged widget is silent and touches nobody but
    its owner: all it ever does is take back reactions of the author of
    the originating message, edit its own message, and strip the icons;
    it sends no message and no note. *)
Theorem paged_calls_only_owner (s : session) (evs : list (event collector)) :
  Forall (fun c => paged_call (author (msg s)) c = true) (run s evs).2.
Proof.
  destruct (run_forall (fun s' => msg s' = msg s)
    (fun c => paged_call (author (msg s)) c = true) evs s) as [_ HP];
    try done.
  intros c s' r' Hm. rewrite on_collect_msg. split; [done|].
  destruct c; simpl; rewrite Hm.
  - destruct (page s' + 1 <? _)%nat; repeat constructor; simpl;
      by rewrite bool_decide_eq_true_2.
  - destruct (0 <? page s')%nat; repeat constructor; simpl;
      by rewrite bool_decide_eq_true_2.
Qed.

End PagedProperties.

(** ** Collectors only close *)

Module PagedCollectors.
Import Paged PagedFacts PagedBoundary PagedMore.

Lemma reaction_forall (I : session -> Prop) (P : call -> Prop) s r u :
  (∀ c s r, I s -> I (on_collect c s r).1 ∧ Forall P (on_collect c s r).2) ->
  I s ->
  I (dispatch s (ReactionAdd r u)).1 ∧ Forall P (dispatch s (ReactionAdd r u)).2.
Proof.
  intros Hc Hs.
  assert (Hoffer : ∀ c acc,
            I acc.1 ∧ Forall P acc.2 ->
            I (offer c r u acc).1 ∧ Forall P (offer c r u acc).2).
  { intros c [s0 cs0] [H1 H2]. simpl in H1, H2.
    rewrite offer_fst, offer_calls.
    destruct (_ && _).
    - destruct (Hc c s0 r H1) as [H3 H4]. split; [done|].
      by apply Forall_app.
    - by rewrite app_nil_r. }
  unfold dispatch. apply Hoffer, Hoffer. by split.
Qed.

Lemma count_zero (P : call -> bool) cs :
  Forall (fun c => P c = false) cs -> count P cs = 0%nat.
Proof.
  induction 1 as [|c cs Hc _ IH]; [done|].
  by rewrite RatingFacts.count_cons, Hc, IH.
Qed.

(** A reaction opens and closes no collector and strips no icon. *)
Lemma reaction_keeps_collectors s r u :
  open (dispatch s (ReactionAdd r u)).1 = open s ∧
  count is_remove_all (dispatch s (ReactionAdd r u)).2 = 0%nat.
Proof.
  destruct (reaction_forall (fun s' => open s' = open s)
              (fun c => is_remove_all c = false) s r u) as [H1 H2]; [|done|].
  - intros c s' r' Ho. rewrite on_collect_open. split; [done|].
    destruct c; simpl.
    + destruct (page s' + 1 <? _)%nat; by repeat constructor.
    + destruct (0 <? page s')%nat; by repeat constructor.
  - split; [done|]. by apply count_zero.
Qed.

Lemma end_closes s c :
  open (dispatch s (CollectorEnd c)).1 = filter (fun c' => c' ≠ c) (open s) ∧
  (count is_remove_all (dispatch s (CollectorEnd c)).2
   + List.length (open (dispatch s (CollectorEnd c)).1)
   <= List.length (open s))%nat.
Proof.
  simpl. destruct (bool_decide (c ∈ open s)) eqn:E; simpl.
  - apply bool_decide_eq_true in E. split; [done|].
    pose proof (length_filter_lt (fun c' => c' ≠ c) (open s) c E) as Hlt.
    unfold count. simpl. specialize (Hlt ltac:(tauto)). lia.
  - apply bool_decide_eq_false in E. split; [|unfold count; simpl; lia].
    clear -E. induction (open s) as [|c0 op IH]; [done|].
    apply not_elem_of_cons in E as [Hne E]. rewrite filter_cons.
    destruct (decide (c0 ≠ c)) as [|Hn]; [by rewrite <- IH|].
    exfalso. apply Hn. congruence.
Qed.

Lemma run_open evs : ∀ s,
  (∀ c, c ∈ open (run s evs).1 -> c ∈ open s) ∧
  (∀ c, CollectorEnd c ∈ evs -> c ∉ open (run s evs).1) ∧
  (count is_remove_all (run s evs).2 + List.length (open (run s evs).1)
   <= List.length (open s))%nat.
Proof.
  induction evs as [|ev evs IH]; intros s.
  - simpl. repeat split; [done| |unfold count; simpl; lia].
    intros c Hc. by apply elem_of_nil in Hc.
  - rewrite run_step. cbn [fst snd].
    destruct (IH (dispatch s ev).1) as (I1 & I2 & I3).
    rewrite RatingFacts.count_app.
    destruct ev as [r u|c0].
    + destruct (reaction_keeps_collectors s r u) as [Ho Hc].
      rewrite Ho in I1, I3. rewrite Hc.
      repeat split; [done| |lia].
      intros c Hin. apply elem_of_cons in Hin as [Hin|Hin]; [done|].
      by apply I2.
    + destruct (end_closes s c0) as [Ho Hc].
      repeat split.
      * intros c Hin. apply I1 in Hin. rewrite Ho in Hin.
        apply list_elem_of_filter in Hin. tauto.
      * intros c Hin. apply elem_of_cons in Hin as [Hin|Hin]; [|by apply I2].
        injection Hin as ->. intros Hopen. apply I1 in Hopen.
        rewrite Ho in Hopen. apply list_elem_of_filter in Hopen. tauto.
      * lia.
Qed.

Lemma closed_dispatch s ev : open s = [] -> dispatch s ev = (s, []).
Proof.
  intros Ho. destruct ev as [r u|c]; unfold dispatch, offer; rewrite ?Ho.
  - simpl. by rewrite Ho.
  - done.
Qed.

Lemma closed_run evs : ∀ s, open s = [] -> run s evs = (s, []).
Proof.
  induction evs as [|ev evs IH]; intros s Ho; [done|].
  rewrite run_step, closed_dispatch by done. cbn [fst snd].
  by rewrite IH.
Qed.

End PagedCollectors.

Section PagedCollectorProperties.
Import Paged.

(** X15: in a paged widget collectors only close.  No run opens a
    collector; a collector whose timer ran out during the run is closed at
    its end; and the icons are stripped at most once per collector that
    closed.  Once both are closed the widget reacts to nothing. *)
Theorem paged_collectors_only_close (s : session)
    (evs : list (event collector)) :
  (∀ c, c ∈ open (run s evs).1 -> c ∈ open s) ∧
  (∀ c, CollectorEnd c ∈ evs -> c ∉ open (run s evs).1) ∧
  (count is_remove_all (run s evs).2 + List.length (open (run s evs).1)
   <= List.length (open s))%nat ∧
  (open s = [] -> run s evs = (s, [])).
Proof.
  destruct (PagedCollectors.run_open evs s) as (H1 & H2 & H3).
  repeat split; try done. intros Ho. by apply PagedCollectors.closed_run.
Qed.

(** X16: the two collectors of a paged widget end separately.  After the
    timer of the forward collector ran out, forward reactions do nothing
    any more, while a back reaction is still handled exactly as before,
    although the first "end" has stripped the icons from the message. *)
Theorem paged_collectors_end_separately (s : session) (r : reaction)
    (u : user) :
  let s' := (dispatch s (CollectorEnd nextReaction)).1 in
  (emoji_name r = FORWARD -> dispatch s' (ReactionAdd r u) = (s', [])) ∧
  (emoji_name r = REWIND ->
     (dispatch s' (ReactionAdd r u)).2 = (dispatch s (ReactionAdd r u)).2 ∧
     page (dispatch s' (ReactionAdd r u)).1
       = page (dispatch s (ReactionAdd r u)).1).
Proof.
  intros s'.
  destruct (PagedCollectors.end_closes s nextReaction) as [Ho _].
  fold s' in Ho.
  assert (Hm : msg s' = msg s ∧ pages s' = pages s ∧ page s' = page s).
  { unfold s'. simpl. by destruct (bool_decide _). }
  destruct Hm as (Hm & Hp & Hpg).
  split.
  - intros He. rewrite PagedBoundary.dispatch_forward by done.
    rewrite (bool_decide_eq_false_2 (nextReaction ∈ open s')); [done|].
    rewrite Ho, list_elem_of_filter. tauto.
  - intros He. rewrite !PagedBoundary.dispatch_rewind by done.
    rewrite Hm.
    assert (Hb : bool_decide (backReaction ∈ open s')
                 = bool_decide (backReaction ∈ open s)).
    { apply bool_decide_ext. rewrite Ho, list_elem_of_filter.
      split; [tauto|]. by split. }
    rewrite Hb. destruct (_ && _); [|done].
    unfold on_collect. rewrite Hm, Hpg, Hp.
    by destruct (0 <? page s)%nat.
Qed.

End PagedCollectorProperties.

(** ** Votes *)

Module RatingMore.
Import Rating RatingFacts RatingVotes RatingRuns.

Section WithCallback.
Variable processRating : Song -> user -> Z -> bool -> Song * rating_result.

Local Abbreviation rate_each := (Rating.rate_each processRating).
Local Abbreviation on_collect := (Rating.on_collect processRating).
Local Abbreviation dispatch := (Rating.dispatch processRating).
Local Abbreviation run := (Rating.run processRating).

Lemma rating_run_step s ev evs :
  run s (ev :: evs) =
    ((run (dispatch s ev).1 evs).1,
     (dispatch s ev).2 ++ (run (dispatch s ev).1 evs).2).
Proof.
  change (run s (ev :: evs)) with
    (let '(s1, cs1) := dispatch s ev in
     let '(s2, cs2) := run s1 evs in (s2, cs1 ++ cs2)).
  destruct (dispatch s ev) as [s1 cs1]. cbn [fst snd].
  by destruct (run s1 evs) as [s2 cs2].
Qed.

(** A reaction is taken by one open collector whose filter accepts it, or
    by none. *)
Lemma reaction_cases s r u :
  dispatch s (ReactionAdd r u) = (s, []) ∨
  ∃ c, c ∈ open s ∧ filter_of c r u = true ∧
       dispatch s (ReactionAdd r u) = on_collect c s r.
Proof.
  destruct (emoji_cases (emoji_name r)) as [[c Hc]|Hnone].
  - rewrite (dispatch_vote _ c) by done.
    destruct (bool_decide (c ∈ open s)) eqn:E1; [|by left].
    destruct (bot u) eqn:E2; [by left|]. right. exists c.
    apply bool_decide_eq_true in E1. split; [done|]. split; [|done].
    unfold filter_of. by rewrite Hc, bool_decide_eq_true_2, E2.
  - left. by apply dispatch_other.
Qed.

Lemma on_collect_calls c s r :
  (on_collect c s r).2 =
    prelude c r ++ RatingLoop.asked c r ++
    (settle_all r
       (rate_each r (humans r) (song s) (delta_of c) (ignoreCd_of c)).1.1
       (rate_each r (humans r) (song s) (delta_of c) (ignoreCd_of c)).2).2.
Proof.
  rewrite on_collect_eq. cbn [snd]. rewrite handleRatingReaction_calls.
  by destruct (rate_each_calls processRating r (delta_of c) (ignoreCd_of c)
                 (humans r) (song s)) as [-> _].
Qed.

Lemma asked_counts c r :
  count is_edit (RatingLoop.asked c r) = 0%nat ∧
  count (is_note_of msgType.FAIL) (RatingLoop.asked c r) = 0%nat ∧
  count is_scoring (RatingLoop.asked c r) = List.length (humans r).
Proof.
  unfold RatingLoop.asked. induction (humans r) as [|v us IH]; [done|].
  rewrite bind_cons, !count_app. destruct IH as (-> & -> & ->).
  by rewrite !count_cons.
Qed.

Lemma prelude_counts c r :
  count is_edit (prelude c r) = 0%nat ∧
  count (is_note_of msgType.FAIL) (prelude c r) = 0%nat ∧
  count is_scoring (prelude c r) = 0%nat.
Proof.
  destruct c; simpl; repeat split; done.
Qed.

Lemma no_scoring_count cs :
  (∀ v d cd, ProcessRating v d cd ∉ cs) -> count is_scoring cs = 0%nat.
Proof.
  intros H. apply PagedCollectors.count_zero. apply Forall_forall.
  intros c Hc. destruct c; try done. by apply H in Hc.
Qed.

Lemma tally_split ps :
  (tally is_resolved ps + tally (fun x => negb (is_resolved x)) ps)%nat
    = List.length ps.
Proof.
  induction ps as [|res ps IH]; [done|].
  rewrite !tally_cons. simpl. destruct (is_resolved res); simpl; lia.
Qed.

(** Every scoring call of a listener is answered by a re-render or by a
    failure note, never by both and never by neither. *)
Lemma on_collect_answered c s r :
  (count is_edit (on_collect c s r).2
   + count (is_note_of msgType.FAIL) (on_collect c s r).2)%nat
    = count is_scoring (on_collect c s r).2.
Proof.
  rewrite on_collect_calls, !count_app.
  destruct (prelude_counts c r) as (-> & -> & ->).
  destruct (asked_counts c r) as (-> & -> & ->).
  destruct (settle_all_counts r
    (rate_each r (humans r) (song s) (delta_of c) (ignoreCd_of c)).2
    (rate_each r (humans r) (song s) (delta_of c) (ignoreCd_of c)).1.1)
    as (-> & _ & -> & Hno).
  rewrite (no_scoring_count _ Hno).
  pose proof (tally_split
    (rate_each r (humans r) (song s) (delta_of c) (ignoreCd_of c)).2) as Ht.
  destruct (rate_each_calls processRating r (delta_of c) (ignoreCd_of c)
              (humans r) (song s)) as [_ Hl].
  rewrite Hl in Ht. lia.
Qed.

Lemma dispatch_answered s ev :
  (count is_edit (dispatch s ev).2
   + count (is_note_of msgType.FAIL) (dispatch s ev).2)%nat
    = count is_scoring (dispatch s ev).2.
Proof.
  destruct ev as [r u|c].
  - destruct (reaction_cases s r u) as [->|(c & _ & _ & ->)]; [done|].
    apply on_collect_answered.
  - simpl. by destruct (bool_decide _).
Qed.

(** The calls of a listener are of the few kinds a rating widget makes. *)
Lemma settle_all_shape r ps : ∀ sg,
  Forall (fun c => rating_call c = true ∧ is_remove_all c = false)
         (settle_all r sg ps).2.
Proof.
  induction ps as [|res ps IH]; intros sg; simpl; [done|].
  assert (H : Forall (fun c => rating_call c = true ∧ is_remove_all c = false)
                     (settled r sg res).2).
  { destruct res as [[text|]|err]; simpl.
    - destruct (negb (bool_decide (text = ""))); by repeat constructor.
    - by repeat constructor.
    - by repeat constructor. }
  destruct (settled r sg res) as [sg1 cs1].
  specialize (IH sg1). destruct (settle_all r sg1 ps) as [sg2 cs2].
  simpl in *. by apply Forall_app.
Qed.

Lemma on_collect_shape c s r :
  Forall (fun c => rating_call c = true ∧ is_remove_all c = false)
         (on_collect c s r).2.
Proof.
  rewrite on_collect_calls. apply Forall_app. split; [|apply Forall_app; split].
  - destruct c; by repeat constructor.
  - unfold RatingLoop.asked. apply Forall_bind, Forall_forall.
    intros v Hv. apply human_elem in Hv as [_ Hv].
    repeat constructor; simpl; by rewrite Hv.
  - apply settle_all_shape.
Qed.

Lemma dispatch_shape s ev :
  Forall (fun c => rating_call c = true) (dispatch s ev).2.
Proof.
  destruct ev as [r u|c].
  - destruct (reaction_cases s r u) as [->|(c & _ & _ & ->)]; [done|].
    eapply Forall_impl; [apply on_collect_shape|]. by intros c' [? _].
  - simpl. destruct (bool_decide _); by repeat constructor.
Qed.

(** A reaction opens and closes no collector and strips no icon. *)
Lemma rating_reaction_keeps_collectors s r u :
  open (dispatch s (ReactionAdd r u)).1 = open s ∧
  count is_remove_all (dispatch s (ReactionAdd r u)).2 = 0%nat.
Proof.
  destruct (reaction_cases s r u) as [->|(c & _ & _ & ->)]; [done|].
  split; [apply on_collect_keeps_open|].
  apply PagedCollectors.count_zero.
  eapply Forall_impl; [apply on_collect_shape|]. by intros c' [_ ?].
Qed.

End WithCallback.

End RatingMore.

Section RatingProperties.
Import Rating RatingFacts RatingVotes RatingRuns RatingMore.

Variable processRating : Song -> user -> Z -> bool -> Song * rating_result.

Local Abbreviation rate_each := (Rating.rate_each processRating).
Local Abbreviation on_collect := (Rating.on_collect processRating).
Local Abbreviation dispatch := (Rating.dispatch processRating).
Local Abbreviation run := (Rating.run processRating).


Lemma scoring_of_asked c r :
  filter (fun x => is_scoring x = true) (RatingLoop.asked c r) =
    (fun v => ProcessRating v (delta_of c) (ignoreCd_of c)) <$> humans r.
Proof.
  unfold RatingLoop.asked. induction (humans r) as [|v us IH]; [done|].
  rewrite bind_cons, filter_app, IH. done.
Qed.

(** X18: a vote scores every human user cached on the reaction, not only
    the one whose reaction was delivered: the scoring calls of the event
    are one per non-bot user of [reaction.users], in cache order, each
    with the delta of the emoji.  With no human cached nothing is scored
    and the listener does nothing beyond the note of the flag. *)
Theorem rating_scores_every_cached_human (s : session) (c : collector)
    (r : reaction) (u : user) :
  c ∈ open s ->
  filter_of c r u = true ->
  let out := dispatch s (ReactionAdd r u) in
  filter (fun x => is_scoring x = true) out.2 =
    (fun v => ProcessRating v (delta_of c) (ignoreCd_of c)) <$> humans r ∧
  (humans r = [] -> out.2 = prelude c r).
Proof.
  intros Hopen Hf out.
  unfold filter_of in Hf. apply andb_true_iff in Hf as [He Hb].
  apply bool_decide_eq_true in He. apply negb_true_iff in Hb.
  assert (Hout : out = on_collect c s r).
  { unfold out. rewrite (dispatch_vote _ c) by done.
    by rewrite bool_decide_eq_true_2, Hb by done. }
  rewrite Hout, on_collect_calls. split.
  - rewrite !filter_app, scoring_of_asked.
    destruct (settle_all_counts r
      (rate_each r (humans r) (song s) (delta_of c) (ignoreCd_of c)).2
      (rate_each r (humans r) (song s) (delta_of c) (ignoreCd_of c)).1.1)
      as (_ & _ & _ & Hno).
    apply no_scoring_count in Hno. unfold count in Hno.
    apply nil_length_inv in Hno. rewrite Hno, app_nil_r.
    by destruct c.
  - intros Hh. unfold RatingLoop.asked. rewrite Hh. simpl.
    by rewrite app_nil_r.
Qed.

(** X19: when the scoring promise of the one human on the reaction
    resolves, the message is edited once, with an embed built from the
    song as the callback left it (dashes written in), and the song of the
    session is that song; a music note follows exactly when the callback
    resolved with a non-empty note. *)
Theorem rating_resolved_vote_renders (s : session) (c : collector)
    (r : reaction) (u : user) (sg' : Song) (note : option string) :
  c ∈ open s ->
  filter_of c r u = true ->
  humans r = [u] ->
  processRating (song s) u (delta_of c) (ignoreCd_of c) = (sg', Resolved note) ->
  let out := dispatch s (ReactionAdd r u) in
  song out.1 = (buildSongEmbed sg').1 ∧
  out.2 = prelude c r ++
          [UsersRemove (emoji_of c) u;
           ProcessRating u (delta_of c) (ignoreCd_of c);
           MessageEdit (CEmbed (buildSongEmbed sg').2)] ++
          match note with
          | Some text =>
              if truthy note
              then [SimpleNote (r_message r) text msgType.MUSIC] else []
          | None => []
          end.
Proof.
  intros Hopen Hf Hh Hres out.
  unfold filter_of in Hf. apply andb_true_iff in Hf as [He Hb].
  apply bool_decide_eq_true in He. apply negb_true_iff in Hb.
  assert (Hout : out = on_collect c s r).
  { unfold out. rewrite (dispatch_vote _ c) by done.
    by rewrite bool_decide_eq_true_2, Hb by done. }
  rewrite Hout, on_collect_eq. cbn [fst snd].
  unfold Rating.handleRatingReaction. rewrite Hh. simpl.
  rewrite Hres. simpl. rewrite He.
  destruct note as [text|]; simpl;
    [destruct (negb (bool_decide (text = "")))|]; by split.
Qed.

(** X20: once it is up, a rating widget only takes back reactions of
    users that are not bots, scores such users, edits its message with a
    song embed, sends notes of the music and the failure kind, and strips
    the icons; it never sends a plain message, attaches an emoji, or
    sends an info or search note. *)
Theorem rating_calls_shape (s : session) (evs : list (event collector)) :
  Forall (fun c => rating_call c = true) (run s evs).2.
Proof.
  revert s. induction evs as [|ev evs IH]; intros s; [done|].
  rewrite rating_run_step. cbn [snd]. apply Forall_app. split.
  - apply dispatch_shape.
  - apply IH.
Qed.

Lemma rating_end_closes s c :
  (count is_remove_all (dispatch s (CollectorEnd c)).2
   + List.length (open (dispatch s (CollectorEnd c)).1)
   <= List.length (open s))%nat.
Proof.
  simpl. destruct (bool_decide (c ∈ open s)) eqn:E; simpl.
  - apply bool_decide_eq_true in E.
    pose proof (length_filter_lt (fun c' => c' ≠ c) (open s) c E) as Hlt.
    unfold count. simpl. specialize (Hlt ltac:(tauto)). lia.
  - unfold count. simpl. lia.
Qed.

Lemma rating_closed_run evs : ∀ s, open s = [] -> run s evs = (s, []).
Proof.
  induction evs as [|ev evs IH]; intros s Ho; [done|].
  assert (Hd : dispatch s ev = (s, [])).
  { destruct ev as [r u|c].
    - destruct (reaction_cases processRating s r u)
        as [->|(c & Hc & _)]; [done|].
      rewrite Ho in Hc. by apply elem_of_nil in Hc.
    - simpl. by rewrite Ho. }
  rewrite rating_run_step, Hd. cbn [fst snd]. by rewrite IH.
Qed.

(** X21: in a rating widget collectors only close.  No run opens a
    collector; a collector whose timer ran out during the run is closed at
    its end; the icons are stripped at most once per collector that
    closed; and once all are closed the widget reacts to nothing. *)
Theorem rating_collectors_only_close (s : session)
    (evs : list (event collector)) :
  (∀ c, c ∈ open (run s evs).1 -> c ∈ open s) ∧
  (∀ c, CollectorEnd c ∈ evs -> c ∉ open (run s evs).1) ∧
  (count is_remove_all (run s evs).2 + List.length (open (run s evs).1)
   <= List.length (open s))%nat ∧
  (open s = [] -> run s evs = (s, [])).
Proof.
  split; [|split; [|split]]; [| | |by apply rating_closed_run].
  - revert s. induction evs as [|ev evs IH]; intros s c; [done|].
    rewrite rating_run_step. cbn [fst]. intros Hc. apply IH in Hc.
    destruct ev as [r u|c0].
    + by destruct (rating_reaction_keeps_collectors processRating s r u)
        as [<- _].
    + rewrite collector_end_open in Hc.
      apply list_elem_of_filter in Hc. tauto.
  - revert s. induction evs as [|ev evs IH]; intros s c Hin.
    { by apply elem_of_nil in Hin. }
    rewrite rating_run_step. cbn [fst].
    apply elem_of_cons in Hin as [<-|Hin]; [|by apply IH].
    intros Hopen.
    assert (Hsub : ∀ evs s c, c ∈ open (run s evs).1 -> c ∈ open s).
    { clear. induction evs as [|ev evs IH]; intros s c; [done|].
      rewrite rating_run_step. cbn [fst]. intros Hc. apply IH in Hc.
      destruct ev as [r u|c0].
      + by destruct (rating_reaction_keeps_collectors processRating s r u)
          as [<- _].
      + rewrite collector_end_open in Hc.
        apply list_elem_of_filter in Hc. tauto. }
    apply Hsub in Hopen. by apply (collector_end_closes processRating s c).
  - revert s. induction evs as [|ev evs IH]; intros s.
    { unfold count. simpl. lia. }
    rewrite rating_run_step. cbn [fst snd]. rewrite count_app.
    specialize (IH (dispatch s ev).1).
    destruct ev as [r u|c0].
    + destruct (rating_reaction_keeps_collectors processRating s r u)
        as [Ho Hc].
      rewrite Ho in IH. lia.
    + pose proof (rating_end_closes s c0). lia.
Qed.

(** X22: the three collectors of a rating widget end separately.  After
    the timer of one ran out, reactions with its emoji do nothing any
    more, while a vote with another emoji is still taken back, scored and
    rendered exactly as before, although the first "end" has stripped the
    icons from the message. *)
Theorem rating_collectors_end_separately (s : session) (c c' : collector)
    (r : reaction) (u : user) :
  let s' := (dispatch s (CollectorEnd c)).1 in
  (emoji_name r = emoji_of c -> dispatch s' (ReactionAdd r u) = (s', [])) ∧
  (c' ≠ c -> emoji_name r = emoji_of c' ->
     (dispatch s' (ReactionAdd r u)).2 = (dispatch s (ReactionAdd r u)).2 ∧
     song (dispatch s' (ReactionAdd r u)).1
       = song (dispatch s (ReactionAdd r u)).1).
Proof.
  intros s'.
  assert (Ho : open s' = filter (fun x => x ≠ c) (open s))
    by apply collector_end_open.
  assert (Hs : song s' = song s).
  { unfold s'. simpl. by destruct (bool_decide _). }
  split.
  - intros He. rewrite (dispatch_vote _ c) by done.
    rewrite (bool_decide_eq_false_2 (c ∈ open s')); [done|].
    rewrite Ho, list_elem_of_filter. tauto.
  - intros Hne He. rewrite !(dispatch_vote _ c') by done.
    assert (Hb : bool_decide (c' ∈ open s') = bool_decide (c' ∈ open s)).
    { apply bool_decide_ext. rewrite Ho, list_elem_of_filter.
      split; [tauto|]. by split. }
    rewrite Hb. destruct (_ && _); [|done].
    rewrite !on_collect_eq. cbn [fst snd]. by rewrite Hs.
Qed.

End RatingProperties.

(** ** Follow-up commands *)

Section AwaitProperties.
Import Await.

Lemma fail_line l : note_line msgType.FAIL l = ":x: | " +:+ l.
Proof. reflexivity. Qed.

Lemma note_marker_gateway (m : message) (text type : string) :
  gateway_calls [SimpleNote m text type] =
    filter (fun c => is_gateway c = true) (simpleNote m text type).2.
Proof.
  unfold gateway_calls. rewrite bind_cons. cbn [expand mbind list_bind].
  by rewrite app_nil_r.
Qed.

Lemma fail_note_gateway (m : message) (ch err : string) :
  channel m = Some ch ->
  gateway_calls [SimpleNote m err msgType.FAIL] =
    (fun l => ChannelSend (CText (":x: | " +:+ l))) <$> split_lines err.
Proof.
  intros Hc. rewrite note_marker_gateway.
  unfold simpleNote. rewrite Hc. cbn [snd].
  change (debugPrint (LText err) ++ ?x) with (ConsoleLog (LText err) :: x).
  rewrite filter_cons. simpl.
  induction (split_lines err) as [|l ls IH]; [done|].
  change (filter (fun c => is_gateway c = true)
            (ChannelSend (CText (note_line msgType.FAIL l)) ::
             ((fun l => ChannelSend (CText l)) <$> (note_line msgType.FAIL <$> ls)))
          = ChannelSend (CText (":x: | " +:+ l)) ::
            ((fun l => ChannelSend (CText (":x: | " +:+ l))) <$> ls)).
  rewrite filter_cons. simpl. by rewrite IH, fail_line.
Qed.


End AwaitProperties.

(** ** The further properties at sample inputs *)

Lemma simpleNote_one_send_per_line_witness :
  let text := String "a" (String "010" (String "b" EmptyString)) in
  channel Sample.request = Some "general" ∧
  List.length (gateway_calls (simpleNote Sample.request text msgType.INFO).2)
    = 2%nat.
Proof.
  assert (H : channel Sample.request = Some "general") by reflexivity.
  split; [exact H|].
  exact (proj1 (proj2 (simpleNote_one_send_per_line Sample.request "general"
                         (String "a" (String "010" (String "b" EmptyString)))
                         msgType.INFO H))).
Defined.

Lemma simpleNote_loses_no_text_witness :
  let text := String "a" (String "010" (String "b" EmptyString)) in
  channel Sample.request = Some "general" ∧
  ∃ lines,
    gateway_calls (simpleNote Sample.request text msgType.MUSIC).2 =
      (fun l => ChannelSend (CText (note_line msgType.MUSIC l))) <$> lines ∧
    join_lines lines = text ∧
    Forall (fun l => newlines l = 0%nat) lines.
Proof.
  assert (H : channel Sample.request = Some "general") by reflexivity.
  split; [exact H|].
  exact (simpleNote_loses_no_text Sample.request "general"
           (String "a" (String "010" (String "b" EmptyString)))
           msgType.MUSIC H).
Defined.

Lemma simpleNote_unknown_type_is_send_witness :
  (("debug" ∉ [msgType.INFO; msgType.MUSIC; msgType.SEARCH; msgType.FAIL]) ∧
   newlines "hello" = 0%nat) ∧
  (simpleNote Sample.request "hello" "debug").1
    = (send Sample.request (CText "hello")).1.
Proof.
  assert (H1 : "debug" ∉ [msgType.INFO; msgType.MUSIC; msgType.SEARCH; msgType.FAIL]).
  { rewrite !not_elem_of_cons. repeat split; try discriminate.
    apply not_elem_of_nil. }
  assert (H2 : newlines "hello" = 0%nat) by reflexivity.
  split; [by split|].
  exact (proj1 (simpleNote_unknown_type_is_send Sample.request "hello" "debug"
                  H1 H2)).
Defined.

Lemma pagedContent_setup_witness :
  channel Sample.request = Some "general" ∧
  is_Some (Paged.pagedContent Sample.gw_ok Sample.request Sample.three_pages).1.
Proof.
  assert (H : channel Sample.request = Some "general") by reflexivity.
  split; [exact H|].
  apply (proj1 (pagedContent_setup Sample.gw_ok Sample.request "general"
                  Sample.three_pages H)).
  repeat split. by eexists.
Defined.

Lemma displaySong_setup_witness :
  channel Sample.request = Some "general" ∧
  (Rating.displaySong Sample.gw_ok Sample.request Sample.a_song).1.1
    = (buildSongEmbed Sample.a_song).1.
Proof.
  assert (H : channel Sample.request = Some "general") by reflexivity.
  split; [exact H|].
  exact (proj1 (displaySong_setup Sample.gw_ok Sample.request "general"
                  Sample.a_song H)).
Defined.

Lemma paged_forward_many_witness :
  let r := Sample.reaction_by Paged.FORWARD Sample.alice in
  (emoji_name r = Paged.FORWARD ∧
   id Sample.alice = id (author (Paged.msg Sample.paged0)) ∧
   Paged.nextReaction ∈ Paged.open Sample.paged0 ∧
   (Paged.page Sample.paged0 < List.length (Paged.pages Sample.paged0))%nat) ∧
  Paged.page (Paged.run Sample.paged0
                (replicate 5 (ReactionAdd r Sample.alice))).1 = 2%nat.
Proof.
  assert (H1 : emoji_name (Sample.reaction_by Paged.FORWARD Sample.alice)
               = Paged.FORWARD) by reflexivity.
  assert (H2 : id Sample.alice = id (author (Paged.msg Sample.paged0)))
    by reflexivity.
  assert (H3 : Paged.nextReaction ∈ Paged.open Sample.paged0) by left.
  assert (H4 : (Paged.page Sample.paged0
                < List.length (Paged.pages Sample.paged0))%nat)
    by (simpl; lia).
  split; [by repeat split|].
  exact (paged_forward_many Sample.paged0
           (Sample.reaction_by Paged.FORWARD Sample.alice) Sample.alice 5
           H1 H2 H3 H4).
Defined.

Lemma paged_forward_back_witness :
  let r := Sample.reaction_by Paged.FORWARD Sample.alice in
  let r' := Sample.reaction_by Paged.REWIND Sample.alice in
  (emoji_name r = Paged.FORWARD ∧ emoji_name r' = Paged.REWIND ∧
   id Sample.alice = id (author (Paged.msg Sample.paged0)) ∧
   Paged.nextReaction ∈ Paged.open Sample.paged0 ∧
   Paged.backReaction ∈ Paged.open Sample.paged0 ∧
   (Paged.page Sample.paged0 + 1
    < List.length (Paged.pages Sample.paged0))%nat) ∧
  (Paged.run Sample.paged0
     [ReactionAdd r Sample.alice; ReactionAdd r' Sample.alice]).1
    = Sample.paged0.
Proof.
  assert (H1 : emoji_name (Sample.reaction_by Paged.FORWARD Sample.alice)
               = Paged.FORWARD) by reflexivity.
  assert (H1' : emoji_name (Sample.reaction_by Paged.REWIND Sample.alice)
               = Paged.REWIND) by reflexivity.
  assert (H2 : id Sample.alice = id (author (Paged.msg Sample.paged0)))
    by reflexivity.
  assert (H3 : Paged.nextReaction ∈ Paged.open Sample.paged0) by left.
  assert (H3' : Paged.backReaction ∈ Paged.open Sample.paged0)
    by (right; left).
  assert (H4 : (Paged.page Sample.paged0 + 1
                < List.length (Paged.pages Sample.paged0))%nat)
    by (simpl; lia).
  split; [by repeat split|].
  exact (f_equal fst
           (paged_forward_back Sample.paged0
              (Sample.reaction_by Paged.FORWARD Sample.alice)
              (Sample.reaction_by Paged.REWIND Sample.alice) Sample.alice
              H1 H1' H2 H3 H3' H4)).
Defined.

Lemma paged_edits_show_pages_witness :
  let fwd := ReactionAdd (Sample.reaction_by Paged.FORWARD Sample.alice)
               Sample.alice in
  (Paged.page Sample.paged0 < List.length (Paged.pages Sample.paged0))%nat ∧
  MessageEdit (CText "page two") ∈ (Paged.run Sample.paged0 [fwd]).2 ∧
  CText "page two" ∈ Paged.pages Sample.paged0.
Proof.
  assert (H : (Paged.page Sample.paged0
               < List.length (Paged.pages Sample.paged0))%nat)
    by (simpl; lia).
  assert (Hin : MessageEdit (CText "page two")
    ∈ (Paged.run Sample.paged0
         [ReactionAdd (Sample.reaction_by Paged.FORWARD Sample.alice)
            Sample.alice]).2) by (vm_compute; right; left).
  split; [exact H|]. split; [exact Hin|].
  exact (paged_edits_show_pages Sample.paged0 _ H (CText "page two") Hin).
Defined.

Lemma rating_scores_every_cached_human_witness :
  let r := mkReaction Rating.UP [Sample.robot; Sample.alice; Sample.bob]
             Sample.answer in
  (Rating.upReaction ∈ Rating.open Sample.rating0 ∧
   Rating.filter_of Rating.upReaction r Sample.alice = true) ∧
  filter (fun x => is_scoring x = true)
    (Rating.dispatch Sample.add_rating Sample.rating0
       (ReactionAdd r Sample.alice)).2
  = [ProcessRating Sample.alice 1 false; ProcessRating Sample.bob 1 false].
Proof.
  assert (H1 : Rating.upReaction ∈ Rating.open Sample.rating0) by left.
  assert (H2 : Rating.filter_of Rating.upReaction
                 (mkReaction Rating.UP [Sample.robot; Sample.alice; Sample.bob]
                    Sample.answer) Sample.alice = true) by reflexivity.
  split; [by split|].
  exact (proj1 (rating_scores_every_cached_human Sample.add_rating
                  Sample.rating0 Rating.upReaction
                  (mkReaction Rating.UP [Sample.robot; Sample.alice; Sample.bob]
                     Sample.answer) Sample.alice H1 H2)).
Defined.

Lemma rating_resolved_vote_renders_witness :
  let r := Sample.reaction_by Rating.UP Sample.alice in
  (Rating.upReaction ∈ Rating.open Sample.rating0 ∧
   Rating.filter_of Rating.upReaction r Sample.alice = true ∧
   Rating.humans r = [Sample.alice] ∧
   Sample.chatty (Rating.song Sample.rating0) Sample.alice 1 false
     = (Sample.a_song, Rating.Resolved (Some "Song removed"))) ∧
  Rating.song (Rating.dispatch Sample.chatty Sample.rating0
                 (ReactionAdd r Sample.alice)).1
    = (buildSongEmbed Sample.a_song).1.
Proof.
  assert (H1 : Rating.upReaction ∈ Rating.open Sample.rating0) by left.
  assert (H2 : Rating.filter_of Rating.upReaction
                 (Sample.reaction_by Rating.UP Sample.alice) Sample.alice = true)
    by reflexivity.
  assert (H3 : Rating.humans (Sample.reaction_by Rating.UP Sample.alice)
               = [Sample.alice]) by reflexivity.
  assert (H4 : Sample.chatty (Rating.song Sample.rating0) Sample.alice
                 (Rating.delta_of Rating.upReaction)
                 (Rating.ignoreCd_of Rating.upReaction)
               = (Sample.a_song, Rating.Resolved (Some "Song removed")))
    by reflexivity.
  split; [by repeat split|].
  exact (proj1 (rating_resolved_vote_renders Sample.chatty Sample.rating0
                  Rating.upReaction (Sample.reaction_by Rating.UP Sample.alice)
                  Sample.alice Sample.a_song (Some "Song removed")
                  H1 H2 H3 H4)).
Defined.
